(** * yoto-auto-icons: the title-to-keyword matcher of [src/matchIcon.ts]

    A shallow embedding of the matcher (normalisation, Hebrew prefix
    stripping, keyword search, suggestion ranking, mapping statistics and
    the two module-level caches) together with the properties its
    specification states about it.

    Modelling conventions.
    - A JavaScript string is the list of its UTF-16 code units ([list N]);
      [length] is then the [.length] of the source.
    - An object read with [Object.entries] (the synonym table) is the list of
      its entries in iteration order; an object used through lookup and
      [Object.keys(..).length] (the icon mapping) is a [gmap] of its own
      properties.  Reading a name that is not an own property gives the
      member of that name inherited from [Object.prototype], if there is
      one.
    - [null] and [undefined] are [None] where the source only tests whether
      a value is truthy; the keys it compares with [===] keep them apart.
    - A number is the rational it is equal to; a quotient or a product is
      rounded to the nearest double. *)

From Stdlib Require Import ZArith NArith QArith Lia List Bool Sorted Permutation.
From Stdlib Require Strings.String Strings.Ascii.
From stdpp Require Import base decidable option list gmap.
Import ListNotations.

Local Open Scope N_scope.

Abbreviation jsstring := (list N).

(** String literals of the sources, as code units. *)
Module Lit.
Import Stdlib.Strings.String.
Local Open Scope string_scope.

Definition units (s : string) : jsstring :=
  map Ascii.N_of_ascii (list_ascii_of_string s).

Definition untitledTrack : jsstring := units "Untitled Track".
Definition untitledPlaylist : jsstring := units "Untitled Playlist".
Definition noneWord : jsstring := units "none".
Definition yotoPrefix : jsstring := units "yoto:#".
(** [CONFIG.YOTO_ICON_URL] *)
Definition YOTO_ICON_URL : jsstring :=
  units "https://media-secure-v2.api.yotoplay.com/icons".
(** The literal of [updateCardWithIcons]. *)
Definition mediaBase : jsstring :=
  units "https://media-secure-v2.api.yotoplay.com/icons/".

(** The names of the members of [Object.prototype]. *)
Definition constructorName : jsstring := units "constructor".
Definition defineGetterName : jsstring := units "__defineGetter__".
Definition defineSetterName : jsstring := units "__defineSetter__".
Definition hasOwnPropertyName : jsstring := units "hasOwnProperty".
Definition lookupGetterName : jsstring := units "__lookupGetter__".
Definition lookupSetterName : jsstring := units "__lookupSetter__".
Definition isPrototypeOfName : jsstring := units "isPrototypeOf".
Definition propertyIsEnumerableName : jsstring := units "propertyIsEnumerable".
Definition toStringName : jsstring := units "toString".
Definition valueOfName : jsstring := units "valueOf".
Definition protoName : jsstring := units "__proto__".
Definition toLocaleStringName : jsstring := units "toLocaleString".

End Lit.

(** ** Strings *)

Module Str.

Fixpoint eqb (a b : jsstring) : bool :=
  match a, b with
  | [], [] => true
  | x :: a', y :: b' => (x =? y) && eqb a' b'
  | _, _ => false
  end.

Fixpoint startsWith (s p : jsstring) : bool :=
  match p, s with
  | [], _ => true
  | y :: p', x :: s' => (x =? y) && startsWith s' p'
  | _ :: _, [] => false
  end.

(** [s.includes(sub)]: [sub] occurs in [s] as a contiguous run. *)
Fixpoint includes (s sub : jsstring) : bool :=
  startsWith s sub ||
  match s with
  | [] => false
  | _ :: s' => includes s' sub
  end.

(** [s.substring(n)] for [0 <= n]. *)
Definition substring (n : nat) (s : jsstring) : jsstring := drop n s.

(** [s.split(' ')]. *)
Fixpoint split (s : jsstring) : list jsstring :=
  match s with
  | [] => [[]]
  | c :: r =>
      if c =? 32 then [] :: split r
      else match split r with
           | w :: ws => (c :: w) :: ws
           | [] => [[c]]
           end
  end.

(** [arr.includes(x)] on an array of strings. *)
Definition mem (x : jsstring) (arr : list jsstring) : bool :=
  existsb (eqb x) arr.

End Str.

(** ** Character classes *)

(** [\w] of a regular expression without flags. *)
Definition isWord (c : N) : bool :=
  ((65 <=? c) && (c <=? 90)) || ((97 <=? c) && (c <=? 122))
  || ((48 <=? c) && (c <=? 57)) || (c =? 95).

(** [\s], which is also what [trim] removes: WhiteSpace and LineTerminator. *)
Definition isSpace (c : N) : bool :=
  ((9 <=? c) && (c <=? 13)) || (c =? 32) || (c =? 0xA0) || (c =? 0x1680)
  || ((0x2000 <=? c) && (c <=? 0x200A)) || (c =? 0x2028) || (c =? 0x2029)
  || (c =? 0x202F) || (c =? 0x205F) || (c =? 0x3000) || (c =? 0xFEFF).

(** The Hebrew block, U+0590 to U+05FF. *)
Definition isHebrew (c : N) : bool := (0x590 <=? c) && (c <=? 0x5FF).

(** The test of [s] against the Hebrew block. *)
Definition hasHebrew (s : jsstring) : bool := existsb isHebrew s.

(** ** normalizeText *)

(** [toLowerCase] on one code unit.  The upper-case ASCII letters, and the two
    characters outside ASCII whose lower case reaches ASCII: KELVIN SIGN
    (U+212A, to k) and LATIN CAPITAL LETTER I WITH DOT ABOVE (U+0130, to i
    followed by U+0307).  Every other cased character lies outside ASCII,
    outside [\s] and outside the Hebrew block, and so does its lower case,
    unit for unit; the [replace] of [normalizeText] writes a space over
    either, so such units are left in place here. *)
Definition lowerUnit (c : N) : jsstring :=
  if (65 <=? c) && (c <=? 90) then [c + 32]
  else if c =? 0x212A then [107]
  else if c =? 0x130 then [105; 0x307]
  else [c].

Definition toLowerCase (s : jsstring) : jsstring := flat_map lowerUnit s.

Fixpoint trimStart (s : jsstring) : jsstring :=
  match s with
  | [] => []
  | c :: r => if isSpace c then trimStart r else s
  end.

Definition trimEnd (s : jsstring) : jsstring := rev (trimStart (rev s)).

Definition trim (s : jsstring) : jsstring := trimEnd (trimStart s).

(** The first [replace]: every unit outside [\w], [\s] and the Hebrew block
    becomes a space. *)
Definition keepUnit (c : N) : bool := isWord c || isSpace c || isHebrew c.

Definition replacePunct (s : jsstring) : jsstring :=
  map (fun c => if keepUnit c then c else 32) s.

(** [.replace(/\s+/g, ' ')]; [inRun] tells that the unit before was
    white space, whose run has already been written as one space. *)
Fixpoint collapseFrom (inRun : bool) (s : jsstring) : jsstring :=
  match s with
  | [] => []
  | c :: r =>
      if isSpace c then
        (if inRun then collapseFrom true r else 32 :: collapseFrom true r)
      else c :: collapseFrom false r
  end.

Definition collapseSpaces (s : jsstring) : jsstring := collapseFrom false s.

Definition normalizeText (text : jsstring) : jsstring :=
  trim (collapseSpaces (replacePunct (trim (toLowerCase text)))).

(** ** Search terms *)

Definition he : N := 0x5D4.   (* the letter he, the article *)
Definition vav : N := 0x5D5.  (* the letter vav, the conjunction *)

Definition stripHebrewPrefixes (word : jsstring) : list jsstring :=
  [word]
  ++ (if Str.startsWith word [he] && (2 <? length word)%nat
      then [Str.substring 1 word] else [])
  ++ (if Str.startsWith word [vav] && (2 <? length word)%nat
      then [Str.substring 1 word] else [])
  ++ (if Str.startsWith word [vav; he] && (3 <? length word)%nat
      then [Str.substring 2 word] else []).

Definition normalizeHebrewSpelling (text : jsstring) : list jsstring := [text].

Definition tokens (normalized : jsstring) : list jsstring :=
  List.filter (fun word => (1 <? length word)%nat) (Str.split normalized).

Definition variationsOf (word : jsstring) : list jsstring :=
  if hasHebrew word
  then [word] ++ stripHebrewPrefixes word ++ normalizeHebrewSpelling word
  else [word].

Definition extractKeywords (text : jsstring) : list jsstring :=
  let normalized := normalizeText text in
  let words := tokens normalized in
  let allVariations := flat_map variationsOf words in
  [normalized] ++ words ++ allVariations.

(** ** findBestKeywordMatch *)

(** The synonym table as [Object.entries] lists it. *)
Abbreviation YotoSynonyms := (list (jsstring * list jsstring)).

(** The icon mapping, keyword to icon identifier: its own properties. *)
Abbreviation YotoIconMapping := (gmap (list N) (list N)).

(** The state of the scan: left by a [return] from inside the loops, or
    still running with the two local variables. *)
Inductive Scan : Type :=
| Return (keyword : jsstring)
| Running (bestMatch : option jsstring) (bestScore : nat).

(** A [for .. of] loop whose body may return. *)
Fixpoint forOf {A : Type} (xs : list A)
    (body : A -> option jsstring -> nat -> Scan)
    (bestMatch : option jsstring) (bestScore : nat) : Scan :=
  match xs with
  | [] => Running bestMatch bestScore
  | x :: rest =>
      match body x bestMatch bestScore with
      | Return k => Return k
      | Running bm bs => forOf rest body bm bs
      end
  end.

(** The body of the innermost loop, for one search term and one candidate. *)
Definition checkTerm (keyword searchTerm term : jsstring)
    (bestMatch : option jsstring) (bestScore : nat) : Scan :=
  let normalizedTerm := normalizeText term in
  if Str.eqb normalizedTerm searchTerm then Return keyword
  else if hasHebrew term
          && existsb (fun variation => Str.eqb variation searchTerm)
                     (normalizeHebrewSpelling normalizedTerm)
       then Return keyword
  else if Str.includes normalizedTerm searchTerm
          || Str.includes searchTerm normalizedTerm
       then
         let score := Nat.max (length normalizedTerm) (length searchTerm) in
         if (bestScore <? score)%nat then Running (Some keyword) score
         else Running bestMatch bestScore
  else Running bestMatch bestScore.

Definition scanKeyword (searchTerms : list jsstring)
    (entry : jsstring * list jsstring) : option jsstring -> nat -> Scan :=
  let '(keyword, synonymList) := entry in
  let allTerms := keyword :: synonymList in
  forOf searchTerms (fun searchTerm =>
    forOf allTerms (checkTerm keyword searchTerm)).

Definition scanTable (searchTerms : list jsstring) (synonyms : YotoSynonyms)
  : Scan :=
  forOf synonyms (scanKeyword searchTerms) None 0%nat.

Definition findBestKeywordMatch (searchTerms : list jsstring)
    (synonyms : YotoSynonyms) : option jsstring :=
  match scanTable searchTerms synonyms with
  | Return keyword => Some keyword
  | Running bestMatch _ => bestMatch
  end.

(** ** Reading a property of the icon mapping *)

(** The members that every object inherits from [Object.prototype], each
    with its [length] when it is a function.  [__proto__] is an accessor:
    read, it gives the prototype itself, which has no [length]. *)
Definition objectPrototype : list (jsstring * option nat) :=
  [(Lit.constructorName, Some 1%nat);
   (Lit.defineGetterName, Some 2%nat);
   (Lit.defineSetterName, Some 2%nat);
   (Lit.hasOwnPropertyName, Some 1%nat);
   (Lit.lookupGetterName, Some 1%nat);
   (Lit.lookupSetterName, Some 1%nat);
   (Lit.isPrototypeOfName, Some 1%nat);
   (Lit.propertyIsEnumerableName, Some 1%nat);
   (Lit.toStringName, Some 0%nat);
   (Lit.valueOfName, Some 0%nat);
   (Lit.protoName, None);
   (Lit.toLocaleStringName, Some 0%nat)].

Definition isInherited (name : jsstring) : bool :=
  Str.mem name (map fst objectPrototype).

(** What [iconMappings[name]] evaluates to when it is not [undefined]: the
    string the mapping holds under that name, or else the inherited member
    of that name, which is a function or the prototype and no string. *)
Inductive IconValue : Type :=
| stored (s : jsstring)
| inherited (name : jsstring).

(** [iconMappings[name]] *)
Definition readProperty (iconMappings : YotoIconMapping) (name : jsstring)
  : option IconValue :=
  match iconMappings !! name with
  | Some s => Some (stored s)
  | None => if isInherited name then Some (inherited name) else None
  end.

(** [x || null] on what a property read gives: the empty string is falsy
    like [undefined], an inherited member is an object and truthy. *)
Definition orNull (x : option IconValue) : option IconValue :=
  match x with
  | Some (stored []) => None
  | _ => x
  end.

(** ** matchIcon *)

Inductive Confidence : Type := exact | partial | none.

Record MatchResult : Type := mkMatchResult {
  keyword : option jsstring;
  iconId : option IconValue;
  confidence : Confidence;
  searchTerms : list jsstring
}.

(** [x || null] and [!x] on a string that may be missing: the empty string
    is falsy like [null] and [undefined]. *)
Definition truthy (x : option jsstring) : option jsstring :=
  match x with
  | Some (c :: s) => Some (c :: s)
  | _ => None
  end.

(** The body of [matchIcon] once the two tables are loaded. *)
Definition matchIconIn (synonyms : YotoSynonyms) (iconMappings : YotoIconMapping)
    (trackTitle : jsstring) : MatchResult :=
  let searchTerms := extractKeywords trackTitle in
  match truthy (findBestKeywordMatch searchTerms synonyms) with
  | None => mkMatchResult None None none searchTerms
  | Some keyword =>
      mkMatchResult (Some keyword)
        (orNull (readProperty iconMappings keyword))
        (if Str.mem (normalizeText keyword) searchTerms then exact else partial)
        searchTerms
  end.

(** ** getIconMappingStats *)

Record MappingStats : Type := mkMappingStats {
  totalKeywords : nat;
  mappedKeywords : nat;
  unmappedKeywords : list jsstring
}.

(** [!x] on what a property read gives. *)
Definition isFalsy (x : option IconValue) : bool :=
  match orNull x with
  | Some _ => false
  | None => true
  end.

Definition keysOf (synonyms : YotoSynonyms) : list jsstring := map fst synonyms.

(** The body of [getIconMappingStats] once the two tables are loaded. *)
Definition iconMappingStatsIn (synonyms : YotoSynonyms)
    (iconMappings : YotoIconMapping) : MappingStats :=
  mkMappingStats
    (length (keysOf synonyms))
    (size iconMappings)
    (List.filter (fun keyword => isFalsy (readProperty iconMappings keyword))
                 (keysOf synonyms)).

(** ** suggestMatches *)

(** The numbers of the relevance computation.  A double is kept as the
    rational it is equal to, and [0 / 0] is [NaN]. *)
Inductive jsnum : Type :=
| NaN
| Num (q : Q).

(** The double nearest to the positive rational [n / d], the one with the
    even significand when two are as near.  With [2 ^ exponent <= n / d <
    2 ^ (exponent + 1)] the doubles around [n / d] are the multiples of
    [2 ^ (exponent - 52)], so [n / d] is scaled by [2 ^ shift], rounded to an
    integer and scaled back.  The exponent is not bounded: the quotients and
    products of the source, made from lengths of strings, are far from the
    ends of the range of the doubles. *)
Definition roundPositive (n d : positive) : Q :=
  let e := (Z.log2 (Z.pos n) - Z.log2 (Z.pos d))%Z in
  let exponent :=
    if (Z.pos n * 2 ^ Z.max 0 (- e) <? Z.pos d * 2 ^ Z.max 0 e)%Z
    then (e - 1)%Z else e in
  let shift := (52 - exponent)%Z in
  let num := (Z.pos n * 2 ^ Z.max 0 shift)%Z in
  let den := (Z.pos d * 2 ^ Z.max 0 (- shift))%Z in
  let floor := (num / den)%Z in
  let significand :=
    match (2 * (num mod den) ?= den)%Z with
    | Lt => floor
    | Gt => (floor + 1)%Z
    | Eq => if Z.even floor then floor else (floor + 1)%Z
    end in
  Qmake (significand * 2 ^ Z.max 0 (- shift)) (Z.to_pos (2 ^ Z.max 0 shift)).

(** The double nearest to a rational. *)
Definition round64 (q : Q) : Q :=
  match Qnum q with
  | Z0 => 0
  | Z.pos n => roundPositive n (Qden q)
  | Z.neg n => - roundPositive n (Qden q)
  end.

(** [(Math.min(a, b) / Math.max(a, b)) * 100] on two lengths: the quotient
    is rounded, and so is the product. *)
Definition percent (a b : nat) : Q :=
  round64 (round64 (inject_Z (Z.of_nat (Nat.min a b))
                    / inject_Z (Z.of_nat (Nat.max a b)))
           * 100).

Definition overlap (a b : nat) : jsnum :=
  match Nat.max a b with
  | O => NaN
  | S _ => Num (percent a b)
  end.

(** [Math.max(x, y)]: [NaN] as soon as one argument is. *)
Definition mathMax (x y : jsnum) : jsnum :=
  match x, y with
  | Num a, Num b => if Qlt_le_dec a b then Num b else Num a
  | _, _ => NaN
  end.

(** [x > 0], false on [NaN]. *)
Definition positive (x : jsnum) : option Q :=
  match x with
  | Num q => if Qlt_le_dec 0 q then Some q else None
  | NaN => None
  end.

Definition relevanceStep (searchTerm : jsstring) (maxRelevance : jsnum)
    (term : jsstring) : jsnum :=
  let normalizedTerm := normalizeText term in
  if Str.includes normalizedTerm searchTerm
     || Str.includes searchTerm normalizedTerm
  then mathMax maxRelevance
               (overlap (length normalizedTerm) (length searchTerm))
  else maxRelevance.

Definition maxRelevanceOf (searchTerms allTerms : list jsstring) : jsnum :=
  fold_left
    (fun maxRelevance searchTerm =>
       fold_left (relevanceStep searchTerm) allTerms maxRelevance)
    searchTerms (Num 0).

Record Suggestion : Type := mkSuggestion {
  suggested : jsstring;
  suggestedIcon : option IconValue;
  relevance : Q
}.

(** One turn of the loop over the table: the suggestion pushed, if any. *)
Definition suggestionOf (searchTerms : list jsstring)
    (iconMappings : YotoIconMapping) (entry : jsstring * list jsstring)
  : option Suggestion :=
  let '(keyword, synonymList) := entry in
  match positive (maxRelevanceOf searchTerms (keyword :: synonymList)) with
  | Some r =>
      Some (mkSuggestion keyword (orNull (readProperty iconMappings keyword)) r)
  | None => None
  end.

(** [.sort((a, b) => b.relevance - a.relevance)].  [Array.prototype.sort] is
    stable, and on the finite relevances pushed above the comparator is a
    total preorder (the difference of two doubles is negative, zero or
    positive as the first is below, equal to or above the second), so the
    result is the one stable arrangement by decreasing relevance; it is
    computed here by insertion. *)
Fixpoint insertByRelevance (x : Suggestion) (l : list Suggestion)
  : list Suggestion :=
  match l with
  | [] => [x]
  | y :: rest =>
      if Qlt_le_dec (relevance x) (relevance y)
      then y :: insertByRelevance x rest
      else x :: y :: rest
  end.

Definition sortByRelevance (l : list Suggestion) : list Suggestion :=
  fold_right insertByRelevance [] l.

(** [.slice(0, limit)] for an integral [limit]: a negative one counts from
    the end. *)
Definition slice0 {A : Type} (limit : Z) (l : list A) : list A :=
  if (limit <? 0)%Z
  then take (Z.to_nat (Z.of_nat (length l) + limit)) l
  else take (Z.to_nat limit) l.

(** The body of [suggestMatches] once the two tables are loaded. *)
Definition suggestMatchesIn (synonyms : YotoSynonyms)
    (iconMappings : YotoIconMapping) (trackTitle : jsstring) (limit : Z)
  : list Suggestion :=
  let searchTerms := extractKeywords trackTitle in
  let suggestions := omap (suggestionOf searchTerms iconMappings) synonyms in
  slice0 limit (sortByRelevance suggestions).

(** ** The module-level caches *)

Inductive Language : Type := english | hebrew.

(** What reading and parsing the backing files gives, per language; [None]
    when [readFileSync] or [JSON.parse] throws.  The synonym files are
    [CONFIG.YOTO_ICONS_FILE] and [yoto_icons_hebrew.json], the icon files
    are those of [getYotoIconIdsFile]. *)
Record Files : Type := mkFiles {
  synonymsFile : Language -> option YotoSynonyms;
  iconIdsFile : Language -> option YotoIconMapping
}.

Record Caches : Type := mkCaches {
  synonymsCache : option YotoSynonyms;
  iconMappingsCache : option YotoIconMapping
}.

(** At module load both caches are [null]. *)
Definition initialCaches : Caches := mkCaches None None.

(** Computations over the caches. *)
Definition M (A : Type) : Type := Caches -> A * Caches.

Definition ret {A : Type} (a : A) : M A := fun c => (a, c).

Definition bind {A B : Type} (m : M A) (k : A -> M B) : M B :=
  fun c => let '(a, c') := m c in k a c'.

Notation "x <- m ;; k" := (bind m (fun x => k))
  (at level 100, m at next level, right associativity).

Definition loadSynonyms (fs : Files) (language : Language) : M YotoSynonyms :=
  fun c =>
    match synonymsCache c with
    | Some cached => (cached, c)
    | None =>
        let loaded := default [] (synonymsFile fs language) in
        (loaded, mkCaches (Some loaded) (iconMappingsCache c))
    end.

Definition loadIconMappings (fs : Files) (language : Language)
  : M YotoIconMapping :=
  fun c =>
    let loaded := default ∅ (iconIdsFile fs language) in
    (loaded, mkCaches (synonymsCache c) (Some loaded)).

Definition reloadMappings (fs : Files) : M YotoIconMapping :=
  fun c => loadIconMappings fs english (mkCaches (synonymsCache c) None).

Definition matchIcon (fs : Files) (trackTitle : jsstring) (language : Language)
  : M MatchResult :=
  synonyms <- loadSynonyms fs language ;;
  iconMappings <- loadIconMappings fs language ;;
  ret (matchIconIn synonyms iconMappings trackTitle).

Definition getAvailableKeywords (fs : Files) (language : Language)
  : M (list jsstring) :=
  synonyms <- loadSynonyms fs language ;;
  ret (keysOf synonyms).

Definition getIconMappingStats (fs : Files) (language : Language)
  : M MappingStats :=
  synonyms <- loadSynonyms fs language ;;
  iconMappings <- loadIconMappings fs language ;;
  ret (iconMappingStatsIn synonyms iconMappings).

Definition suggestMatches (fs : Files) (trackTitle : jsstring) (limit : Z)
    (language : Language) : M (list Suggestion) :=
  synonyms <- loadSynonyms fs language ;;
  iconMappings <- loadIconMappings fs language ;;
  ret (suggestMatchesIn synonyms iconMappings trackTitle limit).

(** * Vocabulary of the properties *)

(** ** Normal forms of [normalizeText] *)

Definition isUpper (c : N) : bool := (65 <=? c) && (c <=? 90).

(** The units a normalised string is made of: the space, and the units kept
    by the first [replace] that are neither white space nor upper case. *)
Definition isCore (c : N) : bool :=
  (c =? 32) || (negb (isSpace c) && keepUnit c && negb (isUpper c)).

(** No two spaces in a row; [prev] tells that a space comes just before. *)
Fixpoint tightFrom (prev : bool) (s : jsstring) : bool :=
  match s with
  | [] => true
  | c :: r =>
      if isSpace c then negb prev && tightFrom true r else tightFrom false r
  end.

(** The string does not start with white space. *)
Definition headFree (s : jsstring) : bool :=
  match s with
  | [] => true
  | c :: _ => negb (isSpace c)
  end.

Record Normal (s : jsstring) : Prop := mkNormal {
  normal_units : Forall (fun c => isCore c = true) s;
  normal_tight : tightFrom false s = true;
  normal_head : headFree s = true;
  normal_last : headFree (rev s) = true
}.

(** The units left by the first [replace]. *)
Definition afterPunct (c : N) : bool := keepUnit c && negb (isUpper c).

(** ** Exact hits and containment *)

(** A candidate term equals a search term once normalised. *)
Definition termHits (searchTerm term : jsstring) : bool :=
  Str.eqb (normalizeText term) searchTerm.

(** Some search term equals the normalised keyword or a normalised synonym
    of the entry. *)
Definition exactHit (searchTerms : list jsstring)
    (entry : jsstring * list jsstring) : bool :=
  existsb (fun searchTerm => existsb (termHits searchTerm) (fst entry :: snd entry))
          searchTerms.

(** ** Prefix stripping *)

(** What one of the three checks contributes: the rest of the word after
    the prefix when the word starts with it and at least [more] units
    follow, and nothing otherwise. *)
Definition stripped (prefix : jsstring) (more : nat) (word : jsstring)
    (variants : list jsstring) : Prop :=
  (exists rest, word = prefix ++ rest /\ (more <= length rest)%nat
                /\ variants = [rest])
  \/ (~ (exists rest, word = prefix ++ rest /\ (more <= length rest)%nat)
      /\ variants = []).

(** ** Suggestions *)

(** One of the two normalised strings contains the other. *)
Definition contained (searchTerm term : jsstring) : bool :=
  Str.includes (normalizeText term) searchTerm
  || Str.includes searchTerm (normalizeText term).

(** The ratio of two lengths in per cent, as the source computes it in
    double arithmetic: [(min / max) * 100]. *)
Definition ratio (a b : nat) : Q := percent a b.

(** The ratio of a search term and a candidate term. *)
Definition pairRatio (searchTerm term : jsstring) : Q :=
  ratio (length (normalizeText term)) (length searchTerm).

(** [a] may stand before [b] in the sorted result. *)
Definition byRelevance (a b : Suggestion) : Prop :=
  (relevance b <= relevance a)%Q.

(** The suggestions whose relevance is [r]. *)
Definition tied (r : Q) (s : Suggestion) : bool := Qeq_bool (relevance s) r.

(** The pairs the two nested loops go through, in their order. *)
Definition pairsOf (searchTerms allTerms : list jsstring)
  : list (jsstring * jsstring) :=
  flat_map (fun searchTerm => map (pair searchTerm) allTerms) searchTerms.

(** One turn of the inner loop of [suggestMatches]. *)
Definition pairStep (maxRelevance : jsnum) (p : jsstring * jsstring) : jsnum :=
  relevanceStep (fst p) maxRelevance (snd p).

(** ** Sample data *)

Definition dog : jsstring := [100; 111; 103].
Definition puppy : jsstring := [112; 117; 112; 112; 121].
Definition moon : jsstring := [109; 111; 111; 110].
Definition dogs : jsstring := [100; 111; 103; 115].

(** The word for bird, and the title of the specification's example. *)
Definition bird : jsstring := [0x5E6; 0x5D9; 0x5E4; 0x5D5; 0x5E8].
Definition birdTitle : jsstring :=
  [0x5D4; 0x5E6; 0x5D9; 0x5E4; 0x5D5; 0x5E8; 32;
   0x5E9; 0x5E9; 0x5DB; 0x5D7; 0x5D4; 32; 0x5DC; 0x5E2; 0x5D5; 0x5E3].

(** Two synonym files that differ, and no icon file. *)
Definition twoLanguages : Files :=
  mkFiles (fun language =>
             match language with
             | english => Some [(dog, [puppy])]
             | hebrew => Some [(bird, [])]
             end)
          (fun _ => None).

(** Four keywords, three of which overlap the title dogs. *)
Definition rankingTable : YotoSynonyms :=
  [(dog, [puppy]); (moon, []); (dogs, []); (puppy, [dog])].

(** A table whose only keyword is the empty string. *)
Definition emptyKeyTable : YotoSynonyms := [([], [dog])].

(** A table with one keyword and no synonym. *)
Definition dogTable : YotoSynonyms := [(dog, [])].

(** The first keyword has a synonym, puppyhood, that contains the title
    puppy; the second has puppy itself as a synonym. *)
Definition puppyTable : YotoSynonyms :=
  [(moon, [[112; 117; 112; 112; 121; 104; 111; 111; 100]]); (dog, [puppy])].

(** Icon mappings: dog with an icon, and dog with the empty string. *)
Definition dogIcon : gmap (list N) (list N) := {[ dog := [121] ]}.

(** The four-letter word of the source's comment: vav, he, dalet, bet. *)
Definition vavHeWord : jsstring := [vav; he; 0x5D3; 0x5D1].

(** [v] is the icon that reading the mapping gives for the keyword [k]: the
    non-empty entry of [k], or, when the mapping has no entry for [k] and
    [k] names a member inherited from [Object.prototype], that member. *)
Definition iconOf (iconMappings : YotoIconMapping) (k : jsstring)
    (v : IconValue) : Prop :=
  (exists s, v = stored s /\ s <> [] /\ iconMappings !! k = Some s)
  \/ (v = inherited k /\ isInherited k = true /\ iconMappings !! k = None).


(** The last word of the title of the example, to fly, and the word for
    animal; two tables that have the keyword bird behind another entry:
    the keyword to fly, and the keyword animal with bird as a synonym. *)
Definition fly : jsstring := [0x5DC; 0x5E2; 0x5D5; 0x5E3].
Definition animal : jsstring := [0x5D7; 0x5D9; 0x5D4].
Definition flyBirdTable : YotoSynonyms := [(fly, []); (bird, [bird])].
Definition animalBirdTable : YotoSynonyms := [(animal, [bird]); (bird, [bird])].

(** A keyword of nine units that contains the title dog. *)
Definition doghouses : jsstring := [100; 111; 103; 104; 111; 117; 115; 101; 115].

(** * Vocabulary of the further properties *)

(** The units of a normalised string: the space, the lower-case letters,
    the digits, the underscore and the Hebrew block. *)
Definition isNormalUnit (c : N) : Prop :=
  c = 32 \/ 97 <= c <= 122 \/ 48 <= c <= 57 \/ c = 95 \/ 0x590 <= c <= 0x5FF.

(** The score [findBestKeywordMatch] gives to a search term and a candidate
    term: the longer of the two lengths when one contains the other. *)
Definition pairScore (searchTerm term : jsstring) : nat :=
  if contained searchTerm term
  then Nat.max (length (normalizeText term)) (length searchTerm)
  else 0%nat.

(** The best score of an entry over all its pairs. *)
Definition entryScore (terms : list jsstring)
    (entry : jsstring * list jsstring) : nat :=
  list_max
    (map (fun searchTerm =>
            list_max (map (pairScore searchTerm) (fst entry :: snd entry)))
         terms).

(** For the title dogs: a keyword contained in it, then two keywords with
    the same longer synonym, hotdogs, that contains it. *)
Definition fuzzyTable : YotoSynonyms :=
  [(dog, []);
   (moon, [[104; 111; 116; 100; 111; 103; 115]]);
   (puppy, [[104; 111; 116; 100; 111; 103; 115]])].

(** The title and the table of the specification's example without a
    match. *)
Definition calculusTitle : jsstring :=
  [65; 100; 118; 97; 110; 99; 101; 100; 32;
   67; 97; 108; 99; 117; 108; 117; 115].
Definition dogMoonTable : YotoSynonyms :=
  [(dog, [puppy]); (moon, [[108; 117; 110; 97; 114]])].

(** No synonym file can be read; the icon file of English has dog. *)
Definition noSynonymFiles : Files :=
  mkFiles (fun _ => None)
          (fun language =>
             match language with
             | english => Some dogIcon
             | hebrew => None
             end).

(** * The playlist client, [yoto.ts], and apply mode, [apply.ts] *)


(** A string field of the card that the source compares with [===]: it
    may be missing, [null] or a string. *)
Inductive JsString : Type :=
| undefined
| null
| str (s : jsstring).

(** [a === b] *)
Definition sameValue (a b : JsString) : bool :=
  match a, b with
  | undefined, undefined => true
  | null, null => true
  | str x, str y => Str.eqb x y
  | _, _ => false
  end.

(** [a || b]: [a] unless it is missing, [null] or the empty string. *)
Definition keyOrElse (a b : JsString) : JsString :=
  match a with
  | str (_ :: _) => a
  | _ => b
  end.

(** [s.replace(pattern, replacement)] with a string pattern: the first
    occurrence only. *)
Fixpoint replaceFirst (s pattern replacement : jsstring) : jsstring :=
  if Str.startsWith s pattern
  then replacement ++ drop (length pattern) s
  else match s with
       | [] => []
       | c :: rest => c :: replaceFirst rest pattern replacement
       end.

Module Yoto.

(** The part of the card JSON the client reads and writes.  A title or a
    display that is missing or [null] is [None]; of [display] only
    [icon16x16] is modelled. *)
Record Display : Type := mkDisplay { icon16x16 : option jsstring }.

Record CardTrack : Type := mkCardTrack {
  ctKey : JsString;
  ctId : JsString;
  ctTitle : option jsstring;
  ctDisplay : option Display
}.

Record Chapter : Type := mkChapter {
  chKey : JsString;
  chTitle : option jsstring;
  chDisplay : option Display;
  chTracks : option (list CardTrack)
}.

(** [data.card], with [content.chapters] as [chapters]. *)
Record Card : Type := mkCard {
  cardId : option jsstring;
  cardTitle : option jsstring;
  chapters : option (list Chapter)
}.

Record YotoTrack : Type := mkYotoTrack {
  trackId : JsString;
  title : jsstring;
  display : Display;
  chapterKey : JsString;
  trackKey : JsString
}.

Record YotoPlaylist : Type := mkYotoPlaylist {
  playlistId : jsstring;
  playlistTitle : jsstring;
  tracks : list YotoTrack
}.

(** [{}] *)
Definition noDisplay : Display := mkDisplay None.

(** The tracks [getPlaylist] makes of one chapter: its tracks when it has a
    list of them, itself when it has none but has a title. *)
Definition tracksOfChapter (chapter : Chapter) : list YotoTrack :=
  match chTracks chapter with
  | Some chapterTracks =>
      map (fun track =>
             mkYotoTrack (keyOrElse (ctKey track) (ctId track))
                         (default Lit.untitledTrack (truthy (ctTitle track)))
                         (default noDisplay (ctDisplay track))
                         (chKey chapter)
                         (ctKey track))
          chapterTracks
  | None =>
      match truthy (chTitle chapter) with
      | Some chapterTitle =>
          [mkYotoTrack (chKey chapter) chapterTitle
                       (default noDisplay (chDisplay chapter))
                       undefined undefined]
      | None => []
      end
  end.

(** What [getPlaylist] makes of the JSON of a successful response. *)
Definition getPlaylist (card : option Card) (cardIdAsked : jsstring)
  : YotoPlaylist :=
  mkYotoPlaylist
    (default cardIdAsked (truthy (card ≫= cardId)))
    (default Lit.untitledPlaylist (truthy (card ≫= cardTitle)))
    (flat_map tracksOfChapter (default [] (card ≫= chapters))).

(** The URL written for an icon identifier. *)
Definition mediaUrl (iconId : jsstring) : jsstring :=
  if Str.startsWith iconId Lit.yotoPrefix
  then Lit.mediaBase ++ replaceFirst iconId Lit.yotoPrefix []
  else iconId.

Definition setTrackIcon (url : jsstring) (track : CardTrack) : CardTrack :=
  mkCardTrack (ctKey track) (ctId track) (ctTitle track)
              (Some (mkDisplay (Some url))).

(** The loop over the tracks of the chapter, left at the first match. *)
Fixpoint updateTracks (track : YotoTrack) (url : jsstring)
    (chapterTracks : list CardTrack) : list CardTrack :=
  match chapterTracks with
  | [] => []
  | cardTrack :: rest =>
      if sameValue (ctKey cardTrack) (trackKey track)
         || sameValue (ctKey cardTrack) (trackId track)
      then setTrackIcon url cardTrack :: rest
      else cardTrack :: updateTracks track url rest
  end.

(** The loop over the chapters, left at the first chapter with the key. *)
Fixpoint updateChapters (track : YotoTrack) (url : jsstring)
    (cardChapters : list Chapter) : list Chapter :=
  match cardChapters with
  | [] => []
  | chapter :: rest =>
      if sameValue (chKey chapter) (chapterKey track)
      then mkChapter (chKey chapter) (chTitle chapter)
                     (Some (mkDisplay (Some url)))
                     (updateTracks track url <$> chTracks chapter)
           :: rest
      else chapter :: updateChapters track url rest
  end.

(** One turn of the loop over the updates. *)
Definition applyUpdate (card : Card) (update : YotoTrack * jsstring) : Card :=
  mkCard (cardId card) (cardTitle card)
         (updateChapters (fst update) (mediaUrl (snd update)) <$> chapters card).

Definition applyUpdates (card : Card) (updates : list (YotoTrack * jsstring))
  : Card :=
  fold_left applyUpdate updates card.

Record UpdateCount : Type := mkUpdateCount { success : nat; failed : nat }.

(** The updates with their icon identifiers as strings, when all of them
    are strings.  An identifier that is an inherited member has no
    [startsWith], and the loop over the updates throws on it. *)
Fixpoint stringUpdates (updates : list (YotoTrack * IconValue))
  : option (list (YotoTrack * jsstring)) :=
  match updates with
  | [] => Some []
  | (track, stored iconId) :: rest =>
      match stringUpdates rest with
      | Some others => Some ((track, iconId) :: others)
      | None => None
      end
  | (_, inherited _) :: _ => None
  end.

(** [updateCardWithIcons].  [fetched] is the card of the response, [None]
    when fetching it throws or it has no card; [post] tells whether
    [updateCard] succeeds on the card it is given.  The second component
    is the card posted, if any: whatever is thrown after the card is
    fetched is caught, and nothing is posted then. *)
Definition updateCardWithIcons (fetched : option Card) (post : Card -> bool)
    (updates : list (YotoTrack * IconValue)) (dryRun : bool)
  : UpdateCount * option Card :=
  if dryRun then (mkUpdateCount (length updates) 0, None)
  else match fetched, stringUpdates updates with
       | Some card, Some changes =>
           let updated := applyUpdates card changes in
           (if post updated
            then mkUpdateCount (length updates) 0
            else mkUpdateCount 0 (length updates),
            Some updated)
       | _, _ => (mkUpdateCount 0 (length updates), None)
       end.

(** Updates whose icon identifiers are the given strings. *)
Definition withStrings (updates : list (YotoTrack * jsstring))
  : list (YotoTrack * IconValue) :=
  map (fun update => (fst update, stored (snd update))) updates.

End Yoto.

(** ** [aiMatchKeyword] and [analyzePlaylist] *)

(** [aiMatchKeyword] after the call to the model.  [reply] is the content
    of the first choice after [trim] and [toLowerCase], [None] when the
    call throws or the content is missing. *)
Definition aiMatchKeyword (reply : option jsstring)
    (availableKeywords : list jsstring) : option jsstring * nat :=
  match reply with
  | None => (None, 0%nat)
  | Some result =>
      if Str.eqb result [] || Str.eqb result Lit.noneWord then (None, 0%nat)
      else if Str.mem result availableKeywords then (Some result, 75%nat)
      else (None, 0%nat)
  end.

(** The confidence of [apply.ts], with the tier of the model. *)
Inductive ApplyConfidence : Type := viaExact | viaPartial | viaAi | viaNone.

Definition ofConfidence (c : Confidence) : ApplyConfidence :=
  match c with
  | exact => viaExact
  | partial => viaPartial
  | none => viaNone
  end.

(** The [MatchResult] of [apply.ts]. *)
Record TrackMatch : Type := mkTrackMatch {
  tmTrack : Yoto.YotoTrack;
  tmKeyword : option jsstring;
  tmIconId : option IconValue;
  tmConfidence : ApplyConfidence;
  tmSearchTerms : list jsstring
}.

Record PlaylistStats : Type := mkPlaylistStats {
  stTotal : nat;
  stExact : nat;
  stPartial : nat;
  stAi : nat;
  stNone : nat
}.

(** [stats.total++; stats[result.confidence]++] *)
Definition countResult (stats : PlaylistStats) (c : ApplyConfidence)
  : PlaylistStats :=
  match c with
  | viaExact =>
      mkPlaylistStats (S (stTotal stats)) (S (stExact stats)) (stPartial stats)
                      (stAi stats) (stNone stats)
  | viaPartial =>
      mkPlaylistStats (S (stTotal stats)) (stExact stats) (S (stPartial stats))
                      (stAi stats) (stNone stats)
  | viaAi =>
      mkPlaylistStats (S (stTotal stats)) (stExact stats) (stPartial stats)
                      (S (stAi stats)) (stNone stats)
  | viaNone =>
      mkPlaylistStats (S (stTotal stats)) (stExact stats) (stPartial stats)
                      (stAi stats) (S (stNone stats))
  end.

(** The result for one track, given the tables read before the loop.
    [askModel] stands for the model behind [aiMatchKeyword]: from the title
    and the keywords shown to it, the reply as [aiMatchKeyword] reads it. *)
Definition analyzeTrack
    (askModel : jsstring -> list jsstring -> option jsstring)
    (iconMappings : gmap (list N) (list N)) (availableKeywords : list jsstring)
    (useAI : bool) (track : Yoto.YotoTrack) (found : MatchResult) : TrackMatch :=
  let result :=
    mkTrackMatch track (keyword found) (iconId found)
                 (ofConfidence (confidence found)) (searchTerms found) in
  match confidence found with
  | none =>
      if useAI && (0 <? length availableKeywords)%nat then
        let aiMatch :=
          aiMatchKeyword (askModel (Yoto.title track) (take 100 availableKeywords))
                         availableKeywords in
        match truthy (fst aiMatch) with
        | Some aiKeyword =>
            match orNull (readProperty iconMappings aiKeyword) with
            | Some icon =>
                mkTrackMatch track (Some aiKeyword) (Some icon) viaAi
                             [Yoto.title track]
            | None => result
            end
        | None => result
        end
      else result
  | _ => result
  end.

(** The loop of [analyzePlaylist] over the tracks. *)
Fixpoint analyzeTracks
    (fs : Files) (askModel : jsstring -> list jsstring -> option jsstring)
    (language : Language) (useAI : bool)
    (iconMappings : gmap (list N) (list N)) (availableKeywords : list jsstring)
    (playlistTracks : list Yoto.YotoTrack)
    (matches : list TrackMatch) (stats : PlaylistStats)
  : M (list TrackMatch * PlaylistStats) :=
  match playlistTracks with
  | [] => ret (matches, stats)
  | track :: rest =>
      found <- matchIcon fs (Yoto.title track) language ;;
      let result :=
        analyzeTrack askModel iconMappings availableKeywords useAI track found in
      _ <- (match truthy (tmKeyword result) with
            | Some _ => ret []
            | None => suggestMatches fs (Yoto.title track) 3 language
            end) ;;
      analyzeTracks fs askModel language useAI iconMappings availableKeywords
                    rest (matches ++ [result]) (countResult stats (tmConfidence result))
  end.

(** [analyzePlaylist] once the playlist is fetched. *)
Definition analyzePlaylist
    (fs : Files) (askModel : jsstring -> list jsstring -> option jsstring)
    (playlist : Yoto.YotoPlaylist) (language : Language) (useAI : bool)
  : M (list TrackMatch * PlaylistStats) :=
  iconMappings <- loadIconMappings fs language ;;
  availableKeywords <- getAvailableKeywords fs language ;;
  analyzeTracks fs askModel language useAI iconMappings availableKeywords
                (Yoto.tracks playlist) [] (mkPlaylistStats 0 0 0 0 0).

(** The matches [runApplyMode] turns into updates, and the updates. *)
Definition applicableMatches (matches : list TrackMatch) : list TrackMatch :=
  List.filter
    (fun m => match orNull (tmIconId m), tmConfidence m with
              | Some _, (viaExact | viaPartial | viaAi) => true
              | _, _ => false
              end)
    matches.

Definition updatesOf (matches : list TrackMatch)
  : list (Yoto.YotoTrack * IconValue) :=
  omap (fun m => match tmIconId m with
                 | Some icon => Some (tmTrack m, icon)
                 | None => None
                 end)
       (applicableMatches matches).

(** [assignable] of [displayStats]. *)
Definition assignable (stats : PlaylistStats) : nat :=
  (stExact stats + stPartial stats + stAi stats)%nat.

(** The card without its icons: the keys, identifiers and titles of the
    chapters and of their tracks. *)
Definition trackShape (track : Yoto.CardTrack)
  : JsString * JsString * option jsstring :=
  (Yoto.ctKey track, Yoto.ctId track, Yoto.ctTitle track).

Definition chapterShape (chapter : Yoto.Chapter)
  : JsString * option jsstring
    * option (list (JsString * JsString * option jsstring)) :=
  (Yoto.chKey chapter, Yoto.chTitle chapter,
   map trackShape <$> Yoto.chTracks chapter).

Definition cardShape (card : Yoto.Card) :=
  (Yoto.cardId card, Yoto.cardTitle card,
   map chapterShape <$> Yoto.chapters card).

(** The track [getPlaylist] makes of a track of a chapter. *)
Definition trackOf (chapter : Yoto.Chapter) (track : Yoto.CardTrack)
  : Yoto.YotoTrack :=
  Yoto.mkYotoTrack (keyOrElse (Yoto.ctKey track) (Yoto.ctId track))
                   (default Lit.untitledTrack (truthy (Yoto.ctTitle track)))
                   (default Yoto.noDisplay (Yoto.ctDisplay track))
                   (Yoto.chKey chapter)
                   (Yoto.ctKey track).

(** A card of two chapters: the first with two tracks, the second a track
    of its own. *)
Definition sampleCard : Yoto.Card :=
  Yoto.mkCard (Some [99; 49]) (Some [67])
    (Some [Yoto.mkChapter (str [48; 48]) (Some [65]) None
             (Some [Yoto.mkCardTrack (str [48; 49]) undefined (Some dog) None;
                    Yoto.mkCardTrack (str [48; 50]) undefined None None]);
           Yoto.mkChapter (str [48; 51]) (Some moon) None None]).

Definition sameTier (a b : ApplyConfidence) : bool :=
  match a, b with
  | viaExact, viaExact | viaPartial, viaPartial
  | viaAi, viaAi | viaNone, viaNone => true
  | _, _ => false
  end.

(** The number of matches of a tier. *)
Definition tierCount (tier : ApplyConfidence) (matches : list TrackMatch) : nat :=
  length (List.filter (fun m => sameTier (tmConfidence m) tier) matches).

(** The result of [analyzePlaylist] for one track when the synonym table in
    use is [table]. *)
Definition matchOfTrack
    (fs : Files) (askModel : jsstring -> list jsstring -> option jsstring)
    (language : Language) (useAI : bool) (table : YotoSynonyms)
    (track : Yoto.YotoTrack) : TrackMatch :=
  analyzeTrack askModel (default ∅ (iconIdsFile fs language)) (keysOf table)
               useAI track
               (matchIconIn table (default ∅ (iconIdsFile fs language))
                            (Yoto.title track)).

(** A model that always answers dog, and a playlist of two tracks, the
    second of which the table does not match. *)
Definition answersDog : jsstring -> list jsstring -> option jsstring :=
  fun _ _ => Some dog.
Definition dogFiles : Files :=
  mkFiles (fun _ => Some dogMoonTable) (fun _ => Some dogIcon).
Definition twoTracks : Yoto.YotoPlaylist :=
  Yoto.mkYotoPlaylist [112] [80]
    [Yoto.mkYotoTrack (str [49]) puppy Yoto.noDisplay undefined undefined;
     Yoto.mkYotoTrack (str [50]) calculusTitle Yoto.noDisplay
                      undefined undefined].

(** * Generate mode, [generate.ts] *)

Module GenLit.
Import Stdlib.Strings.String.
Local Open Scope string_scope.
Definition generatedPrefix : jsstring := Lit.units "generated_".
Definition pngSuffix : jsstring := Lit.units ".png".
End GenLit.

(** The units a file name keeps: ASCII letters, digits and the Hebrew
    block. *)
Definition isFileUnit (c : N) : bool :=
  ((97 <=? c) && (c <=? 122)) || ((65 <=? c) && (c <=? 90))
  || ((48 <=? c) && (c <=? 57)) || isHebrew c.

(** The [replace] of the file name: every other unit becomes an
    underscore. *)
Definition sanitizeKeyword (keyword : jsstring) : jsstring :=
  map (fun c => if isFileUnit c then c else 95) keyword.

Definition iconFileName (keyword : jsstring) : jsstring :=
  GenLit.generatedPrefix ++ sanitizeKeyword keyword ++ GenLit.pngSuffix.

(** The keywords generate mode works on: those given, or else the unmapped
    ones, cut to the limit when there is one that is not zero.  A limit
    that is missing or not a number is [None]. *)
Definition keywordsToGenerate (given : option (list jsstring))
    (limit : option Z) (stats : MappingStats) : list jsstring :=
  match given with
  | Some (k :: ks) => k :: ks
  | _ =>
      match limit with
      | Some n =>
          if (n =? 0)%Z then unmappedKeywords stats
          else slice0 n (unmappedKeywords stats)
      | None => unmappedKeywords stats
      end
  end.

Record Generation : Type := mkGeneration {
  successful : nat;
  failedCount : nat;
  written : list jsstring
}.

(** One turn of the loop of [generateMissingIcons].  [drawn] tells whether
    the image model gave an image for the keyword, [saved] whether writing
    the file of that name went through. *)
Definition generateOne (drawn saved : jsstring -> bool) (g : Generation)
    (keyword : jsstring) : Generation :=
  if drawn keyword then
    if saved (iconFileName keyword)
    then mkGeneration (S (successful g)) (failedCount g)
                      (written g ++ [iconFileName keyword])
    else mkGeneration (successful g) (S (failedCount g)) (written g)
  else mkGeneration (successful g) (S (failedCount g)) (written g).

(** [generateMissingIcons]: nothing is generated in a dry run. *)
Definition generateMissingIcons (drawn saved : jsstring -> bool)
    (given : option (list jsstring)) (limit : option Z) (dryRun : bool)
    (stats : MappingStats) : Generation :=
  if dryRun then mkGeneration 0 0 []
  else fold_left (generateOne drawn saved)
                 (keywordsToGenerate given limit stats)
                 (mkGeneration 0 0 []).

(** * The earlier matcher, [matchIcon] over a table of icons *)

Module Legacy.

(** The first [replace] of [normalizeHebrew] removes the points, the
    second every unit outside the Hebrew block but the space. *)
Definition isPoint (c : N) : bool := (0x591 <=? c) && (c <=? 0x5C7).

Definition normalizeHebrew (str : jsstring) : jsstring :=
  trim (toLowerCase
          (List.filter (fun c => isHebrew c || (c =? 32))
             (List.filter (fun c => negb (isPoint c)) str))).

(** [[a-z0-9 ]] *)
Definition isPlain (c : N) : bool :=
  ((97 <=? c) && (c <=? 122)) || ((48 <=? c) && (c <=? 57)) || (c =? 32).

(** [.replace(/[^a-z0-9 ]+/g, " ")]; [inRun] tells that the unit before was
    replaced, its run being written as one space already. *)
Fixpoint replaceRuns (inRun : bool) (s : jsstring) : jsstring :=
  match s with
  | [] => []
  | c :: r =>
      if isPlain c then c :: replaceRuns false r
      else if inRun then replaceRuns true r
      else 32 :: replaceRuns true r
  end.

Definition normalizeEnglish (str : jsstring) : jsstring :=
  trim (replaceRuns false (toLowerCase str)).

Inductive Reason : Type :=
| emptyTitle
| noKeywordMatch
| keywordScore (score : nat).

Record Match : Type := mkMatch { icon : jsstring; reason : Reason }.

(** The name of the icon given when nothing matches. *)
Definition defaultIcon : jsstring := [100; 101; 102; 97; 117; 108; 116].

(** The score of one icon: two for each Hebrew keyword found in the title,
    one for each other keyword found. *)
Definition scoreStep (heTitle enTitle : jsstring) (score : nat) (kw : jsstring)
  : nat :=
  if hasHebrew kw then
    if Str.includes heTitle (normalizeHebrew kw) then (score + 2)%nat else score
  else
    if Str.includes enTitle (normalizeEnglish kw) then (score + 1)%nat else score.

Definition scoreOf (heTitle enTitle : jsstring) (keywords : list jsstring) : nat :=
  fold_left (scoreStep heTitle enTitle) keywords 0%nat.

Definition bestStep (heTitle enTitle : jsstring) (best : option (jsstring * nat))
    (entry : jsstring * list jsstring) : option (jsstring * nat) :=
  let score := scoreOf heTitle enTitle (snd entry) in
  if (0 <? score)%nat
     && match best with
        | None => true
        | Some (_, bestScore) => (bestScore <? score)%nat
        end
  then Some (fst entry, score)
  else best.

(** [matchIcon(title)] over the table [yotoIcons], which the file takes
    from elsewhere. *)
Definition matchIcon (yotoIcons : YotoSynonyms) (title : option jsstring) : Match :=
  match truthy title with
  | None => mkMatch defaultIcon emptyTitle
  | Some title =>
      let heTitle := normalizeHebrew title in
      let enTitle := normalizeEnglish title in
      match fold_left (bestStep heTitle enTitle) yotoIcons None with
      | Some (icon, score) => mkMatch icon (keywordScore score)
      | None => mkMatch defaultIcon noKeywordMatch
      end
  end.

End Legacy.

(** * Plan mode, [plan.ts] *)

(** [s.split(sep)] for a separator of one unit. *)
Fixpoint splitOn (sep : N) (s : jsstring) : list jsstring :=
  match s with
  | [] => [[]]
  | c :: r =>
      if c =? sep then [] :: splitOn sep r
      else match splitOn sep r with
           | w :: ws => (c :: w) :: ws
           | [] => [[c]]
           end
  end.

(** [lines.join('\n')] *)
Definition joinLines (lines : list jsstring) : jsstring :=
  match lines with
  | [] => []
  | first :: rest => first ++ flat_map (fun line => 10 :: line) rest
  end.

(** [loadIconIds] on the content of the file. *)
Definition loadIconIds (content : jsstring) : list jsstring :=
  List.filter (fun line => negb (Str.eqb (trim line) []))
              (splitOn 10 (trim content)).

(** An index of [slice] relative to an array of [len] elements. *)
Definition relativeIndex (len : nat) (k : Z) : nat :=
  if (k <? 0)%Z then Z.to_nat (Z.max (Z.of_nat len + k) 0)
  else Nat.min (Z.to_nat k) len.

(** [l.slice(a, b)] *)
Definition slice {A : Type} (a b : Z) (l : list A) : list A :=
  take (relativeIndex (length l) b - relativeIndex (length l) a)
       (drop (relativeIndex (length l) a) l).

Module Plan.

Record VisionResult : Type := mkVisionResult {
  vrIconId : jsstring;
  vrKeyword : jsstring;
  vrSuccess : bool
}.

(** [processIconWithVision].  [vision] stands for the vision model: the
    content of its reply for the icon after [trim] and [toLowerCase],
    [None] when the call throws or the content is missing. *)
Definition processIconWithVision (vision : jsstring -> option jsstring)
    (iconId : jsstring) : VisionResult :=
  match truthy (vision iconId) with
  | Some keyword => mkVisionResult iconId keyword true
  | None => mkVisionResult iconId [] false
  end.

Record Progress : Type := mkProgress {
  mappings : gmap (list N) (list N);
  processedCount : nat;
  successCount : nat
}.

(** [existingMappings[name] = value].  An assignment to [__proto__] that
    finds no own property of that name reaches the setter inherited from
    [Object.prototype], which ignores a string and stores nothing; every
    other name becomes, or stays, an own property. *)
Definition writeProperty (o : gmap (list N) (list N)) (name value : jsstring)
  : gmap (list N) (list N) :=
  match o !! name with
  | None => if Str.eqb name Lit.protoName then o else <[name := value]> o
  | Some _ => <[name := value]> o
  end.

(** Whether showing the synonyms of the keyword throws.  [synonyms[keyword]]
    is the list of an own property, which has a [map]; for a name that is
    not an own property it is the inherited member, if any, and a function
    whose [length] is above 0 passes the test and has no [map]. *)
Definition displayThrows (synonyms : YotoSynonyms) (keyword : jsstring) : bool :=
  if Str.mem keyword (keysOf synonyms) then false
  else match find (fun member => Str.eqb (fst member) keyword) objectPrototype with
       | Some (_, Some arity) => (0 <? arity)%nat
       | _ => false
       end.

(** How one turn of the loop over a batch ends: with the next turn, or
    with an exception that leaves [runPlanMode]. *)
Inductive Step : Type :=
| Next (p : Progress)
| Thrown (p : Progress).

(** One icon of a batch.  [synonyms] is the table of
    [CONFIG.YOTO_ICONS_FILE], which plan mode reads for every language. *)
Definition processIcon (vision : jsstring -> option jsstring)
    (synonyms : YotoSynonyms) (p : Progress) (iconId : jsstring) : Step :=
  let result := processIconWithVision vision iconId in
  if vrSuccess result then
    let written :=
      writeProperty (mappings p) (vrKeyword result)
                    (Lit.yotoPrefix ++ vrIconId result) in
    if displayThrows synonyms (vrKeyword result)
    then Thrown (mkProgress written (processedCount p) (S (successCount p)))
    else Next (mkProgress written (S (processedCount p)) (S (successCount p)))
  else Next (mkProgress (mappings p) (S (processedCount p)) (successCount p)).

(** The loop over the icons of a batch. *)
Fixpoint processIcons (vision : jsstring -> option jsstring)
    (synonyms : YotoSynonyms) (batch : list jsstring) (p : Progress) : Step :=
  match batch with
  | [] => Next p
  | iconId :: rest =>
      match processIcon vision synonyms p iconId with
      | Next p' => processIcons vision synonyms rest p'
      | Thrown p' => Thrown p'
      end
  end.

(** How [runPlanMode] ends: having gone through the batches, or rejected
    with what was thrown.  Each carries the last state of the loop and the
    mappings saved, one after each batch that was completed. *)
Inductive Run : Type :=
| completed (p : Progress) (saved : list (gmap (list N) (list N)))
| rejected (p : Progress) (saved : list (gmap (list N) (list N))).

(** The loop over the batches.  The loop runs as long as [fuel] lasts. *)
Fixpoint batches (fuel : nat) (vision : jsstring -> option jsstring)
    (synonyms : YotoSynonyms) (iconIds : list jsstring) (batchSize i : Z)
    (p : Progress) (saved : list (gmap (list N) (list N)))
  : option Run :=
  if (i <? Z.of_nat (length iconIds))%Z then
    match fuel with
    | O => None
    | S fuel' =>
        let batch :=
          slice i (Z.min (i + batchSize) (Z.of_nat (length iconIds))) iconIds in
        match processIcons vision synonyms batch p with
        | Next p' =>
            batches fuel' vision synonyms iconIds batchSize (i + batchSize) p'
                    (saved ++ [mappings p'])
        | Thrown p' => Some (rejected p' saved)
        end
    end
  else Some (completed p saved).

(** [x || d] on a number that may be missing. *)
Definition orDefault (x : option Z) (d : Z) : Z :=
  match x with
  | Some n => if (n =? 0)%Z then d else n
  | None => d
  end.

Definition DEFAULT_BATCH_SIZE : Z := 10.

(** [runPlanMode] from the icon identifiers, the mappings and the synonym
    table read. *)
Definition runPlanMode (fuel : nat) (vision : jsstring -> option jsstring)
    (synonyms : YotoSynonyms) (iconIds : list jsstring)
    (existingMappings : gmap (list N) (list N))
    (startFrom batchSize : option Z) : option Run :=
  batches fuel vision synonyms iconIds (orDefault batchSize DEFAULT_BATCH_SIZE)
          (orDefault startFrom 0) (mkProgress existingMappings 0 0) [].

End Plan.

(** A line without white space and with a unit at least. *)
Definition cleanLine (line : jsstring) : Prop :=
  line <> [] /\ Forall (fun c => isSpace c = false) line.

(** The vision model names the icon with the keyword. *)
Definition namedBy (vision : jsstring -> option jsstring) (keyword : jsstring)
    (iconId : jsstring) : bool :=
  match truthy (vision iconId) with
  | Some reply => Str.eqb reply keyword
  | None => false
  end.

(** The vision model has a name for the icon. *)
Definition named (vision : jsstring -> option jsstring) (iconId : jsstring)
  : bool :=
  match truthy (vision iconId) with
  | Some _ => true
  | None => false
  end.

(** Showing the synonyms of the name that the vision model gives to the
    icon throws. *)
Definition throwsOn (vision : jsstring -> option jsstring)
    (synonyms : YotoSynonyms) (iconId : jsstring) : bool :=
  match truthy (vision iconId) with
  | Some reply => Plan.displayThrows synonyms reply
  | None => false
  end.

(** A vision model that names every icon constructor. *)
Definition namesConstructor (iconId : jsstring) : option jsstring :=
  Some Lit.constructorName.

(** A vision model that names icon 1 dog, has no answer for icon 2 and
    names icon 3 dog as well. *)
Definition sampleVision (iconId : jsstring) : option jsstring :=
  if Str.eqb iconId [50] then None else Some dog.

(** The match of the second of [twoTracks] when the model answers dog. *)
Definition aiMatchSample : TrackMatch :=
  mkTrackMatch
    (Yoto.mkYotoTrack (str [50]) calculusTitle Yoto.noDisplay
                      undefined undefined)
    (Some dog) (Some (stored [121])) viaAi [calculusTitle].


(** * Properties *)

(** ** Strings *)

Lemma Str_eqb_eq (a b : jsstring) : Str.eqb a b = true <-> a = b.
Proof.
  revert b; induction a as [|x a IH]; intros [|y b]; simpl; split;
    try congruence; try reflexivity.
  - rewrite andb_true_iff, N.eqb_eq, IH. intros [-> ->]; reflexivity.
  - intros [= -> ->]. rewrite N.eqb_refl. simpl. apply IH; reflexivity.
Qed.

Lemma Str_eqb_refl (a : jsstring) : Str.eqb a a = true.
Proof. apply Str_eqb_eq; reflexivity. Qed.

Lemma Str_mem_In (x : jsstring) (arr : list jsstring) :
  Str.mem x arr = true <-> In x arr.
Proof.
  unfold Str.mem. rewrite existsb_exists. split.
  - intros (y & Hy & E). apply Str_eqb_eq in E. subst; assumption.
  - intros H. exists x. split; [assumption | apply Str_eqb_refl].
Qed.

Lemma Str_startsWith_nil (s : jsstring) : Str.startsWith s [] = true.
Proof. destruct s; reflexivity. Qed.

Lemma Str_includes_nil (s : jsstring) : Str.includes s [] = true.
Proof. destruct s; reflexivity. Qed.

Lemma Str_startsWith_spec (s p : jsstring) :
  Str.startsWith s p = true <-> exists q, s = p ++ q.
Proof.
  revert s; induction p as [|y p IH]; intros s.
  - rewrite Str_startsWith_nil. split; [intros _; exists s; reflexivity | auto].
  - destruct s as [|x s]; simpl.
    + split; [discriminate | intros (q & [=])].
    + rewrite andb_true_iff, N.eqb_eq, IH. split.
      * intros (-> & q & ->). exists q. reflexivity.
      * intros (q & [= -> ->]). split; [reflexivity | exists q; reflexivity].
Qed.

(** [includes] is the test for a contiguous occurrence. *)
Lemma Str_includes_spec (s sub : jsstring) :
  Str.includes s sub = true <-> exists p q, s = p ++ sub ++ q.
Proof.
  induction s as [|x s IH].
  - change (Str.includes [] sub) with (Str.startsWith [] sub || false).
    rewrite orb_true_iff, Str_startsWith_spec. split.
    + intros [(q & E)|H]; [|discriminate]. exists [], q. exact E.
    + intros (p & q & E). left. destruct p; [exists q; exact E|discriminate].
  - change (Str.includes (x :: s) sub)
      with (Str.startsWith (x :: s) sub || Str.includes s sub).
    rewrite orb_true_iff, Str_startsWith_spec, IH. split.
    + intros [(q & E)|(p & q & ->)].
      * exists [], q. exact E.
      * exists (x :: p), q. reflexivity.
    + intros ([|y p] & q & E).
      * left. exists q. exact E.
      * right. injection E as -> ->. exists p, q. reflexivity.
Qed.

(** ** Normal forms of [normalizeText] *)

Ltac bool_to_prop H :=
  repeat first
    [ rewrite orb_true_iff in H | rewrite andb_true_iff in H
    | rewrite orb_false_iff in H | rewrite andb_false_iff in H
    | rewrite negb_true_iff in H | rewrite negb_false_iff in H
    | rewrite N.leb_le in H | rewrite N.leb_gt in H
    | rewrite N.eqb_eq in H | rewrite N.eqb_neq in H ].

Ltac units :=
  unfold isCore, keepUnit, isUpper, isWord, isSpace, isHebrew in *;
  repeat match goal with
    | H : _ = true |- _ => bool_to_prop H; revert H
    | H : _ = false |- _ => bool_to_prop H; revert H
    end;
  intros.

Lemma isCore_space (c : N) : isCore c = true -> isSpace c = true -> c = 32.
Proof. intros H1 H2. units. lia. Qed.

Lemma isCore_lower (c : N) : isCore c = true -> lowerUnit c = [c].
Proof.
  intros H. unfold lowerUnit.
  destruct ((65 <=? c) && (c <=? 90)) eqn:E1; [units; lia|].
  destruct (c =? 0x212A) eqn:E2; [units; lia|].
  destruct (c =? 0x130) eqn:E3; [units; lia|].
  reflexivity.
Qed.

Lemma isCore_keep (c : N) : isCore c = true -> keepUnit c = true.
Proof.
  intros H. unfold isCore in H. apply orb_true_iff in H as [H|H].
  - apply N.eqb_eq in H; subst; reflexivity.
  - rewrite !andb_true_iff in H. tauto.
Qed.

Lemma lowerUnit_not_upper (c : N) :
  Forall (fun d => isUpper d = false) (lowerUnit c).
Proof.
  unfold lowerUnit.
  destruct ((65 <=? c) && (c <=? 90)) eqn:E1.
  - constructor; [|constructor]. unfold isUpper. bool_to_prop E1.
    apply andb_false_iff. right. apply N.leb_gt. lia.
  - destruct (c =? 0x212A); [repeat constructor|].
    destruct (c =? 0x130); [repeat constructor|].
    constructor; [|constructor]. exact E1.
Qed.

Lemma toLowerCase_not_upper (s : jsstring) :
  Forall (fun d => isUpper d = false) (toLowerCase s).
Proof.
  induction s as [|c s IH]; simpl; [constructor|].
  apply Forall_app. split; [apply lowerUnit_not_upper | exact IH].
Qed.

Lemma toLowerCase_core (s : jsstring) :
  Forall (fun c => isCore c = true) s -> toLowerCase s = s.
Proof.
  induction 1 as [|c s Hc _ IH]; simpl; [reflexivity|].
  rewrite (isCore_lower c Hc), IH. reflexivity.
Qed.

(** *** trim *)

Lemma trimStart_suffix (s : jsstring) :
  exists p, s = p ++ trimStart s /\ Forall (fun c => isSpace c = true) p.
Proof.
  induction s as [|c s (p & E & F)]; simpl.
  - exists []. split; [reflexivity | constructor].
  - destruct (isSpace c) eqn:Ec.
    + exists (c :: p). split; [simpl; f_equal; exact E | constructor; assumption].
    + exists []. split; [reflexivity | constructor].
Qed.

Lemma trimStart_head (s : jsstring) : headFree (trimStart s) = true.
Proof.
  induction s as [|c s IH]; simpl; [reflexivity|].
  destruct (isSpace c) eqn:Ec; [exact IH | simpl; rewrite Ec; reflexivity].
Qed.

Lemma trimStart_fixed (s : jsstring) : headFree s = true -> trimStart s = s.
Proof.
  destruct s as [|c s]; simpl; [reflexivity|].
  intros H. apply negb_true_iff in H. rewrite H. reflexivity.
Qed.

Lemma trimEnd_prefix (s : jsstring) :
  exists q, s = trimEnd s ++ q /\ Forall (fun c => isSpace c = true) q.
Proof.
  unfold trimEnd. destruct (trimStart_suffix (rev s)) as (p & E & F).
  exists (rev p). split.
  - rewrite <- rev_app_distr, <- E, rev_involutive. reflexivity.
  - apply Forall_rev. exact F.
Qed.

Lemma trimEnd_last (s : jsstring) : headFree (rev (trimEnd s)) = true.
Proof. unfold trimEnd. rewrite rev_involutive. apply trimStart_head. Qed.

Lemma trimEnd_fixed (s : jsstring) : headFree (rev s) = true -> trimEnd s = s.
Proof.
  intros H. unfold trimEnd. rewrite trimStart_fixed by exact H.
  apply rev_involutive.
Qed.

Lemma headFree_prefix (s q : jsstring) :
  headFree (s ++ q) = true -> headFree s = true.
Proof. destruct s; simpl; auto. Qed.

Lemma trim_head (s : jsstring) : headFree (trim s) = true.
Proof.
  unfold trim. destruct (trimEnd_prefix (trimStart s)) as (q & E & _).
  apply (headFree_prefix _ q). rewrite <- E. apply trimStart_head.
Qed.

Lemma trim_last (s : jsstring) : headFree (rev (trim s)) = true.
Proof. apply trimEnd_last. Qed.

Lemma trim_fixed (s : jsstring) :
  headFree s = true -> headFree (rev s) = true -> trim s = s.
Proof.
  intros H1 H2. unfold trim. rewrite trimStart_fixed by exact H1.
  apply trimEnd_fixed. exact H2.
Qed.

(** [trim s] is a segment of [s]. *)
Lemma trim_segment (s : jsstring) : exists p q, s = p ++ trim s ++ q.
Proof.
  destruct (trimStart_suffix s) as (p & E1 & _).
  destruct (trimEnd_prefix (trimStart s)) as (q & E2 & _).
  exists p, q. unfold trim. rewrite <- E2. exact E1.
Qed.

Lemma Forall_segment {A : Type} (P : A -> Prop) (p s q : list A) :
  Forall P (p ++ s ++ q) -> Forall P s.
Proof.
  intros H. apply Forall_app in H as [_ H]. apply Forall_app in H as [H _].
  exact H.
Qed.

Lemma trim_Forall (P : N -> Prop) (s : jsstring) :
  Forall P s -> Forall P (trim s).
Proof.
  intros H. destruct (trim_segment s) as (p & q & E).
  rewrite E in H. exact (Forall_segment P p _ q H).
Qed.

(** *** tightness *)

Lemma tightFrom_weaken (b : bool) (s : jsstring) :
  tightFrom b s = true -> tightFrom false s = true.
Proof.
  destruct s as [|c s]; simpl; [reflexivity|].
  destruct (isSpace c); [|auto]. rewrite andb_true_iff. intros [_ H]. exact H.
Qed.

Lemma tightFrom_suffix (b : bool) (p s : jsstring) :
  tightFrom b (p ++ s) = true -> tightFrom false s = true.
Proof.
  revert b; induction p as [|c p IH]; intros b; simpl.
  - apply tightFrom_weaken.
  - destruct (isSpace c); [rewrite andb_true_iff; intros [_ H]|intros H];
      exact (IH _ H).
Qed.

Lemma tightFrom_prefix (b : bool) (s q : jsstring) :
  tightFrom b (s ++ q) = true -> tightFrom b s = true.
Proof.
  revert b; induction s as [|c s IH]; intros b; simpl; [reflexivity|].
  destruct (isSpace c).
  - rewrite !andb_true_iff. intros [H1 H2]. split; [exact H1 | exact (IH _ H2)].
  - apply IH.
Qed.

Lemma trim_tight (s : jsstring) :
  tightFrom false s = true -> tightFrom false (trim s) = true.
Proof.
  intros H. destruct (trim_segment s) as (p & q & E). rewrite E in H.
  apply tightFrom_suffix in H. exact (tightFrom_prefix _ _ q H).
Qed.

(** *** the two replacements *)

Lemma replacePunct_units (s : jsstring) :
  Forall (fun d => isUpper d = false) s ->
  Forall (fun c => afterPunct c = true) (replacePunct s).
Proof.
  induction 1 as [|c s Hc _ IH]; simpl; constructor; [|exact IH].
  unfold afterPunct. destruct (keepUnit c) eqn:Ek.
  - rewrite Ek, Hc. reflexivity.
  - reflexivity.
Qed.

Lemma replacePunct_fixed (s : jsstring) :
  Forall (fun c => isCore c = true) s -> replacePunct s = s.
Proof.
  induction 1 as [|c s Hc _ IH]; simpl; [reflexivity|].
  rewrite (isCore_keep c Hc). f_equal. exact IH.
Qed.

Lemma collapseFrom_units (b : bool) (s : jsstring) :
  Forall (fun c => afterPunct c = true) s ->
  Forall (fun c => isCore c = true) (collapseFrom b s).
Proof.
  intros H; revert b; induction H as [|c s Hc _ IH]; intros b; simpl;
    [constructor|].
  destruct (isSpace c) eqn:Es.
  - destruct b; [apply IH | constructor; [reflexivity | apply IH]].
  - constructor; [|apply IH]. unfold isCore. rewrite Es.
    unfold afterPunct in Hc. apply andb_true_iff in Hc as [-> ->].
    apply orb_true_r.
Qed.

Lemma collapseFrom_tight (b : bool) (s : jsstring) :
  tightFrom b (collapseFrom b s) = true.
Proof.
  revert b; induction s as [|c s IH]; intros b; simpl; [reflexivity|].
  destruct (isSpace c) eqn:Es.
  - destruct b; [apply IH|]. simpl. apply IH.
  - simpl. rewrite Es. apply IH.
Qed.

Lemma collapseFrom_fixed (b : bool) (s : jsstring) :
  Forall (fun c => isCore c = true) s -> tightFrom b s = true ->
  collapseFrom b s = s.
Proof.
  intros H; revert b; induction H as [|c s Hc _ IH]; intros b; simpl;
    [reflexivity|].
  destruct (isSpace c) eqn:Es.
  - rewrite andb_true_iff, negb_true_iff. intros [-> Ht].
    rewrite (isCore_space c Hc Es). f_equal. exact (IH _ Ht).
  - intros Ht. f_equal. exact (IH _ Ht).
Qed.

(** *** normalizeText *)

Lemma normalizeText_Normal (text : jsstring) : Normal (normalizeText text).
Proof.
  unfold normalizeText. split.
  - apply trim_Forall, collapseFrom_units, replacePunct_units, trim_Forall,
      toLowerCase_not_upper.
  - apply trim_tight, (collapseFrom_tight false).
  - apply trim_head.
  - apply trim_last.
Qed.

Lemma normalizeText_fixed (s : jsstring) : Normal s -> normalizeText s = s.
Proof.
  intros [Hu Ht Hh Hl]. unfold normalizeText, collapseSpaces.
  rewrite (toLowerCase_core s Hu), (trim_fixed s Hh Hl),
    (replacePunct_fixed s Hu), (collapseFrom_fixed false s Hu Ht).
  apply trim_fixed; assumption.
Qed.

(** C8. Normalisation is idempotent: normalising a normalised string gives
    it back, for every string. *)
Theorem normalizeText_idempotent (s : jsstring) :
  normalizeText (normalizeText s) = normalizeText s.
Proof. apply normalizeText_fixed, normalizeText_Normal. Qed.

(** ** The scan of [findBestKeywordMatch] *)

Lemma checkTerm_hit keyword searchTerm term bm bs :
  termHits searchTerm term = true ->
  checkTerm keyword searchTerm term bm bs = Return keyword.
Proof. unfold termHits, checkTerm. intros ->. reflexivity. Qed.

Lemma checkTerm_miss keyword searchTerm term bm bs :
  termHits searchTerm term = false ->
  exists bm' bs', checkTerm keyword searchTerm term bm bs = Running bm' bs'.
Proof.
  unfold termHits, checkTerm, normalizeHebrewSpelling. simpl. intros ->.
  rewrite andb_false_r.
  destruct (_ || _); [destruct (_ <? _)%nat|]; eauto.
Qed.

Lemma find_existsb {A : Type} (f : A -> bool) (xs : list A) :
  existsb f xs = match find f xs with Some _ => true | None => false end.
Proof.
  induction xs as [|x xs IH]; simpl; [reflexivity|].
  destruct (f x); [reflexivity | exact IH].
Qed.

Section ForOf.
Context {A : Type} (hit : A -> bool) (key : A -> jsstring).
Variable body : A -> option jsstring -> nat -> Scan.
Hypothesis body_hit :
  forall x bm bs, hit x = true -> body x bm bs = Return (key x).
Hypothesis body_miss :
  forall x bm bs, hit x = false -> exists bm' bs', body x bm bs = Running bm' bs'.

Lemma forOf_returns xs x bm bs :
  find hit xs = Some x -> forOf xs body bm bs = Return (key x).
Proof.
  revert bm bs; induction xs as [|y xs IH]; intros bm bs; simpl;
    [discriminate|].
  destruct (hit y) eqn:Hy.
  - intros [= ->]. rewrite body_hit by exact Hy. reflexivity.
  - intros Hf. destruct (body_miss y bm bs Hy) as (bm' & bs' & ->).
    apply IH. exact Hf.
Qed.

Lemma forOf_runs xs bm bs :
  find hit xs = None -> exists bm' bs', forOf xs body bm bs = Running bm' bs'.
Proof.
  revert bm bs; induction xs as [|y xs IH]; intros bm bs; simpl; [eauto|].
  destruct (hit y) eqn:Hy; [discriminate|].
  intros Hf. destruct (body_miss y bm bs Hy) as (bm' & bs' & ->).
  apply IH. exact Hf.
Qed.

Lemma forOf_exists xs bm bs :
  existsb hit xs = true -> exists x, forOf xs body bm bs = Return (key x).
Proof.
  rewrite find_existsb. destruct (find hit xs) as [x|] eqn:Hf;
    [|discriminate].
  intros _. exists x. apply forOf_returns. exact Hf.
Qed.

Lemma forOf_none xs bm bs :
  existsb hit xs = false -> exists bm' bs', forOf xs body bm bs = Running bm' bs'.
Proof.
  rewrite find_existsb. destruct (find hit xs) eqn:Hf; [discriminate|].
  intros _. apply forOf_runs. exact Hf.
Qed.
End ForOf.

Lemma scanTerms_hit keyword allTerms searchTerm bm bs :
  existsb (termHits searchTerm) allTerms = true ->
  forOf allTerms (checkTerm keyword searchTerm) bm bs = Return keyword.
Proof.
  intros H.
  destruct (forOf_exists (termHits searchTerm) (fun _ => keyword)
              (checkTerm keyword searchTerm)
              (checkTerm_hit keyword searchTerm)
              (checkTerm_miss keyword searchTerm) allTerms bm bs H) as (_ & E).
  exact E.
Qed.

Lemma scanTerms_miss keyword allTerms searchTerm bm bs :
  existsb (termHits searchTerm) allTerms = false ->
  exists bm' bs',
    forOf allTerms (checkTerm keyword searchTerm) bm bs = Running bm' bs'.
Proof.
  apply (forOf_none (termHits searchTerm)). apply checkTerm_miss.
Qed.

Lemma scanKeyword_hit searchTerms entry bm bs :
  exactHit searchTerms entry = true ->
  scanKeyword searchTerms entry bm bs = Return (fst entry).
Proof.
  destruct entry as [keyword synonymList]. unfold exactHit, scanKeyword. simpl.
  intros H.
  destruct (forOf_exists
              (fun searchTerm => existsb (termHits searchTerm) (keyword :: synonymList))
              (fun _ => keyword)
              (fun searchTerm => forOf (keyword :: synonymList) (checkTerm keyword searchTerm))
              (fun x bm bs => scanTerms_hit keyword _ x bm bs)
              (fun x bm bs => scanTerms_miss keyword _ x bm bs)
              searchTerms bm bs H) as (_ & E).
  exact E.
Qed.

Lemma scanKeyword_miss searchTerms entry bm bs :
  exactHit searchTerms entry = false ->
  exists bm' bs', scanKeyword searchTerms entry bm bs = Running bm' bs'.
Proof.
  destruct entry as [keyword synonymList]. unfold exactHit, scanKeyword. simpl fst. simpl snd.
  apply (forOf_none
           (fun searchTerm => existsb (termHits searchTerm) (keyword :: synonymList))).
  intros x bm0 bs0. apply scanTerms_miss.
Qed.

(** The first entry with an exact hit ends the scan, whatever the entries
    before it scored. *)
Lemma scanTable_first_hit searchTerms synonyms entry :
  find (exactHit searchTerms) synonyms = Some entry ->
  scanTable searchTerms synonyms = Return (fst entry).
Proof.
  apply (forOf_returns (exactHit searchTerms) fst).
  - apply scanKeyword_hit.
  - apply scanKeyword_miss.
Qed.

Lemma scanTable_no_hit searchTerms synonyms :
  find (exactHit searchTerms) synonyms = None ->
  exists bm bs, scanTable searchTerms synonyms = Running bm bs.
Proof.
  apply (forOf_runs (exactHit searchTerms)). apply scanKeyword_miss.
Qed.

Lemma find_split {A : Type} (f : A -> bool) (xs : list A) (x : A) :
  find f xs = Some x ->
  exists pre post, xs = pre ++ x :: post /\ f x = true
                   /\ (forall y, In y pre -> f y = false).
Proof.
  induction xs as [|y xs IH]; simpl; [discriminate|].
  destruct (f y) eqn:Hy.
  - intros [= ->]. exists [], xs. repeat split; [exact Hy | intros ? []].
  - intros Hf. destruct (IH Hf) as (pre & post & -> & Hx & Hpre).
    exists (y :: pre), post. repeat split; [exact Hx|].
    intros z [<-|Hz]; [exact Hy | exact (Hpre z Hz)].
Qed.

Lemma find_app_miss {A : Type} (f : A -> bool) (pre post : list A) (x : A) :
  (forall y, In y pre -> f y = false) -> f x = true ->
  find f (pre ++ x :: post) = Some x.
Proof.
  intros Hpre Hx. induction pre as [|y pre IH]; simpl.
  - rewrite Hx. reflexivity.
  - rewrite (Hpre y) by (left; reflexivity).
    apply IH. intros z Hz. apply Hpre. right. exact Hz.
Qed.

(** ** matchIcon *)

Lemma matchIcon_loaded fs trackTitle language c :
  fst (matchIcon fs trackTitle language c)
  = matchIconIn (fst (loadSynonyms fs language c))
                (default ∅ (iconIdsFile fs language)) trackTitle.
Proof.
  unfold matchIcon, bind, ret, loadIconMappings.
  destruct (loadSynonyms fs language c) as [synonyms c1]. reflexivity.
Qed.

Lemma truthy_Some (x : option jsstring) (v : jsstring) :
  truthy x = Some v -> x = Some v /\ v <> [].
Proof.
  destruct x as [[|a s]|]; simpl; intros E; try discriminate.
  injection E as <-. split; [reflexivity | discriminate].
Qed.

Lemma orNull_Some (x : option IconValue) (v : IconValue) :
  orNull x = Some v -> x = Some v /\ v <> stored [].
Proof.
  destruct x as [[[|c s]|name]|]; simpl; intros E; try discriminate;
    injection E as <-; split; try reflexivity; discriminate.
Qed.

Lemma readProperty_Some (iconMappings : YotoIconMapping) (k : jsstring)
    (v : IconValue) :
  readProperty iconMappings k = Some v ->
  (exists s, iconMappings !! k = Some s /\ v = stored s)
  \/ (iconMappings !! k = None /\ isInherited k = true /\ v = inherited k).
Proof.
  unfold readProperty. destruct (iconMappings !! k) as [s|].
  - intros [= <-]. left. eauto.
  - destruct (isInherited k); [|discriminate]. intros [= <-]. right. auto.
Qed.




(** C3, amended. If some search term of the title equals the normalised
    keyword or a normalised synonym of some entry, the scan stops at the
    first entry of the table with such a hit and returns its keyword,
    whatever containment scores the entries before it reached;
    [matchIcon] reports that keyword unless it is the empty string, for
    which it reports no keyword and the confidence [none]. *)
Theorem exact_match_priority (synonyms : YotoSynonyms)
    (iconMappings : gmap (list N) (list N)) (trackTitle : jsstring) :
  let terms := extractKeywords trackTitle in
  (exists entry, In entry synonyms /\ exactHit terms entry = true) ->
  exists pre k synonymList post,
    synonyms = pre ++ (k, synonymList) :: post
    /\ exactHit terms (k, synonymList) = true
    /\ (forall entry, In entry pre -> exactHit terms entry = false)
    /\ scanTable terms synonyms = Return k
    /\ findBestKeywordMatch terms synonyms = Some k
    /\ (k <> [] -> keyword (matchIconIn synonyms iconMappings trackTitle) = Some k)
    /\ (k = [] ->
        keyword (matchIconIn synonyms iconMappings trackTitle) = None
        /\ confidence (matchIconIn synonyms iconMappings trackTitle) = none).
Proof.
  intros terms (entry & Hin & Hhit).
  destruct (find (exactHit terms) synonyms) as [[k synonymList]|] eqn:Hf.
  - destruct (find_split _ _ _ Hf) as (pre & post & E & Hk & Hpre).
    pose proof (scanTable_first_hit terms synonyms _ Hf) as Hs. simpl in Hs.
    assert (Hb : findBestKeywordMatch terms synonyms = Some k)
      by (unfold findBestKeywordMatch; rewrite Hs; reflexivity).
    exists pre, k, synonymList, post.
    split; [exact E|]. split; [exact Hk|]. split; [exact Hpre|].
    split; [exact Hs|]. split; [exact Hb|].
    unfold matchIconIn. fold terms. rewrite Hb. split.
    + intros Hne. destruct k; [congruence | reflexivity].
    + intros ->. split; reflexivity.
  - pose proof (find_none _ _ Hf entry Hin). congruence.
Qed.

Lemma exact_match_priority_witness :
  exists pre k synonymList post,
    puppyTable = pre ++ (k, synonymList) :: post
    /\ exactHit (extractKeywords puppy) (k, synonymList) = true
    /\ (forall entry, In entry pre ->
          exactHit (extractKeywords puppy) entry = false)
    /\ scanTable (extractKeywords puppy) puppyTable = Return k
    /\ findBestKeywordMatch (extractKeywords puppy) puppyTable = Some k
    /\ (k <> [] -> keyword (matchIconIn puppyTable ∅ puppy) = Some k)
    /\ (k = [] ->
        keyword (matchIconIn puppyTable ∅ puppy) = None
        /\ confidence (matchIconIn puppyTable ∅ puppy) = none).
Proof.
  apply (exact_match_priority puppyTable ∅ puppy).
  exists (dog, [puppy]). split; [right; left; reflexivity|].
  vm_compute. reflexivity.
Defined.

(** With the empty string as keyword the hit is there and the scan returns
    it, but the result carries no keyword. *)
Lemma exact_match_priority_empty_keyword :
  (exists entry, In entry emptyKeyTable
                 /\ exactHit (extractKeywords dog) entry = true)
  /\ findBestKeywordMatch (extractKeywords dog) emptyKeyTable = Some []
  /\ keyword (matchIconIn emptyKeyTable ∅ dog) = None
  /\ confidence (matchIconIn emptyKeyTable ∅ dog) = none.
Proof.
  split; [|vm_compute; auto].
  eexists. split; [left; reflexivity | vm_compute; reflexivity].
Qed.

(** C9, amended. On the title of the example, a table with the keyword
    bird where no entry before it has an exact hit (the table of that
    keyword alone, for one) gives the keyword bird with confidence
    [exact]: he-bird is a token of the title, stripping the article leaves
    bird, and bird is among the search terms.  The synonym list plays no
    part, the keyword being a candidate term itself. *)
Theorem bird_title_exact (pre post : YotoSynonyms) (synonymList : list jsstring)
    (iconMappings : gmap (list N) (list N)) :
  (forall entry, In entry pre -> exactHit (extractKeywords birdTitle) entry = false) ->
  let r := matchIconIn (pre ++ (bird, synonymList) :: post) iconMappings birdTitle in
  keyword r = Some bird /\ confidence r = exact
  /\ In (he :: bird) (tokens (normalizeText birdTitle))
  /\ In bird (stripHebrewPrefixes (he :: bird))
  /\ In bird (searchTerms r).
Proof.
  intros Hpre r.
  assert (Hhit : exactHit (extractKeywords birdTitle) (bird, synonymList) = true).
  { unfold exactHit. apply existsb_exists. exists bird. split.
    - vm_compute. tauto.
    - cbn [fst snd existsb].
      replace (termHits bird bird) with true by (vm_compute; reflexivity).
      reflexivity. }
  pose proof (scanTable_first_hit (extractKeywords birdTitle)
                (pre ++ (bird, synonymList) :: post) (bird, synonymList)
                (find_app_miss _ _ _ _ Hpre Hhit)) as Hs.
  assert (Hr : r = mkMatchResult (Some bird)
                     (orNull (readProperty iconMappings bird)) exact
                     (extractKeywords birdTitle)).
  { unfold r, matchIconIn, findBestKeywordMatch. rewrite Hs. simpl truthy. cbv iota.
    replace (Str.mem (normalizeText bird) (extractKeywords birdTitle)) with true
      by (vm_compute; reflexivity).
    reflexivity. }
  rewrite Hr. simpl. repeat split; try reflexivity; vm_compute; tauto.
Qed.

Lemma bird_title_exact_witness :
  keyword (matchIconIn ([(dog, [puppy])] ++ (bird, [bird]) :: [(moon, [])])
             ∅ birdTitle) = Some bird
  /\ confidence (matchIconIn ([(dog, [puppy])] ++ (bird, [bird]) :: [(moon, [])])
                   ∅ birdTitle) = exact.
Proof.
  destruct (bird_title_exact [(dog, [puppy])] [(moon, [])] [bird] ∅)
    as (H1 & H2 & _).
  - intros entry [<-|[]]. vm_compute. reflexivity.
  - split; assumption.
Defined.

(** An entry before the keyword bird takes the title when it has an exact
    hit of its own: the keyword to fly, the last word of the title, is
    returned with confidence [exact], and the keyword animal, which has
    bird as a synonym, with confidence [partial]. *)
Lemma bird_title_earlier_keyword :
  In (bird, [bird]) flyBirdTable
  /\ keyword (matchIconIn flyBirdTable ∅ birdTitle) = Some fly
  /\ confidence (matchIconIn flyBirdTable ∅ birdTitle) = exact
  /\ In (bird, [bird]) animalBirdTable
  /\ keyword (matchIconIn animalBirdTable ∅ birdTitle) = Some animal
  /\ confidence (matchIconIn animalBirdTable ∅ birdTitle) = partial
  /\ ~ (keyword (matchIconIn flyBirdTable ∅ birdTitle) = Some bird)
  /\ ~ (confidence (matchIconIn animalBirdTable ∅ birdTitle) = exact).
Proof.
  split; [right; left; reflexivity|].
  split; [vm_compute; reflexivity|]. split; [vm_compute; reflexivity|].
  split; [right; left; reflexivity|].
  split; [vm_compute; reflexivity|]. split; [vm_compute; reflexivity|].
  split; vm_compute; discriminate.
Qed.

(** C10. There are a title, a table and a mapping for which the scan is
    ended by a synonym of the keyword equal to a search term, and the
    result still has confidence [partial]; whenever a keyword is reported,
    the confidence depends only on whether its normalised form is among
    the search terms. *)
Theorem synonym_hit_reported_partial :
  (exists trackTitle synonyms (iconMappings : gmap (list N) (list N)) k synonymList,
      In (k, synonymList) synonyms
      /\ existsb (fun searchTerm => existsb (termHits searchTerm) synonymList)
                 (extractKeywords trackTitle) = true
      /\ scanTable (extractKeywords trackTitle) synonyms = Return k
      /\ keyword (matchIconIn synonyms iconMappings trackTitle) = Some k
      /\ confidence (matchIconIn synonyms iconMappings trackTitle) = partial)
  /\ (forall trackTitle synonyms (iconMappings : gmap (list N) (list N)) k,
        keyword (matchIconIn synonyms iconMappings trackTitle) = Some k ->
        confidence (matchIconIn synonyms iconMappings trackTitle)
        = if Str.mem (normalizeText k) (extractKeywords trackTitle)
          then exact else partial).
Proof.
  split.
  - exists puppy, [(dog, [puppy])], ∅, dog, [puppy].
    vm_compute. auto.
  - intros trackTitle synonyms iconMappings k. unfold matchIconIn.
    destruct (truthy _) as [k'|]; cbn [keyword confidence];
      [|intros ?; discriminate].
    intros [= ->]. reflexivity.
Qed.

Lemma synonym_hit_reported_partial_witness :
  confidence (matchIconIn [(dog, [puppy])] ∅ puppy)
  = if Str.mem (normalizeText dog) (extractKeywords puppy) then exact else partial.
Proof.
  apply (proj2 synonym_hit_reported_partial puppy [(dog, [puppy])] ∅ dog).
  vm_compute. reflexivity.
Defined.

Lemma extractKeywords_empty : extractKeywords [] = [[]].
Proof. reflexivity. Qed.

(** C1. On the empty title the source does not fail, but it does not answer
    [none] either: the one search term is the empty string, which every
    candidate term contains, so with the table of the one keyword dog the
    result is dog with confidence [partial]. *)
Theorem empty_title_matches (fs : Files) (language : Language) :
  synonymsFile fs language = Some dogTable ->
  searchTerms (fst (matchIcon fs [] language initialCaches)) = [[]]
  /\ keyword (fst (matchIcon fs [] language initialCaches)) = Some dog
  /\ confidence (fst (matchIcon fs [] language initialCaches)) = partial.
Proof.
  intros H. rewrite matchIcon_loaded.
  unfold loadSynonyms, initialCaches. simpl. rewrite H. simpl.
  vm_compute. auto.
Qed.

Lemma empty_title_matches_witness :
  confidence (fst (matchIcon (mkFiles (fun _ => Some dogTable) (fun _ => None))
                     [] english initialCaches)) = partial.
Proof.
  apply (empty_title_matches
           (mkFiles (fun _ => Some dogTable) (fun _ => None)) english).
  reflexivity.
Defined.

(** ** Prefix stripping *)

Lemma hasHebrew_head (c : N) (rest : jsstring) :
  isHebrew c = true -> hasHebrew (c :: rest) = true.
Proof. unfold hasHebrew. simpl. intros ->. reflexivity. Qed.

Lemma stripHebrewPrefixes_latin (word : jsstring) :
  hasHebrew word = false -> stripHebrewPrefixes word = [word].
Proof.
  unfold stripHebrewPrefixes. destruct word as [|c rest]; [reflexivity|].
  unfold hasHebrew. simpl. intros H. apply orb_false_iff in H as [Hc _].
  assert (Hhe : (c =? he) = false)
    by (apply N.eqb_neq; intros ->; discriminate).
  assert (Hvav : (c =? vav) = false)
    by (apply N.eqb_neq; intros ->; discriminate).
  rewrite Hhe, Hvav.
  reflexivity.
Qed.

Lemma extractKeywords_variants (text word : jsstring) :
  In word (tokens (normalizeText text)) ->
  incl (stripHebrewPrefixes word) (extractKeywords text).
Proof.
  intros Hw v Hv. unfold extractKeywords.
  apply in_or_app. right. apply in_or_app.
  destruct (hasHebrew word) eqn:Hh.
  - right. apply in_flat_map. exists word. split; [exact Hw|].
    unfold variationsOf. rewrite Hh.
    apply in_or_app. right. apply in_or_app. left. exact Hv.
  - rewrite (stripHebrewPrefixes_latin word Hh) in Hv.
    destruct Hv as [<-|[]]. left. exact Hw.
Qed.

(** C4, amended. The variants of a word are the word itself followed by:
    the word without its first unit when it starts with the article he and
    at least two units follow; the word without its first unit when it
    starts with the conjunction vav and at least two units follow; the
    word without its first two units when it starts with vav, he and at
    least two units follow.  Each check adds one variant or none, whatever
    the other two do, and the variants of every token of a title are among
    its search terms. *)
Theorem stripHebrewPrefixes_variants (word : jsstring) :
  (exists a b c,
      stripHebrewPrefixes word = [word] ++ a ++ b ++ c
      /\ stripped [he] 2 word a
      /\ stripped [vav] 2 word b
      /\ stripped [vav; he] 2 word c)
  /\ (forall text, In word (tokens (normalizeText text)) ->
        incl (stripHebrewPrefixes word) (extractKeywords text)).
Proof.
  split; [|intros text; apply extractKeywords_variants].
  unfold stripHebrewPrefixes, Str.substring.
  eexists _, _, _. split; [reflexivity|].
  assert (Hone : forall p, stripped [p] 2 word
            (if Str.startsWith word [p] && (2 <? length word)%nat
             then [drop 1 word] else [])).
  { intros p. destruct word as [|x rest]; simpl.
    - right. split; [intros (r & [=] & _) | reflexivity].
    - rewrite Str_startsWith_nil, andb_true_r.
      destruct (x =? p) eqn:Ex; simpl.
      + apply N.eqb_eq in Ex as ->.
        destruct (Nat.ltb_spec 2 (S (length rest))) as [Hl|Hl].
        * left. exists rest. rewrite drop_0. repeat split. lia.
        * right. split; [|reflexivity]. intros (r & [= <-] & Hr). lia.
      + right. split; [|reflexivity]. intros (r & [= -> _] & _).
        rewrite N.eqb_refl in Ex. discriminate. }
  split; [apply Hone|]. split; [apply Hone|].
  destruct word as [|x [|y rest]]; simpl.
  - right. split; [intros (r & [=] & _) | reflexivity].
  - rewrite andb_false_r. right. split; [intros (r & [=] & _) | reflexivity].
  - rewrite Str_startsWith_nil, andb_true_r.
    destruct (x =? vav) eqn:Ex; simpl;
      [destruct (y =? he) eqn:Ey; simpl|].
    + apply N.eqb_eq in Ex as ->. apply N.eqb_eq in Ey as ->.
      destruct (Nat.ltb_spec 3 (S (S (length rest)))) as [Hl|Hl].
      * left. exists rest. rewrite drop_0. repeat split. lia.
      * right. split; [|reflexivity]. intros (r & [= <-] & Hr). lia.
    + right. split; [|reflexivity]. intros (r & [= _ -> _] & _).
      rewrite N.eqb_refl in Ey. discriminate.
    + right. split; [|reflexivity]. intros (r & [= -> _ _] & _).
      rewrite N.eqb_refl in Ex. discriminate.
Qed.

Lemma stripHebrewPrefixes_variants_witness :
  incl (stripHebrewPrefixes (he :: bird)) (extractKeywords birdTitle).
Proof.
  apply (proj2 (stripHebrewPrefixes_variants (he :: bird)) birdTitle).
  vm_compute. tauto.
Defined.

(** The example of the source's comment: two units follow the two-letter
    prefix, not three, and the variant without the prefix is there. *)
Lemma two_letter_prefix_two_more :
  stripHebrewPrefixes vavHeWord
  = [vavHeWord; [he; 0x5D3; 0x5D1]; [0x5D3; 0x5D1]]
  /\ vavHeWord = [vav; he] ++ [0x5D3; 0x5D1]
  /\ In [0x5D3; 0x5D1] (stripHebrewPrefixes vavHeWord)
  /\ ~ (3 <= length [0x5D3; 0x5D1])%nat.
Proof. vm_compute. repeat split; auto. lia. Qed.

(** ** The caches *)

(** C5. The synonym cache is one cell, not one per language: a call for
    Hebrew that follows a call for English returns the English table, as
    does every call once the cell is filled, and [reloadMappings] leaves
    the cell as it is.  The icon mappings are read anew from the file of
    the language asked for at every call. *)
Theorem loadSynonyms_ignores_language (fs : Files) :
  fst (loadSynonyms fs hebrew (snd (loadSynonyms fs english initialCaches)))
  = default [] (synonymsFile fs english)
  /\ (forall c cached,
        synonymsCache c = Some cached ->
        forall language, fst (loadSynonyms fs language c) = cached)
  /\ (forall c, synonymsCache (snd (reloadMappings fs c)) = synonymsCache c)
  /\ (forall language c,
        fst (loadIconMappings fs language c)
        = default ∅ (iconIdsFile fs language)).
Proof.
  split; [reflexivity|]. split; [|split].
  - intros c cached H language. unfold loadSynonyms. rewrite H. reflexivity.
  - intros c. reflexivity.
  - intros language c. reflexivity.
Qed.

Lemma loadSynonyms_ignores_language_witness :
  fst (loadSynonyms twoLanguages hebrew
         (snd (loadSynonyms twoLanguages english initialCaches)))
  = [(dog, [puppy])]
  /\ synonymsFile twoLanguages hebrew = Some [(bird, [])].
Proof.
  split; [|reflexivity].
  exact (proj1 (loadSynonyms_ignores_language twoLanguages)).
Defined.

(** ** The statistics *)


Lemma isFalsy_readProperty (iconMappings : YotoIconMapping) (k : jsstring) :
  isFalsy (readProperty iconMappings k) = true
  <-> (iconMappings !! k = None /\ isInherited k = false)
      \/ iconMappings !! k = Some [].
Proof.
  unfold isFalsy, readProperty.
  destruct (iconMappings !! k) as [[|a s]|]; cbn [orNull].
  - split; auto.
  - split; [discriminate | intros [[H _]|H]; discriminate].
  - destruct (isInherited k); cbn [orNull]; split; auto; try discriminate.
    intros [[_ H]|H]; discriminate.
Qed.




(** ** Suggestions *)

(** *** Rounding to a double *)

(** The double of a tenth, and two integers halfway between two doubles,
    which go to the one with the even significand. *)
Example round64_samples :
  (round64 (1 # 10) == 3602879701896397 # 36028797018963968)%Q
  /\ (round64 (inject_Z 9007199254740993) == inject_Z 9007199254740992)%Q
  /\ (round64 (inject_Z 9007199254740995) == inject_Z 9007199254740996)%Q
  /\ (round64 (3 # 4) == 3 # 4)%Q.
Proof. repeat split; vm_compute; reflexivity. Qed.

Lemma roundPositive_nonneg (n d : BinNums.positive) : (0 <= roundPositive n d)%Q.
Proof.
  unfold roundPositive. cbv zeta.
  set (shift := (52 - _)%Z).
  set (num := (Z.pos n * 2 ^ Z.max 0 shift)%Z).
  set (den := (Z.pos d * 2 ^ Z.max 0 (- shift))%Z).
  assert (Hden : (0 < den)%Z) by (unfold den; apply Z.mul_pos_pos; [lia|apply Z.pow_pos_nonneg; lia]).
  assert (Hnum : (0 <= num)%Z) by (unfold num; apply Z.mul_nonneg_nonneg; [lia|apply Z.pow_nonneg; lia]).
  assert (Hfloor : (0 <= num / den)%Z) by (apply Z.div_pos; assumption).
  assert (Hpow : (0 <= 2 ^ Z.max 0 (- shift))%Z) by (apply Z.pow_nonneg; lia).
  unfold Qle. cbn [Qnum Qden]. rewrite Z.mul_0_l, Z.mul_1_r.
  apply Z.mul_nonneg_nonneg; [|exact Hpow].
  destruct (2 * (num mod den) ?= den)%Z; [destruct (Z.even _)| |]; lia.
Qed.

Lemma round64_nonneg (q : Q) : (0 <= q)%Q -> (0 <= round64 q)%Q.
Proof.
  destruct q as [[|n|n] d]; unfold round64; cbn [Qnum Qden]; intros H.
  - apply Qle_refl.
  - apply roundPositive_nonneg.
  - exfalso. unfold Qle in H. cbn in H. lia.
Qed.

(** A rational that is at most an integer below [2 ^ 52] is rounded to at
    most that integer: the doubles up to [2 ^ 52] include the integers. *)
Lemma round64_le_integer (q : Q) (b : Z) :
  (q <= inject_Z b)%Q -> (0 <= b <= 2 ^ 52)%Z -> (round64 q <= inject_Z b)%Q.
Proof.
  destruct q as [[|n|n] d]; unfold round64; cbn [Qnum Qden]; intros Hq Hb.
  - unfold Qle. cbn. lia.
  - unfold Qle in Hq. cbn [Qnum Qden inject_Z] in Hq. rewrite Z.mul_1_r in Hq.
    unfold roundPositive. cbv zeta.
    set (e := (Z.log2 (Z.pos n) - Z.log2 (Z.pos d))%Z).
    assert (He : (e <= 52)%Z).
    { assert (Z.log2 (Z.pos n) <= Z.log2 (Z.pos d * 2 ^ 52))%Z.
      { apply Z.log2_le_mono. nia. }
      rewrite Z.log2_mul_pow2 in H by lia. lia. }
    set (exponent := if (_ <? _)%Z then (e - 1)%Z else e).
    assert (Hx : (exponent <= 52)%Z) by (unfold exponent; destruct (_ <? _)%Z; lia).
    set (shift := (52 - exponent)%Z).
    assert (Hs : (0 <= shift)%Z) by (unfold shift; lia).
    rewrite (Z.max_r 0 shift) by lia. rewrite (Z.max_l 0 (- shift)) by lia.
    rewrite Z.pow_0_r, !Z.mul_1_r.
    set (p := (2 ^ shift)%Z).
    assert (Hp : (0 < p)%Z) by (apply Z.pow_pos_nonneg; lia).
    set (num := (Z.pos n * p)%Z).
    assert (Hnum : (num <= (b * p) * Z.pos d)%Z) by (unfold num; nia).
    pose proof (Z.div_mod num (Z.pos d) ltac:(lia)) as Hdm.
    pose proof (Z.mod_pos_bound num (Z.pos d) ltac:(lia)) as Hm.
    set (fl := (num / Z.pos d)%Z) in *. set (rest := (num mod Z.pos d)%Z) in *.
    assert (Hfl : (fl <= b * p)%Z) by nia.
    assert (Hup : (0 < rest -> fl + 1 <= b * p)%Z) by nia.
    unfold Qle. cbn [Qnum Qden inject_Z]. rewrite Z.mul_1_r, Z2Pos.id by exact Hp.
    destruct (Z.compare_spec (2 * rest) (Z.pos d)) as [Hc|Hc|Hc];
      [destruct (Z.even fl)| |]; lia.
  - pose proof (roundPositive_nonneg n d) as H.
    apply Qle_trans with 0%Q.
    + apply (Qopp_le_compat 0) in H. exact H.
    + unfold Qle. cbn. lia.
Qed.

(** A positive rational is rounded to a positive double: scaled, it is at
    least [2 ^ 51]. *)
Lemma roundPositive_pos (n d : BinNums.positive) : (0 < roundPositive n d)%Q.
Proof.
  unfold roundPositive. cbv zeta.
  set (a := Z.log2 (Z.pos n)). set (b := Z.log2 (Z.pos d)).
  assert (Ha : (0 <= a)%Z) by apply Z.log2_nonneg.
  assert (Hb : (0 <= b)%Z) by apply Z.log2_nonneg.
  destruct (Z.log2_spec (Z.pos n) ltac:(lia)) as [Hn _]. fold a in Hn.
  destruct (Z.log2_spec (Z.pos d) ltac:(lia)) as [_ Hd]. fold b in Hd.
  set (exponent := if (_ <? _)%Z then (a - b - 1)%Z else (a - b)%Z).
  assert (Hx : (exponent <= a - b)%Z) by (unfold exponent; destruct (_ <? _)%Z; lia).
  set (shift := (52 - exponent)%Z).
  set (num := (Z.pos n * 2 ^ Z.max 0 shift)%Z).
  set (den := (Z.pos d * 2 ^ Z.max 0 (- shift))%Z).
  assert (Hden : (0 < den)%Z)
    by (unfold den; apply Z.mul_pos_pos; [lia | apply Z.pow_pos_nonneg; lia]).
  assert (Hle : (den <= num)%Z).
  { unfold num, den. destruct (Z.le_gt_cases 0 shift) as [Hs|Hs].
    - rewrite (Z.max_r 0 shift), (Z.max_l 0 (- shift)) by lia.
      rewrite Z.pow_0_r, Z.mul_1_r.
      assert (H1 : (1 <= 2 ^ shift)%Z) by (apply (Z.pow_le_mono_r 2 0); lia).
      destruct (Z.le_gt_cases (b + 1) a) as [Hab|Hab].
      + assert (2 ^ (b + 1) <= 2 ^ a)%Z by (apply Z.pow_le_mono_r; lia). nia.
      + assert (H2 : (2 ^ (b + 1) <= 2 ^ a * 2 ^ shift)%Z).
        { rewrite <- Z.pow_add_r by lia. apply Z.pow_le_mono_r; lia. }
        nia.
    - rewrite (Z.max_l 0 shift), (Z.max_r 0 (- shift)) by lia.
      rewrite Z.pow_0_r, Z.mul_1_r.
      assert (H2 : (2 ^ (b + 1) * 2 ^ (- shift) <= 2 ^ a)%Z).
      { rewrite <- Z.pow_add_r by lia. apply Z.pow_le_mono_r; lia. }
      assert (H3 : (0 < 2 ^ (- shift))%Z) by (apply Z.pow_pos_nonneg; lia).
      nia. }
  assert (Hfloor : (1 <= num / den)%Z).
  { apply Z.div_le_lower_bound; lia. }
  assert (Hpow : (0 < 2 ^ Z.max 0 (- shift))%Z) by (apply Z.pow_pos_nonneg; lia).
  unfold Qlt. cbn [Qnum Qden]. rewrite Z.mul_0_l, Z.mul_1_r.
  apply Z.mul_pos_pos; [|exact Hpow].
  destruct (2 * (num mod den) ?= den)%Z; [destruct (Z.even _)| |]; lia.
Qed.

Lemma round64_pos (q : Q) : (0 < q)%Q -> (0 < round64 q)%Q.
Proof.
  destruct q as [[|n|n] d]; unfold round64; cbn [Qnum Qden]; intros H.
  - exfalso. unfold Qlt in H. cbn in H. lia.
  - apply roundPositive_pos.
  - exfalso. unfold Qlt in H. cbn in H. lia.
Qed.

Lemma ratio_bounds (a b : nat) : (0 <= ratio a b <= 100)%Q.
Proof.
  unfold ratio, percent.
  set (q := (inject_Z (Z.of_nat (Nat.min a b)) / inject_Z (Z.of_nat (Nat.max a b)))%Q).
  assert (Hq : (0 <= q <= 1)%Q).
  { unfold q. destruct (Nat.max a b) as [|m] eqn:Em.
    - assert (Nat.min a b = 0%nat) as -> by lia. simpl. split; discriminate.
    - assert (Hpos : (0 < inject_Z (Z.of_nat (S m)))%Q)
        by (rewrite <- (Zlt_Qlt 0); lia).
      split.
      + apply Qle_shift_div_l; [exact Hpos|]. rewrite Qmult_0_l.
        rewrite <- (Zle_Qle 0). lia.
      + apply Qle_shift_div_r; [exact Hpos|]. rewrite Qmult_1_l.
        rewrite <- Zle_Qle. lia. }
  assert (Hr : (0 <= round64 q <= 1)%Q).
  { split; [apply round64_nonneg; apply Hq|].
    apply (round64_le_integer q 1); [apply Hq | lia]. }
  split.
  - apply round64_nonneg. apply Qmult_le_0_compat; [apply Hr | discriminate].
  - apply (round64_le_integer _ 100); [|lia].
    rewrite <- (Qmult_1_l (inject_Z 100)).
    apply Qmult_le_compat_r; [apply Hr | discriminate].
Qed.

Lemma overlap_Num (a b : nat) (q : Q) : overlap a b = Num q -> q = ratio a b.
Proof.
  unfold overlap, ratio. destruct (Nat.max a b); [discriminate|].
  intros [= <-]. reflexivity.
Qed.

Lemma overlap_defined (a b : nat) :
  (0 < b)%nat -> overlap a b = Num (ratio a b).
Proof.
  intros H. unfold overlap, ratio.
  destruct (Nat.max a b) eqn:E; [lia | reflexivity].
Qed.

Lemma ratio_zero_r (a : nat) : (ratio a 0 == 0)%Q.
Proof. unfold ratio, percent. rewrite Nat.min_0_r. simpl. reflexivity. Qed.

Lemma ratio_positive (a b : nat) :
  (0 < ratio a b)%Q <-> (0 < a)%nat /\ (0 < b)%nat.
Proof.
  split.
  - intros H.
    destruct (Nat.eq_dec (Nat.min a b) 0%nat) as [E|E]; [|lia].
    exfalso. unfold ratio, percent in H. rewrite E in H. simpl in H.
    exact (Qlt_irrefl _ H).
  - intros [Ha Hb]. unfold ratio, percent.
    apply round64_pos. apply Qmult_lt_0_compat; [|reflexivity].
    apply round64_pos. apply Qlt_shift_div_l.
    + rewrite <- (Zlt_Qlt 0). lia.
    + rewrite Qmult_0_l. rewrite <- (Zlt_Qlt 0). lia.
Qed.

Lemma pairRatio_positive (searchTerm term : jsstring) :
  (0 < pairRatio searchTerm term)%Q
  <-> searchTerm <> [] /\ normalizeText term <> [].
Proof.
  unfold pairRatio. rewrite ratio_positive. split.
  - intros [H1 H2]. split; intros E; rewrite E in *; simpl in *; lia.
  - intros [H1 H2]. destruct searchTerm, (normalizeText term);
      try contradiction; simpl; lia.
Qed.

(** *** The running maximum *)

Lemma maxRelevanceOf_pairs (searchTerms allTerms : list jsstring) :
  maxRelevanceOf searchTerms allTerms
  = fold_left pairStep (pairsOf searchTerms allTerms) (Num 0).
Proof.
  unfold maxRelevanceOf, pairsOf. generalize (Num 0).
  induction searchTerms as [|s ss IH]; intros acc; simpl; [reflexivity|].
  rewrite fold_left_app, IH. f_equal.
  clear. revert acc. induction allTerms as [|t ts IH]; intros acc; simpl;
    [reflexivity | apply IH].
Qed.

Lemma in_pairsOf (searchTerms allTerms : list jsstring) (s t : jsstring) :
  In (s, t) (pairsOf searchTerms allTerms) <-> In s searchTerms /\ In t allTerms.
Proof.
  unfold pairsOf. rewrite in_flat_map. split.
  - intros (s' & Hs & Hp). apply in_map_iff in Hp as (t' & [= -> ->] & Ht).
    split; assumption.
  - intros [Hs Ht]. exists s. split; [exact Hs|].
    apply in_map. exact Ht.
Qed.

Lemma fold_pairStep_NaN (ps : list (jsstring * jsstring)) :
  fold_left pairStep ps NaN = NaN.
Proof.
  induction ps as [|p ps IH]; simpl; [reflexivity|].
  unfold pairStep at 2, relevanceStep. simpl.
  destruct (_ || _); exact IH.
Qed.

(** When the loops end on a number, it bounds the ratio of every pair in
    containment and the start value, and it is one of them. *)
Lemma fold_pairStep_Num (ps : list (jsstring * jsstring)) (acc : jsnum) (r : Q) :
  fold_left pairStep ps acc = Num r ->
  exists a, acc = Num a /\ (a <= r)%Q
    /\ (forall s t, In (s, t) ps -> contained s t = true ->
                    (pairRatio s t <= r)%Q)
    /\ (r = a \/ exists s t, In (s, t) ps /\ contained s t = true
                             /\ r = pairRatio s t).
Proof.
  revert acc; induction ps as [|[s t] ps IH]; intros acc; simpl.
  - intros ->. exists r. repeat split; [apply Qle_refl | intros ? ? [] | auto].
  - intros H. destruct (IH _ H) as (b & Hb & Hbr & Hall & Hex). clear IH H.
    unfold pairStep, relevanceStep in Hb. simpl in Hb.
    fold (contained s t) in Hb. fold (pairRatio s t) in Hb.
    destruct (contained s t) eqn:Hc.
    + unfold mathMax in Hb. destruct acc as [|a]; [discriminate|].
      destruct (overlap _ _) as [|q] eqn:Ho; [discriminate|].
      apply overlap_Num in Ho. change (q = pairRatio s t) in Ho. subst q.
      exists a. split; [reflexivity|].
      destruct (Qlt_le_dec a (pairRatio s t)) as [Hlt|Hle];
        injection Hb as <-.
      * split; [apply Qlt_le_weak in Hlt; eapply Qle_trans; eassumption|].
        split.
        -- intros s' t' [[= <- <-]|Hin] Hc'; [exact Hbr | exact (Hall _ _ Hin Hc')].
        -- right. destruct Hex as [->|(s' & t' & Hin & Hc' & ->)].
           ++ exists s, t. repeat split; [left; reflexivity | exact Hc].
           ++ exists s', t'. repeat split; [right; exact Hin | exact Hc'].
      * split; [exact Hbr|]. split.
        -- intros s' t' [[= <- <-]|Hin] Hc';
             [eapply Qle_trans; eassumption | exact (Hall _ _ Hin Hc')].
        -- destruct Hex as [->|(s' & t' & Hin & Hc' & ->)]; [left; reflexivity|].
           right. exists s', t'. repeat split; [right; exact Hin | exact Hc'].
    + exists b. split; [exact Hb|]. split; [exact Hbr|]. split.
      * intros s' t' [[= <- <-]|Hin] Hc'; [congruence | exact (Hall _ _ Hin Hc')].
      * destruct Hex as [->|(s' & t' & Hin & Hc' & ->)]; [left; reflexivity|].
        right. exists s', t'. repeat split; [right; exact Hin | exact Hc'].
Qed.

(** With no empty search term every step is defined. *)
Lemma fold_pairStep_defined (ps : list (jsstring * jsstring)) (a : Q) :
  (forall s t, In (s, t) ps -> s <> []) ->
  exists r, fold_left pairStep ps (Num a) = Num r.
Proof.
  revert a; induction ps as [|[s t] ps IH]; intros a Hne; simpl; [eauto|].
  assert (Hs : (0 < length s)%nat).
  { destruct s; [exfalso; apply (Hne [] t); [left|]; reflexivity | simpl; lia]. }
  unfold pairStep at 2, relevanceStep. simpl.
  destruct (_ || _).
  - rewrite (overlap_defined _ _ Hs). simpl.
    destruct (Qlt_le_dec _ _); apply IH; intros s' t' Hin;
      apply (Hne s' t'); right; exact Hin.
  - apply IH. intros s' t' Hin. apply (Hne s' t'). right. exact Hin.
Qed.

(** *** The stable sort *)

Lemma insertByRelevance_perm (x : Suggestion) (l : list Suggestion) :
  Permutation (insertByRelevance x l) (x :: l).
Proof.
  induction l as [|y l IH]; simpl; [reflexivity|].
  destruct (Qlt_le_dec _ _); [|reflexivity].
  rewrite IH. apply perm_swap.
Qed.

Lemma sortByRelevance_perm (l : list Suggestion) :
  Permutation (sortByRelevance l) l.
Proof.
  induction l as [|x l IH]; simpl; [reflexivity|].
  rewrite insertByRelevance_perm, IH. reflexivity.
Qed.

Lemma insertByRelevance_sorted (x : Suggestion) (l : list Suggestion) :
  StronglySorted byRelevance l ->
  StronglySorted byRelevance (insertByRelevance x l).
Proof.
  induction 1 as [|y l Hs IH Hy]; simpl.
  - constructor; constructor.
  - destruct (Qlt_le_dec (relevance x) (relevance y)) as [Hlt|Hle].
    + constructor; [exact IH|].
      rewrite insertByRelevance_perm. constructor; [|exact Hy].
      apply Qlt_le_weak. exact Hlt.
    + constructor; [constructor; assumption|].
      constructor; [exact Hle|].
      eapply List.Forall_impl; [|exact Hy]. intros z Hz. unfold byRelevance in *.
      eapply Qle_trans; eassumption.
Qed.

Lemma sortByRelevance_sorted (l : list Suggestion) :
  StronglySorted byRelevance (sortByRelevance l).
Proof.
  induction l as [|x l IH]; simpl; [constructor|].
  apply insertByRelevance_sorted. exact IH.
Qed.

Lemma insertByRelevance_tied (r : Q) (x : Suggestion) (l : list Suggestion) :
  List.filter (tied r) (insertByRelevance x l) = List.filter (tied r) (x :: l).
Proof.
  induction l as [|y l IH]; [reflexivity|].
  cbn [insertByRelevance].
  destruct (Qlt_le_dec (relevance x) (relevance y)) as [Hlt|Hle];
    [|reflexivity].
  cbn [List.filter] in *. rewrite IH.
  destruct (tied r x) eqn:Hx, (tied r y) eqn:Hy; try reflexivity.
  exfalso. unfold tied in *. apply Qeq_bool_iff in Hx, Hy.
  rewrite Hx, Hy in Hlt. exact (Qlt_irrefl r Hlt).
Qed.

Lemma sortByRelevance_stable (r : Q) (l : list Suggestion) :
  List.filter (tied r) (sortByRelevance l) = List.filter (tied r) l.
Proof.
  induction l as [|x l IH]; [reflexivity|].
  cbn [sortByRelevance fold_right]. fold (sortByRelevance l).
  rewrite insertByRelevance_tied. cbn [List.filter]. rewrite IH. reflexivity.
Qed.

Lemma StronglySorted_take {A : Type} (R : A -> A -> Prop) (n : nat) (l : list A) :
  StronglySorted R l -> StronglySorted R (take n l).
Proof.
  intros H; revert n; induction H as [|x l Hs IH Hx]; intros [|n]; simpl;
    try constructor.
  - apply IH.
  - rewrite <- (take_drop n l) in Hx. apply Forall_app in Hx as [Hx _].
    exact Hx.
Qed.

Lemma slice0_take {A : Type} (limit : Z) (l : list A) :
  exists n, slice0 limit l = take n l.
Proof. unfold slice0. destruct (limit <? 0)%Z; eauto. Qed.

Lemma slice0_length {A : Type} (limit : Z) (l : list A) :
  (0 <= limit)%Z -> (length (slice0 limit l) <= Z.to_nat limit)%nat.
Proof.
  intros H. unfold slice0. destruct (Z.ltb_spec limit 0); [lia|].
  rewrite length_take. lia.
Qed.

Lemma In_take {A : Type} (n : nat) (l : list A) (x : A) :
  In x (take n l) -> In x l.
Proof.
  intros H. rewrite <- (take_drop n l). apply in_or_app. left. exact H.
Qed.

(** *** The search terms are all empty or all non-empty *)

Lemma stripHebrewPrefixes_nonempty (word : jsstring) :
  (1 < length word)%nat ->
  Forall (fun v => v <> []) (stripHebrewPrefixes word).
Proof.
  intros Hl. unfold stripHebrewPrefixes, Str.substring.
  assert (Hd : forall n, (n < length word)%nat -> drop n word <> []).
  { intros n Hn E. apply (f_equal length) in E. rewrite length_drop in E.
    simpl in E. lia. }
  repeat apply Forall_app_2.
  - constructor; [|constructor]. intros ->. simpl in Hl. lia.
  - destruct (_ && _); constructor; [apply Hd; lia | constructor].
  - destruct (_ && _); constructor; [apply Hd; lia | constructor].
  - destruct (_ && (3 <? _)%nat) eqn:E; constructor; [|constructor].
    apply andb_true_iff in E as [_ E]. apply Nat.ltb_lt in E. apply Hd. lia.
Qed.

Lemma tokens_long (normalized word : jsstring) :
  In word (tokens normalized) -> (1 < length word)%nat.
Proof.
  unfold tokens. rewrite filter_In. intros [_ H]. apply Nat.ltb_lt. exact H.
Qed.

Lemma extractKeywords_shape (text : jsstring) :
  extractKeywords text = [[]]
  \/ Forall (fun s => s <> []) (extractKeywords text).
Proof.
  unfold extractKeywords. destruct (normalizeText text) as [|c n] eqn:E.
  - left. reflexivity.
  - right. repeat apply Forall_app_2.
    + constructor; [discriminate | constructor].
    + apply List.Forall_forall. intros w Hw. apply tokens_long in Hw.
      intros ->. simpl in Hw. lia.
    + apply List.Forall_forall. intros v Hv.
      apply in_flat_map in Hv as (w & Hw & Hv). apply tokens_long in Hw.
      unfold variationsOf, normalizeHebrewSpelling in Hv.
      assert (Hne : w <> []) by (intros ->; simpl in Hw; lia).
      destruct (hasHebrew w).
      * apply in_app_or in Hv as [[<-|[]]|Hv]; [exact Hne|].
        apply in_app_or in Hv as [Hv|[<-|[]]]; [|exact Hne].
        pose proof (stripHebrewPrefixes_nonempty w Hw) as Hf.
        rewrite List.Forall_forall in Hf. exact (Hf v Hv).
      * destruct Hv as [<-|[]]. exact Hne.
Qed.

(** *** What a suggestion carries *)

Lemma positive_Some (x : jsnum) (r : Q) :
  positive x = Some r -> x = Num r /\ (0 < r)%Q.
Proof.
  destruct x as [|q]; simpl; [discriminate|].
  destruct (Qlt_le_dec 0 q); [|discriminate].
  intros [= <-]. split; [reflexivity | assumption].
Qed.

Lemma suggestionOf_Some (terms : list jsstring)
    (iconMappings : gmap (list N) (list N)) (k : jsstring)
    (synonymList : list jsstring) (s : Suggestion) :
  suggestionOf terms iconMappings (k, synonymList) = Some s ->
  suggested s = k
  /\ suggestedIcon s = orNull (readProperty iconMappings k)
  /\ (0 < relevance s)%Q /\ (relevance s <= 100)%Q
  /\ (forall st t, In st terms -> In t (k :: synonymList) ->
        contained st t = true -> (pairRatio st t <= relevance s)%Q)
  /\ (exists st t, In st terms /\ In t (k :: synonymList)
        /\ contained st t = true /\ relevance s = pairRatio st t).
Proof.
  unfold suggestionOf.
  destruct (positive _) as [r|] eqn:Hp; [|discriminate].
  intros [= <-]. cbn [suggested suggestedIcon relevance].
  apply positive_Some in Hp as [Hn Hpos].
  rewrite maxRelevanceOf_pairs in Hn.
  apply fold_pairStep_Num in Hn as (a & [= <-] & _ & Hall & Hex).
  assert (Hw : exists st t, In st terms /\ In t (k :: synonymList)
                 /\ contained st t = true /\ r = pairRatio st t).
  { destruct Hex as [->|(st & t & Hin & Hc & Hr)].
    - exfalso. exact (Qlt_irrefl 0 Hpos).
    - apply in_pairsOf in Hin as [H1 H2]. exists st, t. auto. }
  repeat split; try assumption; try reflexivity.
  - destruct Hw as (st & t & _ & _ & _ & ->). apply ratio_bounds.
  - intros st t H1 H2 Hc. apply Hall; [|exact Hc].
    apply in_pairsOf. split; assumption.
Qed.

(** A keyword is suggested exactly when some pair in containment has a
    ratio above zero. *)
Lemma suggestionOf_is_Some (trackTitle : jsstring)
    (iconMappings : gmap (list N) (list N)) (k : jsstring)
    (synonymList : list jsstring) :
  let terms := extractKeywords trackTitle in
  is_Some (suggestionOf terms iconMappings (k, synonymList))
  <-> exists st t, In st terms /\ In t (k :: synonymList)
        /\ contained st t = true /\ (0 < pairRatio st t)%Q.
Proof.
  intros terms. split.
  - intros [s Hs]. apply suggestionOf_Some in Hs
      as (_ & _ & Hpos & _ & _ & (st & t & H1 & H2 & Hc & Hr)).
    exists st, t. rewrite <- Hr. auto.
  - intros (st & t & H1 & H2 & Hc & Hpos).
    destruct (extractKeywords_shape trackTitle) as [Hsh|Hsh]; fold terms in Hsh.
    + exfalso. rewrite Hsh in H1. destruct H1 as [<-|[]].
      unfold pairRatio in Hpos. simpl length in Hpos.
      rewrite ratio_zero_r in Hpos. exact (Qlt_irrefl 0 Hpos).
    + destruct (fold_pairStep_defined (pairsOf terms (k :: synonymList)) 0)
        as [r Hr].
      { intros s' t' Hin. apply in_pairsOf in Hin as [Hin _].
        rewrite List.Forall_forall in Hsh. exact (Hsh s' Hin). }
      pose proof Hr as Hr'.
      apply fold_pairStep_Num in Hr' as (a & _ & _ & Hall & _).
      assert (Hrpos : (0 < r)%Q).
      { eapply Qlt_le_trans; [exact Hpos|]. apply Hall; [|exact Hc].
        apply in_pairsOf. split; assumption. }
      unfold suggestionOf. rewrite maxRelevanceOf_pairs, Hr. simpl.
      destruct (Qlt_le_dec 0 r) as [_|Hle]; [eauto|].
      exfalso. exact (Qlt_irrefl 0 (Qlt_le_trans _ _ _ Hrpos Hle)).
Qed.

Lemma suggestMatches_loaded fs trackTitle limit language c :
  fst (suggestMatches fs trackTitle limit language c)
  = suggestMatchesIn (fst (loadSynonyms fs language c))
                     (default ∅ (iconIdsFile fs language)) trackTitle limit.
Proof.
  unfold suggestMatches, bind, ret, loadIconMappings.
  destruct (loadSynonyms fs language c) as [synonyms c1]. reflexivity.
Qed.

Lemma In_omap {A B : Type} (f : A -> option B) (l : list A) (y : B) :
  In y (omap f l) <-> exists x, In x l /\ f x = Some y.
Proof.
  rewrite <- list_elem_of_In, list_elem_of_omap.
  split; intros (x & Hx & E); exists x; split; try exact E;
    apply list_elem_of_In; exact Hx.
Qed.

(** C7, amended. For a limit that is not negative the result has at most
    [limit] suggestions.  For every limit it is a prefix of the suggestions
    pushed in table order, rearranged by decreasing relevance with
    suggestions of equal relevance left in their order; each suggestion
    carries the keyword of an entry of the table, what reading the icon
    mapping gives for that keyword, and as relevance the largest ratio of
    the lengths, [(min / max) * 100] in double arithmetic, over the pairs
    of a search term and a candidate term of the entry of which one
    contains the other; this relevance is above 0 and at most 100, and an
    entry is suggested exactly when one such pair has a ratio above 0,
    which is when neither string of the pair is empty. *)
Theorem suggestMatches_ranked (synonyms : YotoSynonyms)
    (iconMappings : gmap (list N) (list N)) (trackTitle : jsstring)
    (limit : Z) :
  let terms := extractKeywords trackTitle in
  let pushed := omap (suggestionOf terms iconMappings) synonyms in
  let result := suggestMatchesIn synonyms iconMappings trackTitle limit in
  ((0 <= limit)%Z -> (length result <= Z.to_nat limit)%nat)
  /\ StronglySorted byRelevance result
  /\ (exists n, result = take n (sortByRelevance pushed))
  /\ Permutation (sortByRelevance pushed) pushed
  /\ (forall r, List.filter (tied r) (sortByRelevance pushed)
                = List.filter (tied r) pushed)
  /\ (forall s, In s result ->
        exists k synonymList,
          In (k, synonymList) synonyms
          /\ suggested s = k
          /\ suggestedIcon s = orNull (readProperty iconMappings k)
          /\ (0 < relevance s)%Q /\ (relevance s <= 100)%Q
          /\ (forall st t, In st terms -> In t (k :: synonymList) ->
                contained st t = true -> (pairRatio st t <= relevance s)%Q)
          /\ (exists st t, In st terms /\ In t (k :: synonymList)
                /\ contained st t = true /\ relevance s = pairRatio st t))
  /\ (forall k synonymList, In (k, synonymList) synonyms ->
        is_Some (suggestionOf terms iconMappings (k, synonymList))
        <-> exists st t, In st terms /\ In t (k :: synonymList)
              /\ contained st t = true /\ (0 < pairRatio st t)%Q)
  /\ (forall st t, (0 < pairRatio st t)%Q
                   <-> st <> [] /\ normalizeText t <> []).
Proof.
  intros terms pushed result.
  assert (Hres : result = slice0 limit (sortByRelevance pushed)) by reflexivity.
  destruct (slice0_take limit (sortByRelevance pushed)) as [n Hn].
  split; [intros Hl; rewrite Hres; apply slice0_length; exact Hl|].
  split; [rewrite Hres, Hn; apply StronglySorted_take, sortByRelevance_sorted|].
  split; [exists n; rewrite Hres; exact Hn|].
  split; [apply sortByRelevance_perm|].
  split; [intros r; apply sortByRelevance_stable|].
  split.
  - intros s Hs. rewrite Hres, Hn in Hs. apply In_take in Hs.
    apply (Permutation_in _ (sortByRelevance_perm pushed)) in Hs.
    apply In_omap in Hs as ([k synonymList] & Hin & Hs).
    exists k, synonymList. split; [exact Hin|].
    apply suggestionOf_Some. exact Hs.
  - split; [|apply pairRatio_positive].
    intros k synonymList _. apply suggestionOf_is_Some.
Qed.

Lemma suggestMatches_ranked_witness :
  (length (suggestMatchesIn rankingTable ∅ dogs 2) <= 2)%nat.
Proof.
  apply (suggestMatches_ranked rankingTable ∅ dogs 2).
  lia.
Defined.

(** A negative limit counts from the end of the ranking.  The relevance
    of a keyword of nine units for a title of three is the double that
    [(3 / 9) * 100] gives, which is below a third of 100. *)
Lemma negative_limit_keeps_suggestions :
  map suggested (suggestMatchesIn rankingTable ∅ dogs (-1))
  = [dogs; dog]
  /\ ~ (Z.of_nat (length (suggestMatchesIn rankingTable ∅ dogs (-1)))
        <= -1)%Z
  /\ map relevance (suggestMatchesIn [(doghouses, [])] ∅ dog 3)
     = [(4691249611844266 # 140737488355328)%Q]
  /\ (4691249611844266 # 140737488355328 < 100 * (3 # 9))%Q.
Proof.
  split; [vm_compute; reflexivity|].
  split; [vm_compute; intros H; apply H; reflexivity|].
  split; vm_compute; reflexivity.
Qed.


(** * Further properties of the matcher *)

(** ** The shape of normalised strings and of search terms *)

Lemma isCore_normal (c : N) : isCore c = true -> isNormalUnit c.
Proof. intros H. unfold isNormalUnit. units. lia. Qed.

(** The result of [normalizeText] is made of lower-case letters, digits,
    underscores, Hebrew units and spaces; a space stands neither first nor
    last nor next to another space. *)
Theorem normalizeText_alphabet (text : jsstring) :
  Forall isNormalUnit (normalizeText text)
  /\ (forall q, normalizeText text <> 32 :: q)
  /\ (forall p, normalizeText text <> p ++ [32])
  /\ (forall p q, normalizeText text <> p ++ 32 :: 32 :: q).
Proof.
  destruct (normalizeText_Normal text) as [Hu Ht Hh Hl].
  split; [|split; [|split]].
  - eapply List.Forall_impl; [|exact Hu]. exact isCore_normal.
  - intros q E. rewrite E in Hh. discriminate.
  - intros p E. rewrite E, rev_app_distr in Hl. discriminate.
  - intros p q E. rewrite E in Ht. apply tightFrom_suffix in Ht. discriminate.
Qed.

Lemma Str_includes_refl (s : jsstring) : Str.includes s s = true.
Proof. apply Str_includes_spec. exists [], []. rewrite app_nil_r. reflexivity. Qed.

Lemma Str_split_head (s : jsstring) :
  exists w ws q, Str.split s = w :: ws /\ s = w ++ q.
Proof.
  induction s as [|c s (w & ws & q & E & Hs)]; simpl.
  - exists [], [], []. split; reflexivity.
  - destruct (c =? 32).
    + exists [], (Str.split s), (c :: s). split; reflexivity.
    + rewrite E. exists (c :: w), ws, q. split; [reflexivity|].
      simpl. f_equal. exact Hs.
Qed.

(** The pieces of [split] are segments of the string. *)
Lemma Str_split_segment (s w : jsstring) :
  In w (Str.split s) -> exists p q, s = p ++ w ++ q.
Proof.
  revert w; induction s as [|c s IH]; intros w; simpl.
  - intros [<-|[]]. exists [], []. reflexivity.
  - destruct (c =? 32).
    + intros [<-|H].
      * exists [], (c :: s). reflexivity.
      * destruct (IH w H) as (p & q & ->). exists (c :: p), q. reflexivity.
    + destruct (Str_split_head s) as (w0 & ws & q0 & E & Hs).
      rewrite E in *. intros [<-|H].
      * exists [], q0. simpl. f_equal. exact Hs.
      * destruct (IH w (or_intror H)) as (p & q & ->).
        exists (c :: p), q. reflexivity.
Qed.

Lemma Str_split_no_space (s w : jsstring) :
  In w (Str.split s) -> ~ In 32 w.
Proof.
  revert w; induction s as [|c s IH]; intros w; simpl.
  - intros [<-|[]] [].
  - destruct (N.eqb_spec c 32) as [->|Hc].
    + intros [<-|H]; [intros [] | exact (IH w H)].
    + destruct (Str_split_head s) as (w0 & ws & q0 & E & Hs).
      rewrite E in *. intros [<-|H].
      * intros [Hx|Hx]; [congruence|]. exact (IH w0 (or_introl eq_refl) Hx).
      * exact (IH w (or_intror H)).
Qed.

Lemma segment_trans (s w v : jsstring) :
  (exists p q, s = p ++ w ++ q) -> (exists p q, w = p ++ v ++ q) ->
  exists p q, s = p ++ v ++ q.
Proof.
  intros (p & q & ->) (p' & q' & ->). exists (p ++ p'), (q' ++ q).
  rewrite <- !app_assoc. reflexivity.
Qed.

Lemma drop_segment (n : nat) (w : jsstring) :
  exists p q, w = p ++ drop n w ++ q.
Proof. exists (take n w), []. rewrite app_nil_r, take_drop. reflexivity. Qed.

Lemma stripHebrewPrefixes_segments (word v : jsstring) :
  In v (stripHebrewPrefixes word) -> exists p q, word = p ++ v ++ q.
Proof.
  unfold stripHebrewPrefixes, Str.substring. intros H.
  apply in_app_or in H as [[<-|[]]|H]; [exists [], []; rewrite app_nil_r; reflexivity|].
  apply in_app_or in H as [H|H];
    [|apply in_app_or in H as [H|H]];
    destruct (_ && _); try destruct H as [<-|[]]; try destruct H;
    apply drop_segment.
Qed.

(** Every search term occurs in the normalised title, the first one is the
    normalised title itself, and every other one is a token of it or what
    is left of a token without a prefix, and has at least two units. *)
Theorem searchTerms_in_title (text : jsstring) :
  exists others,
    extractKeywords text = normalizeText text :: others
    /\ (forall t, In t (extractKeywords text) ->
          Str.includes (normalizeText text) t = true)
    /\ (forall t, In t others -> (2 <= length t)%nat /\ ~ In 32 t).
Proof.
  exists (tokens (normalizeText text)
          ++ flat_map variationsOf (tokens (normalizeText text))).
  split; [reflexivity|].
  assert (Htok : forall w, In w (tokens (normalizeText text)) ->
            (exists p q, normalizeText text = p ++ w ++ q)
            /\ (2 <= length w)%nat /\ ~ In 32 w).
  { intros w Hw. pose proof (tokens_long _ _ Hw) as Hl.
    unfold tokens in Hw. apply filter_In in Hw as [Hw _].
    split; [exact (Str_split_segment _ _ Hw)|].
    split; [lia | exact (Str_split_no_space _ _ Hw)]. }
  assert (Hvar : forall w v, In w (tokens (normalizeText text)) ->
            In v (variationsOf w) ->
            (exists p q, normalizeText text = p ++ v ++ q)
            /\ (2 <= length v)%nat /\ ~ In 32 v).
  { intros w v Hw Hv. destruct (Htok w Hw) as (Hseg & Hl & Hsp).
    assert (Hs : In v (stripHebrewPrefixes w) \/ v = w).
    { unfold variationsOf, normalizeHebrewSpelling in Hv.
      destruct (hasHebrew w); [|destruct Hv as [<-|[]]; auto].
      apply in_app_or in Hv as [[<-|[]]|Hv]; [auto|].
      apply in_app_or in Hv as [Hv|[<-|[]]]; auto. }
    destruct Hs as [Hs | ->]; [|auto].
    pose proof (stripHebrewPrefixes_segments w v Hs) as Hv'.
    split; [exact (segment_trans _ _ _ Hseg Hv')|].
    split.
    - unfold stripHebrewPrefixes, Str.substring in Hs.
      apply in_app_or in Hs as [[<-|[]]|Hs]; [exact Hl|].
      apply in_app_or in Hs as [Hs|Hs]; [|apply in_app_or in Hs as [Hs|Hs]];
        destruct (_ && _) eqn:E; try destruct Hs as [<-|[]]; try destruct Hs;
        apply andb_true_iff in E as [_ E]; apply Nat.ltb_lt in E;
        rewrite length_drop; lia.
    - destruct Hv' as (p & q & ->). intros Hin. apply Hsp.
      apply in_or_app. right. apply in_or_app. left. exact Hin. }
  split.
  - intros t Ht. apply Str_includes_spec.
    unfold extractKeywords in Ht. cbn [app] in Ht.
    destruct Ht as [<-|Ht]; [exists [], []; rewrite app_nil_r; reflexivity|].
    apply in_app_or in Ht as [Ht|Ht]; [exact (proj1 (Htok t Ht))|].
    apply in_flat_map in Ht as (w & Hw & Hv). exact (proj1 (Hvar w t Hw Hv)).
  - intros t Ht. apply in_app_or in Ht as [Ht|Ht]; [exact (proj2 (Htok t Ht))|].
    apply in_flat_map in Ht as (w & Hw & Hv). exact (proj2 (Hvar w t Hw Hv)).
Qed.

(** ** The scan without an exact hit *)

Lemma termHits_contained (searchTerm term : jsstring) :
  termHits searchTerm term = true -> contained searchTerm term = true.
Proof.
  unfold termHits, contained. intros H. apply Str_eqb_eq in H. rewrite H.
  rewrite Str_includes_refl. reflexivity.
Qed.

Lemma checkTerm_score keyword searchTerm term bm bs :
  termHits searchTerm term = false ->
  checkTerm keyword searchTerm term bm bs
  = Running (if (bs <? pairScore searchTerm term)%nat then Some keyword else bm)
            (Nat.max bs (pairScore searchTerm term)).
Proof.
  unfold termHits, checkTerm, normalizeHebrewSpelling, pairScore. simpl.
  intros ->. rewrite andb_false_r. fold (contained searchTerm term).
  destruct (contained searchTerm term).
  - destruct (Nat.ltb_spec bs (Nat.max (length (normalizeText term)) (length searchTerm)));
      f_equal; lia.
  - replace (bs <? 0)%nat with false by (symmetry; apply Nat.ltb_ge; lia).
    f_equal. lia.
Qed.

(** A loop that only raises the best score, always in favour of the same
    keyword, ends on the largest score met. *)
Lemma forOf_scores {A : Type} (f : A -> nat) (keyword : jsstring)
    (body : A -> option jsstring -> nat -> Scan) (xs : list A) :
  (forall x bm bs, In x xs ->
     body x bm bs
     = Running (if (bs <? f x)%nat then Some keyword else bm) (Nat.max bs (f x))) ->
  forall bm bs,
    forOf xs body bm bs
    = Running (if (bs <? list_max (map f xs))%nat then Some keyword else bm)
              (Nat.max bs (list_max (map f xs))).
Proof.
  induction xs as [|x xs IH]; intros Hbody bm bs.
  - simpl. replace (bs <? 0)%nat with false by (symmetry; apply Nat.ltb_ge; lia).
    f_equal. lia.
  - cbn [forOf map list_max fold_right].
    rewrite (Hbody x bm bs) by (left; reflexivity).
    rewrite IH by (intros y bm0 bs0 Hy; apply Hbody; right; exact Hy).
    fold (list_max (map f xs)).
    destruct (Nat.ltb_spec bs (f x)),
             (Nat.ltb_spec (Nat.max bs (f x)) (list_max (map f xs))),
             (Nat.ltb_spec bs (Nat.max (f x) (list_max (map f xs))));
      f_equal; lia.
Qed.

Lemma existsb_false_In {A : Type} (f : A -> bool) (xs : list A) (x : A) :
  existsb f xs = false -> In x xs -> f x = false.
Proof.
  intros H Hx. destruct (f x) eqn:E; [|reflexivity].
  assert (existsb f xs = true) by (apply existsb_exists; eauto). congruence.
Qed.

Lemma scanKeyword_score terms entry bm bs :
  exactHit terms entry = false ->
  scanKeyword terms entry bm bs
  = Running (if (bs <? entryScore terms entry)%nat then Some (fst entry) else bm)
            (Nat.max bs (entryScore terms entry)).
Proof.
  destruct entry as [keyword synonymList]. unfold exactHit, scanKeyword, entryScore.
  cbn [fst snd]. intros H.
  apply (forOf_scores
           (fun searchTerm =>
              list_max (map (pairScore searchTerm) (keyword :: synonymList)))
           keyword).
  intros searchTerm bm0 bs0 Hs.
  apply (forOf_scores (pairScore searchTerm) keyword).
  intros term bm1 bs1 Ht. apply checkTerm_score.
  pose proof (existsb_false_In _ _ searchTerm H Hs) as H1. cbv beta in H1.
  exact (existsb_false_In _ _ term H1 Ht).
Qed.

Lemma list_max_In (l : list nat) (x : nat) : In x l -> (x <= list_max l)%nat.
Proof.
  intros H. pose proof (proj1 (list_max_le l (list_max l)) (Nat.le_refl _)) as F.
  rewrite List.Forall_forall in F. exact (F x H).
Qed.

Lemma list_max_zero (l : list nat) :
  list_max l = 0%nat <-> forall x, In x l -> x = 0%nat.
Proof.
  split.
  - intros E x Hx. pose proof (list_max_In l x Hx). lia.
  - intros H. apply Nat.le_0_r. apply list_max_le. apply List.Forall_forall.
    intros x Hx. rewrite (H x Hx). lia.
Qed.

(** The scan of a table without an exact hit ends on the largest entry
    score, in favour of the first entry that reaches it. *)
Lemma scan_first_max (terms : list jsstring) (synonyms : YotoSynonyms) :
  (forall e, In e synonyms -> exactHit terms e = false) ->
  forall bm bs,
  exists bm' bs',
    forOf synonyms (scanKeyword terms) bm bs = Running bm' bs'
    /\ bs' = Nat.max bs (list_max (map (entryScore terms) synonyms))
    /\ ((bs' = bs /\ bm' = bm)
        \/ exists pre e post,
             synonyms = pre ++ e :: post
             /\ bm' = Some (fst e)
             /\ entryScore terms e = bs' /\ (bs < bs')%nat
             /\ (forall x, In x pre -> (entryScore terms x < bs')%nat)
             /\ (forall x, In x post -> (entryScore terms x <= bs')%nat)).
Proof.
  induction synonyms as [|e rest IH]; intros Hno bm bs.
  - exists bm, bs. simpl. split; [reflexivity|]. split; [lia | left; auto].
  - cbn [forOf]. rewrite scanKeyword_score by (apply Hno; left; reflexivity).
    destruct (IH (fun x Hx => Hno x (or_intror Hx))
                (if (bs <? entryScore terms e)%nat then Some (fst e) else bm)
                (Nat.max bs (entryScore terms e)))
      as (bm' & bs' & Hrun & Hbs & Hcase).
    exists bm', bs'. split; [exact Hrun|].
    cbn [map list_max fold_right]. fold (list_max (map (entryScore terms) rest)).
    split; [lia|].
    destruct Hcase as [[E1 E2]|(pre & e' & post & -> & Hbm & Hsc & Hlt & Hpre & Hpost)].
    + destruct (Nat.ltb_spec bs (entryScore terms e)) as [Hl|Hl].
      * right. exists [], e, rest. repeat split; try assumption; try lia.
        -- intros x [].
        -- intros x Hx.
           pose proof (list_max_In _ _ (in_map (entryScore terms) _ _ Hx)). lia.
      * left. split; [lia | exact E2].
    + right. exists (e :: pre), e', post.
      repeat split; try assumption; try lia.
      intros x [<-|Hx]; [lia | exact (Hpre x Hx)].
Qed.

Lemma find_none_iff {A : Type} (f : A -> bool) (xs : list A) :
  find f xs = None <-> forall x, In x xs -> f x = false.
Proof.
  split; [apply find_none|]. intros H.
  destruct (find f xs) as [x|] eqn:E; [|reflexivity].
  apply find_some in E as [Hx Hf]. rewrite (H x Hx) in Hf. discriminate.
Qed.

Lemma scan_without_hit (terms : list jsstring) (synonyms : YotoSynonyms) :
  (forall e, In e synonyms -> exactHit terms e = false) ->
  (findBestKeywordMatch terms synonyms = None
   /\ forall e, In e synonyms -> entryScore terms e = 0%nat)
  \/ exists pre e post,
       synonyms = pre ++ e :: post
       /\ findBestKeywordMatch terms synonyms = Some (fst e)
       /\ (0 < entryScore terms e)%nat
       /\ (forall x, In x pre -> (entryScore terms x < entryScore terms e)%nat)
       /\ (forall x, In x post -> (entryScore terms x <= entryScore terms e)%nat).
Proof.
  intros Hno.
  destruct (scan_first_max terms synonyms Hno None 0%nat)
    as (bm' & bs' & Hrun & Hbs & Hcase).
  unfold findBestKeywordMatch, scanTable. rewrite Hrun.
  destruct Hcase as [[E1 E2]|(pre & e & post & E & Hbm & Hsc & Hlt & Hpre & Hpost)].
  - left. split; [exact E2|]. intros e He.
    pose proof (list_max_In _ _ (in_map (entryScore terms) _ _ He)). lia.
  - right. exists pre, e, post. rewrite Hsc. auto 10.
Qed.

(** When no search term equals a candidate term, the keyword returned is
    that of the first entry whose score is the largest of the table, and
    there is none when every score is zero. *)
Theorem fuzzy_first_longest (terms : list jsstring) (synonyms : YotoSynonyms) :
  (forall e, In e synonyms -> exactHit terms e = false) ->
  (findBestKeywordMatch terms synonyms = None
   /\ forall e, In e synonyms -> entryScore terms e = 0%nat)
  \/ exists pre e post,
       synonyms = pre ++ e :: post
       /\ findBestKeywordMatch terms synonyms = Some (fst e)
       /\ (0 < entryScore terms e)%nat
       /\ (forall x, In x pre -> (entryScore terms x < entryScore terms e)%nat)
       /\ (forall x, In x post -> (entryScore terms x <= entryScore terms e)%nat).
Proof.
  intros Hno.
  destruct (scan_first_max terms synonyms Hno None 0%nat)
    as (bm' & bs' & Hrun & Hbs & Hcase).
  unfold findBestKeywordMatch, scanTable. rewrite Hrun.
  destruct Hcase as [[E1 E2]|(pre & e & post & E & Hbm & Hsc & Hlt & Hpre & Hpost)].
  - left. split; [exact E2|]. intros e He.
    pose proof (list_max_In _ _ (in_map (entryScore terms) _ _ He)). lia.
  - right. exists pre, e, post. rewrite Hsc. auto 10.
Qed.

Lemma fuzzy_first_longest_witness :
  (findBestKeywordMatch (extractKeywords dogs) fuzzyTable = None
   /\ forall e, In e fuzzyTable -> entryScore (extractKeywords dogs) e = 0%nat)
  \/ exists pre e post,
       fuzzyTable = pre ++ e :: post
       /\ findBestKeywordMatch (extractKeywords dogs) fuzzyTable = Some (fst e)
       /\ (0 < entryScore (extractKeywords dogs) e)%nat
       /\ (forall x, In x pre ->
             (entryScore (extractKeywords dogs) x
              < entryScore (extractKeywords dogs) e)%nat)
       /\ (forall x, In x post ->
             (entryScore (extractKeywords dogs) x
              <= entryScore (extractKeywords dogs) e)%nat).
Proof.
  apply (fuzzy_first_longest (extractKeywords dogs) fuzzyTable).
  intros e [<-|[<-|[<-|[]]]]; vm_compute; reflexivity.
Defined.

Example fuzzyTable_first_of_two :
  findBestKeywordMatch (extractKeywords dogs) fuzzyTable = Some moon.
Proof. vm_compute. reflexivity. Qed.

(** The score of an entry is the largest of the longer lengths over its
    pairs in containment. *)
Lemma entryScore_spec (terms : list jsstring) (entry : jsstring * list jsstring) :
  (forall st t, In st terms -> In t (fst entry :: snd entry) ->
     (pairScore st t <= entryScore terms entry)%nat)
  /\ (entryScore terms entry = 0%nat
      \/ exists st t, In st terms /\ In t (fst entry :: snd entry)
           /\ contained st t = true
           /\ entryScore terms entry
              = Nat.max (length (normalizeText t)) (length st)).
Proof.
  unfold entryScore. split.
  - intros st t Hs Ht.
    etransitivity; [apply (list_max_In (map (pairScore st) (fst entry :: snd entry)));
                    apply in_map; exact Ht|].
    apply (list_max_In
             (map (fun s => list_max (map (pairScore s) (fst entry :: snd entry))) terms)).
    apply (in_map (fun s => list_max (map (pairScore s) (fst entry :: snd entry)))).
    exact Hs.
  - assert (Hmax : forall l : list nat, list_max l = 0%nat \/ In (list_max l) l).
    { induction l as [|x l IH]; [left; reflexivity|].
      cbn [list_max fold_right]. fold (list_max l).
      destruct (Nat.max_spec x (list_max l)) as [[Hlt ->]|[Hle ->]].
      - destruct IH as [IH|IH]; [lia | right; right; exact IH].
      - right. left. reflexivity. }
    match goal with |- list_max ?l = _ \/ _ => destruct (Hmax l) as [H|H] end;
      [left; exact H|].
    apply in_map_iff in H as (st & Hst & Hs).
    destruct (Hmax (map (pairScore st) (fst entry :: snd entry))) as [H|H].
    + left. rewrite <- Hst. exact H.
    + apply in_map_iff in H as (t & Ht & Hin). rewrite <- Hst, <- Ht.
      unfold pairScore. destruct (contained st t) eqn:Hc.
      * right. exists st, t. auto.
      * left. reflexivity.
Qed.

Lemma findBest_None_iff (terms : list jsstring)
    (synonyms : YotoSynonyms) :
  findBestKeywordMatch terms synonyms = None
  <-> forall e st t, In e synonyms -> In st terms -> In t (fst e :: snd e) ->
        contained st t = false.
Proof.
  split.
  - intros Hnone.
    assert (Hno : forall e, In e synonyms -> exactHit terms e = false).
    { apply find_none_iff.
      destruct (find (exactHit terms) synonyms) as [e|] eqn:Hf; [|reflexivity].
      unfold findBestKeywordMatch in Hnone.
      rewrite (scanTable_first_hit _ _ _ Hf) in Hnone. discriminate. }
    destruct (scan_without_hit terms synonyms Hno)
      as [[_ Hz]|(pre & e & post & _ & H & _)]; [|congruence].
    intros e st t He Hs Ht.
    destruct (contained st t) eqn:Hc; [|reflexivity]. exfalso.
    pose proof (proj1 (entryScore_spec terms e) st t Hs Ht) as Hle.
    rewrite (Hz e He) in Hle. unfold pairScore in Hle. rewrite Hc in Hle.
    assert (Hh : termHits st t = true).
    { unfold termHits. apply Str_eqb_eq.
      destruct (normalizeText t), st; simpl in Hle; try lia. reflexivity. }
    pose proof (Hno e He) as Hex. unfold exactHit in Hex.
    pose proof (existsb_false_In _ _ st Hex Hs) as H1. cbv beta in H1.
    rewrite (existsb_false_In _ _ t H1 Ht) in Hh. discriminate.
  - intros Hnc.
    assert (Hno : forall e, In e synonyms -> exactHit terms e = false).
    { intros e He. unfold exactHit.
      destruct (existsb _ terms) eqn:E; [|reflexivity].
      apply existsb_exists in E as (st & Hs & E).
      apply existsb_exists in E as (t & Ht & E).
      apply termHits_contained in E. rewrite (Hnc e st t He Hs Ht) in E.
      discriminate. }
    destruct (scan_without_hit terms synonyms Hno)
      as [[H _]|(pre & e & post & -> & _ & Hpos & _)]; [exact H|].
    exfalso.
    destruct (proj2 (entryScore_spec terms e)) as [Hz|(st & t & Hs & Ht & Hc & _)];
      [lia|].
    rewrite (Hnc e st t) in Hc; [discriminate | | exact Hs | exact Ht].
    apply in_or_app. right. left. reflexivity.
Qed.

(** There is no keyword exactly when no search term and no candidate term
    of the table contain one another. *)
Theorem no_match_iff_no_containment (terms : list jsstring)
    (synonyms : YotoSynonyms) :
  findBestKeywordMatch terms synonyms = None
  <-> forall e st t, In e synonyms -> In st terms -> In t (fst e :: snd e) ->
        contained st t = false.
Proof.
  split.
  - intros Hnone.
    assert (Hno : forall e, In e synonyms -> exactHit terms e = false).
    { apply find_none_iff.
      destruct (find (exactHit terms) synonyms) as [e|] eqn:Hf; [|reflexivity].
      unfold findBestKeywordMatch in Hnone.
      rewrite (scanTable_first_hit _ _ _ Hf) in Hnone. discriminate. }
    destruct (scan_without_hit terms synonyms Hno)
      as [[_ Hz]|(pre & e & post & _ & H & _)]; [|congruence].
    intros e st t He Hs Ht.
    destruct (contained st t) eqn:Hc; [|reflexivity]. exfalso.
    pose proof (proj1 (entryScore_spec terms e) st t Hs Ht) as Hle.
    rewrite (Hz e He) in Hle. unfold pairScore in Hle. rewrite Hc in Hle.
    assert (Hh : termHits st t = true).
    { unfold termHits. apply Str_eqb_eq.
      destruct (normalizeText t), st; simpl in Hle; try lia. reflexivity. }
    pose proof (Hno e He) as Hex. unfold exactHit in Hex.
    pose proof (existsb_false_In _ _ st Hex Hs) as H1. cbv beta in H1.
    rewrite (existsb_false_In _ _ t H1 Ht) in Hh. discriminate.
  - intros Hnc.
    assert (Hno : forall e, In e synonyms -> exactHit terms e = false).
    { intros e He. unfold exactHit.
      destruct (existsb _ terms) eqn:E; [|reflexivity].
      apply existsb_exists in E as (st & Hs & E).
      apply existsb_exists in E as (t & Ht & E).
      apply termHits_contained in E. rewrite (Hnc e st t He Hs Ht) in E.
      discriminate. }
    destruct (scan_without_hit terms synonyms Hno)
      as [[H _]|(pre & e & post & -> & _ & Hpos & _)]; [exact H|].
    exfalso.
    destruct (proj2 (entryScore_spec terms e)) as [Hz|(st & t & Hs & Ht & Hc & _)];
      [lia|].
    rewrite (Hnc e st t) in Hc; [discriminate | | exact Hs | exact Ht].
    apply in_or_app. right. left. reflexivity.
Qed.

(** What [findBestKeywordMatch] returns is a keyword of the table. *)
Lemma findBestKeywordMatch_key (terms : list jsstring) (synonyms : YotoSynonyms)
    (k : jsstring) :
  findBestKeywordMatch terms synonyms = Some k -> In k (keysOf synonyms).
Proof.
  intros H. unfold keysOf.
  destruct (find (exactHit terms) synonyms) as [e|] eqn:Hf.
  - unfold findBestKeywordMatch in H.
    rewrite (scanTable_first_hit _ _ _ Hf) in H. injection H as <-.
    apply in_map. exact (proj1 (find_some _ _ Hf)).
  - destruct (scan_without_hit terms synonyms (find_none _ _ Hf))
      as [[H' _]|(pre & e & post & -> & H' & _)]; [congruence|].
    rewrite H' in H. injection H as <-.
    apply in_map. apply in_or_app. right. left. reflexivity.
Qed.

(** The keyword of a result is a non-empty keyword of the table; its icon
    is the non-empty entry of that keyword in the icon mapping, or, when
    the mapping has no entry for the keyword and the keyword names a member
    inherited from [Object.prototype], that member; and the confidence is
    [none] exactly when there is no keyword. *)
Theorem matchIcon_result_sound (synonyms : YotoSynonyms)
    (iconMappings : gmap (list N) (list N)) (trackTitle : jsstring) :
  (forall k, keyword (matchIconIn synonyms iconMappings trackTitle) = Some k ->
     k <> [] /\ In k (keysOf synonyms))
  /\ (forall v, iconId (matchIconIn synonyms iconMappings trackTitle) = Some v ->
        exists k, keyword (matchIconIn synonyms iconMappings trackTitle) = Some k
                  /\ ((exists s, v = stored s /\ s <> []
                                 /\ iconMappings !! k = Some s)
                      \/ (v = inherited k /\ isInherited k = true
                          /\ iconMappings !! k = None)))
  /\ (confidence (matchIconIn synonyms iconMappings trackTitle) = none
      <-> keyword (matchIconIn synonyms iconMappings trackTitle) = None)
  /\ searchTerms (matchIconIn synonyms iconMappings trackTitle)
     = extractKeywords trackTitle.
Proof.
  unfold matchIconIn.
  destruct (truthy (findBestKeywordMatch _ synonyms)) as [k|] eqn:E;
    cbn [keyword iconId confidence searchTerms].
  - apply truthy_Some in E as [E Hne].
    split; [intros k' [= <-]; split;
            [exact Hne | exact (findBestKeywordMatch_key _ _ _ E)]|].
    split.
    + intros v Hv. apply orNull_Some in Hv as [Hv Hv']. exists k.
      split; [reflexivity|].
      apply readProperty_Some in Hv as [(s & Hs & ->)|(Hs & Hi & ->)].
      * left. exists s. repeat split; [|exact Hs]. intros ->. contradiction.
      * right. auto.
    + split; [|reflexivity].
      destruct (Str.mem _ _); split; intros H; discriminate.
  - split; [intros k H; discriminate|].
    split; [intros v H; discriminate|]. split; [tauto | reflexivity].
Qed.
(** ** Suggestions and matches *)

Lemma omap_all_None {A B : Type} (f : A -> option B) (l : list A) :
  (forall x, In x l -> f x = None) -> omap f l = [].
Proof.
  induction l as [|x l IH]; intros H; [reflexivity|].
  cbn [omap list_omap]. rewrite (H x) by (left; reflexivity).
  apply IH. intros y Hy. apply H. right. exact Hy.
Qed.

Lemma slice0_nil {A : Type} (limit : Z) : slice0 limit (@nil A) = [].
Proof. unfold slice0. destruct (limit <? 0)%Z; apply take_nil. Qed.

Lemma no_containment_no_suggestion (synonyms : YotoSynonyms)
    (iconMappings : gmap (list N) (list N)) (trackTitle : jsstring) (limit : Z) :
  (forall e st t, In e synonyms -> In st (extractKeywords trackTitle) ->
     In t (fst e :: snd e) -> contained st t = false) ->
  suggestMatchesIn synonyms iconMappings trackTitle limit = [].
Proof.
  intros Hnc. unfold suggestMatchesIn.
  rewrite omap_all_None; [apply slice0_nil|].
  intros [k synonymList] He.
  destruct (suggestionOf _ iconMappings (k, synonymList)) as [s|] eqn:Hs;
    [|reflexivity].
  exfalso.
  destruct (proj1 (suggestionOf_is_Some trackTitle iconMappings k synonymList)
              (ex_intro _ s Hs)) as (st & t & H1 & H2 & Hc & _).
  rewrite (Hnc (k, synonymList) st t He H1 H2) in Hc. discriminate.
Qed.

(** When [matchIcon] finds no keyword in a table without the empty string
    as keyword, [suggestMatches] has nothing to suggest for the title. *)
Theorem no_keyword_no_suggestion (synonyms : YotoSynonyms)
    (iconMappings : gmap (list N) (list N)) (trackTitle : jsstring) (limit : Z) :
  keyword (matchIconIn synonyms iconMappings trackTitle) = None ->
  ~ In [] (keysOf synonyms) ->
  suggestMatchesIn synonyms iconMappings trackTitle limit = [].
Proof.
  intros Hk Hne. apply no_containment_no_suggestion.
  apply findBest_None_iff.
  unfold matchIconIn in Hk.
  destruct (findBestKeywordMatch _ synonyms) as [[|c k]|] eqn:E;
    [|discriminate|reflexivity].
  exfalso. apply Hne. exact (findBestKeywordMatch_key _ _ _ E).
Qed.

Lemma no_keyword_no_suggestion_witness :
  confidence (matchIconIn dogMoonTable ∅ calculusTitle) = none
  /\ suggestMatchesIn dogMoonTable ∅ calculusTitle 3 = [].
Proof.
  split; [vm_compute; reflexivity|].
  apply no_keyword_no_suggestion.
  - vm_compute. reflexivity.
  - intros [H|[H|[]]]; discriminate.
Defined.

(** A title without a letter, a digit or an underscore gets no suggestion. *)
Theorem blank_title_no_suggestion (synonyms : YotoSynonyms)
    (iconMappings : gmap (list N) (list N)) (trackTitle : jsstring) (limit : Z) :
  normalizeText trackTitle = [] ->
  suggestMatchesIn synonyms iconMappings trackTitle limit = [].
Proof.
  intros Hn. unfold suggestMatchesIn.
  rewrite omap_all_None; [apply slice0_nil|].
  intros [k synonymList] He.
  destruct (suggestionOf _ iconMappings (k, synonymList)) as [s|] eqn:Hs;
    [|reflexivity].
  exfalso.
  destruct (proj1 (suggestionOf_is_Some trackTitle iconMappings k synonymList)
              (ex_intro _ s Hs)) as (st & t & H1 & _ & _ & Hpos).
  unfold extractKeywords in H1. rewrite Hn in H1. destruct H1 as [<-|[]].
  unfold pairRatio in Hpos. simpl length in Hpos.
  rewrite ratio_zero_r in Hpos. exact (Qlt_irrefl 0 Hpos).
Qed.

Lemma blank_title_no_suggestion_witness :
  suggestMatchesIn dogMoonTable ∅ [33; 32; 63] 3 = []
  /\ keyword (matchIconIn dogMoonTable ∅ [33; 32; 63]) = Some dog.
Proof.
  split; [|vm_compute; reflexivity].
  apply blank_title_no_suggestion. vm_compute. reflexivity.
Defined.

(** With a limit that is not negative, as many suggestions come back as the
    limit allows: the smaller of the limit and the number of entries with
    a positive relevance. *)
Theorem suggestMatches_count (synonyms : YotoSynonyms)
    (iconMappings : gmap (list N) (list N)) (trackTitle : jsstring) (limit : Z) :
  (0 <= limit)%Z ->
  length (suggestMatchesIn synonyms iconMappings trackTitle limit)
  = Nat.min (Z.to_nat limit)
      (length (List.filter
                 (fun e => bool_decide
                             (is_Some (suggestionOf (extractKeywords trackTitle)
                                         iconMappings e)))
                 synonyms)).
Proof.
  intros Hl. unfold suggestMatchesIn, slice0.
  destruct (Z.ltb_spec limit 0); [lia|].
  rewrite length_take, (Permutation_length (sortByRelevance_perm _)).
  f_equal. generalize (suggestionOf (extractKeywords trackTitle) iconMappings).
  intros f. induction synonyms as [|e l IH]; [reflexivity|].
  cbn [omap list_omap List.filter]. fold (omap f l).
  destruct (f e) as [s|].
  - rewrite bool_decide_eq_true_2 by eauto. simpl. f_equal. exact IH.
  - rewrite bool_decide_eq_false_2 by (intros [? ?]; discriminate). exact IH.
Qed.

Lemma suggestMatches_count_witness :
  length (suggestMatchesIn rankingTable ∅ dogs 2) = 2%nat
  /\ length (suggestMatchesIn rankingTable ∅ dogs 7) = 3%nat.
Proof.
  split.
  - rewrite (suggestMatches_count rankingTable ∅ dogs 2) by lia.
    vm_compute. reflexivity.
  - rewrite (suggestMatches_count rankingTable ∅ dogs 7) by lia.
    vm_compute. reflexivity.
Defined.

Lemma suggested_keys (terms : list jsstring)
    (iconMappings : gmap (list N) (list N)) (synonyms : YotoSynonyms) (k : jsstring) :
  In k (map suggested (omap (suggestionOf terms iconMappings) synonyms)) ->
  In k (keysOf synonyms).
Proof.
  intros H. apply in_map_iff in H as (s & <- & Hs).
  apply In_omap in Hs as ([k' synonymList] & Hin & Hs).
  apply suggestionOf_Some in Hs as (-> & _).
  unfold keysOf. apply (in_map fst _ _ Hin).
Qed.

(** No keyword is suggested twice. *)
Theorem suggestMatches_no_duplicate (synonyms : YotoSynonyms)
    (iconMappings : gmap (list N) (list N)) (trackTitle : jsstring) (limit : Z) :
  List.NoDup (keysOf synonyms) ->
  List.NoDup (map suggested
                (suggestMatchesIn synonyms iconMappings trackTitle limit)).
Proof.
  intros Hnd. unfold suggestMatchesIn.
  set (terms := extractKeywords trackTitle).
  assert (Hp : List.NoDup (map suggested (omap (suggestionOf terms iconMappings) synonyms))).
  { induction synonyms as [|[k synonymList] l IH]; [constructor|].
    cbn [omap list_omap]. fold (omap (suggestionOf terms iconMappings) l).
    inversion Hnd as [|? ? Hk Hl]; subst.
    destruct (suggestionOf terms iconMappings (k, synonymList)) as [s|] eqn:Hs;
      [|exact (IH Hl)].
    apply suggestionOf_Some in Hs as (Hs & _).
    cbn [map]. constructor; [|exact (IH Hl)].
    rewrite Hs. intros Hin. apply Hk. exact (suggested_keys _ _ _ _ Hin). }
  assert (Hs : List.NoDup (map suggested
                 (sortByRelevance (omap (suggestionOf terms iconMappings) synonyms)))).
  { eapply Permutation_NoDup; [|exact Hp].
    apply Permutation_map. symmetry. apply sortByRelevance_perm. }
  destruct (slice0_take limit
              (sortByRelevance (omap (suggestionOf terms iconMappings) synonyms)))
    as [n ->].
  rewrite <- (take_drop n (sortByRelevance _)), map_app in Hs.
  exact (NoDup_app_remove_r _ _ Hs).
Qed.

Lemma suggestMatches_no_duplicate_witness :
  List.NoDup (map suggested (suggestMatchesIn rankingTable ∅ dogs 3)).
Proof.
  apply suggestMatches_no_duplicate.
  repeat constructor; simpl; intuition discriminate.
Defined.

(** ** The caches over a run *)

Lemma cached_calls (fs : Files) (c : Caches) (table : YotoSynonyms) :
  synonymsCache c = Some table ->
  (forall language, loadSynonyms fs language c = (table, c))
  /\ (forall language,
        synonymsCache (snd (loadIconMappings fs language c)) = Some table)
  /\ synonymsCache (snd (reloadMappings fs c)) = Some table
  /\ (forall trackTitle language,
        synonymsCache (snd (matchIcon fs trackTitle language c)) = Some table
        /\ fst (matchIcon fs trackTitle language c)
           = matchIconIn table (default ∅ (iconIdsFile fs language)) trackTitle)
  /\ (forall language,
        synonymsCache (snd (getAvailableKeywords fs language c)) = Some table
        /\ fst (getAvailableKeywords fs language c) = keysOf table)
  /\ (forall language,
        synonymsCache (snd (getIconMappingStats fs language c)) = Some table
        /\ fst (getIconMappingStats fs language c)
           = iconMappingStatsIn table (default ∅ (iconIdsFile fs language)))
  /\ (forall trackTitle limit language,
        synonymsCache (snd (suggestMatches fs trackTitle limit language c))
        = Some table
        /\ fst (suggestMatches fs trackTitle limit language c)
           = suggestMatchesIn table (default ∅ (iconIdsFile fs language))
               trackTitle limit).
Proof.
  intros H.
  assert (Hl : forall language, loadSynonyms fs language c = (table, c))
    by (intros language; unfold loadSynonyms; rewrite H; reflexivity).
  split; [exact Hl|]. split; [intros language; exact H|]. split; [exact H|].
  unfold matchIcon, getAvailableKeywords, getIconMappingStats, suggestMatches,
    bind, ret, loadIconMappings.
  repeat split; intros; rewrite Hl; cbn [fst snd synonymsCache]; try exact H;
    reflexivity.
Qed.

(** Once the synonym cache is filled no call changes it, whatever the
    files hold by then and whatever language is asked for, and every call
    works on the cached table. *)
Theorem synonymsCache_write_once (fs : Files) (c : Caches) (table : YotoSynonyms) :
  synonymsCache c = Some table ->
  (forall language, loadSynonyms fs language c = (table, c))
  /\ (forall language,
        synonymsCache (snd (loadIconMappings fs language c)) = Some table)
  /\ synonymsCache (snd (reloadMappings fs c)) = Some table
  /\ (forall trackTitle language,
        synonymsCache (snd (matchIcon fs trackTitle language c)) = Some table
        /\ fst (matchIcon fs trackTitle language c)
           = matchIconIn table (default ∅ (iconIdsFile fs language)) trackTitle)
  /\ (forall language,
        synonymsCache (snd (getAvailableKeywords fs language c)) = Some table
        /\ fst (getAvailableKeywords fs language c) = keysOf table)
  /\ (forall language,
        synonymsCache (snd (getIconMappingStats fs language c)) = Some table
        /\ fst (getIconMappingStats fs language c)
           = iconMappingStatsIn table (default ∅ (iconIdsFile fs language)))
  /\ (forall trackTitle limit language,
        synonymsCache (snd (suggestMatches fs trackTitle limit language c))
        = Some table
        /\ fst (suggestMatches fs trackTitle limit language c)
           = suggestMatchesIn table (default ∅ (iconIdsFile fs language))
               trackTitle limit).
Proof.
  intros H.
  assert (Hl : forall language, loadSynonyms fs language c = (table, c))
    by (intros language; unfold loadSynonyms; rewrite H; reflexivity).
  split; [exact Hl|]. split; [intros language; exact H|]. split; [exact H|].
  unfold matchIcon, getAvailableKeywords, getIconMappingStats, suggestMatches,
    bind, ret, loadIconMappings.
  repeat split; intros; rewrite Hl; cbn [fst snd synonymsCache]; try exact H;
    reflexivity.
Qed.

Lemma synonymsCache_write_once_witness :
  fst (matchIcon twoLanguages puppy hebrew
         (snd (matchIcon twoLanguages dog english initialCaches)))
  = matchIconIn [(dog, [puppy])] ∅ puppy.
Proof.
  apply (synonymsCache_write_once twoLanguages
           (snd (matchIcon twoLanguages dog english initialCaches))
           [(dog, [puppy])]).
  reflexivity.
Defined.

Lemma findBestKeywordMatch_no_table (terms : list jsstring) :
  findBestKeywordMatch terms [] = None.
Proof. reflexivity. Qed.

(** A synonym file that cannot be read leaves the empty table in the cache
    for good: from then on every title gets no keyword, the statistics
    count no keyword and nothing is suggested, even when a later call
    could read the file. *)
Theorem failed_load_is_cached (fs : Files) (language : Language) :
  synonymsFile fs language = None ->
  forall (fs' : Files) (language' : Language) (trackTitle : jsstring) (limit : Z),
    fst (loadSynonyms fs' language'
           (snd (loadSynonyms fs language initialCaches))) = []
    /\ keyword (fst (matchIcon fs' trackTitle language'
                       (snd (loadSynonyms fs language initialCaches)))) = None
    /\ confidence (fst (matchIcon fs' trackTitle language'
                          (snd (loadSynonyms fs language initialCaches)))) = none
    /\ totalKeywords (fst (getIconMappingStats fs' language'
                             (snd (loadSynonyms fs language initialCaches)))) = 0%nat
    /\ fst (suggestMatches fs' trackTitle limit language'
              (snd (loadSynonyms fs language initialCaches))) = [].
Proof.
  intros H fs' language' trackTitle limit.
  assert (Hc : synonymsCache (snd (loadSynonyms fs language initialCaches)) = Some [])
    by (unfold loadSynonyms; simpl; rewrite H; reflexivity).
  destruct (cached_calls fs' _ _ Hc)
    as (H1 & _ & _ & H2 & _ & H3 & H4).
  rewrite H1. destruct (H2 trackTitle language') as [_ ->].
  destruct (H3 language') as [_ ->].
  destruct (H4 trackTitle limit language') as [_ ->].
  split; [reflexivity|]. split; [reflexivity|]. split; [reflexivity|].
  split; [reflexivity|].
  unfold suggestMatchesIn. cbn [omap list_omap]. apply slice0_nil.
Qed.

Lemma failed_load_is_cached_witness :
  confidence (fst (matchIcon twoLanguages dog english
                     (snd (loadSynonyms noSynonymFiles english initialCaches))))
  = none.
Proof.
  apply (failed_load_is_cached noSynonymFiles english eq_refl
           twoLanguages english dog 3).
Defined.

(** ** Matches and statistics *)

(** A keyword is matched without an icon exactly when the statistics list
    it as unmapped. *)
Theorem unmapped_iff_no_icon (synonyms : YotoSynonyms)
    (iconMappings : gmap (list N) (list N)) (trackTitle k : jsstring) :
  keyword (matchIconIn synonyms iconMappings trackTitle) = Some k ->
  iconId (matchIconIn synonyms iconMappings trackTitle) = None
  <-> In k (unmappedKeywords (iconMappingStatsIn synonyms iconMappings)).
Proof.
  intros Hk. unfold matchIconIn in *.
  destruct (truthy (findBestKeywordMatch _ synonyms)) as [k'|] eqn:E;
    cbn [keyword iconId] in *; [|discriminate].
  injection Hk as ->. apply truthy_Some in E as [E _].
  pose proof (findBestKeywordMatch_key _ _ _ E) as Hin.
  unfold iconMappingStatsIn. cbn [unmappedKeywords]. rewrite filter_In.
  unfold isFalsy. destruct (orNull (readProperty iconMappings k)); split.
  - discriminate.
  - intros [_ H]. discriminate.
  - intros _. auto.
  - reflexivity.
Qed.

Lemma unmapped_iff_no_icon_witness :
  iconId (matchIconIn dogMoonTable dogIcon [109; 111; 111; 110]) = None
  <-> In moon (unmappedKeywords (iconMappingStatsIn dogMoonTable dogIcon)).
Proof.
  apply unmapped_iff_no_icon. vm_compute. reflexivity.
Defined.

Lemma keys_with_entry (keys : list jsstring) (iconMappings : gmap (list N) (list N)) :
  List.NoDup keys ->
  (forall k, is_Some (iconMappings !! k) -> In k keys) ->
  length (List.filter (fun k => bool_decide (is_Some (iconMappings !! k))) keys)
  = size iconMappings.
Proof.
  intros Hnd Hdom. rewrite <- length_map_to_list, <- (length_fmap fst).
  apply Permutation_length. apply NoDup_Permutation.
  - apply NoDup_ListNoDup. apply List.NoDup_filter. exact Hnd.
  - apply NoDup_fst_map_to_list.
  - intros k. rewrite list_elem_of_In, filter_In, bool_decide_eq_true.
    rewrite list_elem_of_fmap. split.
    + intros [_ [s Hs]]. exists (k, s). split; [reflexivity|].
      apply elem_of_map_to_list. exact Hs.
    + intros ([k' s] & -> & Hs). apply elem_of_map_to_list in Hs. cbn [fst].
      split; [apply Hdom|]; eauto.
Qed.

(** The two counts of the statistics add up to the total when the keys of
    the synonym table are distinct, every entry of the icon mapping is a
    non-empty icon for a key of the synonym table, and no key without an
    entry names a member inherited from [Object.prototype]. *)
Theorem iconMappingStats_add_up (synonyms : YotoSynonyms)
    (iconMappings : gmap (list N) (list N)) :
  List.NoDup (keysOf synonyms) ->
  (forall k s, iconMappings !! k = Some s -> s <> [] /\ In k (keysOf synonyms)) ->
  (forall k, In k (keysOf synonyms) -> iconMappings !! k = None ->
             isInherited k = false) ->
  let stats := iconMappingStatsIn synonyms iconMappings in
  (mappedKeywords stats + length (unmappedKeywords stats)
   = totalKeywords stats)%nat.
Proof.
  intros Hnd Hmap Hown. unfold iconMappingStatsIn.
  cbn [totalKeywords mappedKeywords unmappedKeywords].
  rewrite <- (keys_with_entry (keysOf synonyms) iconMappings Hnd)
    by (intros k [s Hs]; exact (proj2 (Hmap k s Hs))).
  transitivity
    (length (List.filter (fun k => bool_decide (is_Some (iconMappings !! k)))
                         (keysOf synonyms))
     + length (List.filter
                 (fun k => negb (bool_decide (is_Some (iconMappings !! k))))
                 (keysOf synonyms)))%nat;
    [|apply List.filter_length].
  f_equal. f_equal. apply filter_ext_in. intros k Hk.
  destruct (iconMappings !! k) as [s|] eqn:E.
  - rewrite bool_decide_eq_true_2 by eauto. cbn [negb].
    destruct (isFalsy (readProperty iconMappings k)) eqn:F; [|reflexivity].
    apply isFalsy_readProperty in F as [[F _]|F]; [congruence|].
    rewrite E in F. injection F as ->. destruct (Hmap k [] E) as [H _].
    contradiction.
  - rewrite bool_decide_eq_false_2 by (intros [? ?]; discriminate). cbn [negb].
    apply isFalsy_readProperty. left. auto.
Qed.

Lemma iconMappingStats_add_up_witness :
  (mappedKeywords (iconMappingStatsIn dogMoonTable dogIcon)
   + length (unmappedKeywords (iconMappingStatsIn dogMoonTable dogIcon))
   = totalKeywords (iconMappingStatsIn dogMoonTable dogIcon))%nat.
Proof.
  apply (iconMappingStats_add_up dogMoonTable dogIcon).
  - repeat constructor; simpl; intuition discriminate.
  - intros k s H. unfold dogIcon in H.
    apply lookup_singleton_Some in H as [<- <-].
    split; [discriminate | left; reflexivity].
  - intros k [<-|[<-|[]]] _; vm_compute; reflexivity.
Defined.
(** * The playlist client *)

Lemma truthy_nonempty (x : option jsstring) (v : jsstring) :
  truthy x = Some v -> v <> [].
Proof. intros H. exact (proj2 (truthy_Some x v H)). Qed.

Lemma default_truthy_nonempty (d : jsstring) (x : option jsstring) :
  d <> [] -> default d (truthy x) <> [].
Proof.
  intros Hd. destruct (truthy x) as [v|] eqn:E; simpl; [|exact Hd].
  exact (truthy_nonempty x v E).
Qed.

Lemma default_truthy_cases (d : jsstring) (x : option jsstring) :
  ((x = None \/ x = Some []) -> default d (truthy x) = d)
  /\ (forall t, x = Some t -> t <> [] -> default d (truthy x) = t).
Proof.
  destruct x as [[|c s]|]; cbn; split.
  - reflexivity.
  - intros t [= <-] H. contradiction.
  - intros [H|H]; discriminate.
  - intros t [= <-] _. reflexivity.
  - reflexivity.
  - intros t [=].
Qed.

(** No track of a playlist has the empty title, and the playlist has a
    title.  A track comes from a track of a chapter of the card, whose
    title it has, or the title Untitled Track when that one is missing or
    empty; or it comes from a chapter without a list of tracks and has the
    title of the chapter.  Every track of a chapter of the card is in the
    playlist.  The playlist has the title of the card, or the title
    Untitled Playlist when that one is missing or empty. *)
Theorem getPlaylist_titles (card : option Yoto.Card) (cardIdAsked : jsstring) :
  let playlist := Yoto.getPlaylist card cardIdAsked in
  let cardChapters := default [] (card ≫= Yoto.chapters) in
  (forall track, In track (Yoto.tracks playlist) ->
     Yoto.title track <> []
     /\ exists chapter, In chapter cardChapters
        /\ ((exists chapterTracks cardTrack,
               Yoto.chTracks chapter = Some chapterTracks
               /\ In cardTrack chapterTracks
               /\ track = trackOf chapter cardTrack
               /\ ((Yoto.ctTitle cardTrack = None
                    \/ Yoto.ctTitle cardTrack = Some []) ->
                   Yoto.title track = Lit.untitledTrack)
               /\ (forall t, Yoto.ctTitle cardTrack = Some t -> t <> [] ->
                             Yoto.title track = t))
            \/ (Yoto.chTracks chapter = None
                /\ Yoto.chTitle chapter = Some (Yoto.title track))))
  /\ (forall chapter chapterTracks cardTrack,
        In chapter cardChapters ->
        Yoto.chTracks chapter = Some chapterTracks ->
        In cardTrack chapterTracks ->
        In (trackOf chapter cardTrack) (Yoto.tracks playlist))
  /\ ((card ≫= Yoto.cardTitle = None \/ card ≫= Yoto.cardTitle = Some []) ->
      Yoto.playlistTitle playlist = Lit.untitledPlaylist)
  /\ (forall t, card ≫= Yoto.cardTitle = Some t -> t <> [] ->
                Yoto.playlistTitle playlist = t)
  /\ Yoto.playlistTitle playlist <> []
  /\ (cardIdAsked <> [] -> Yoto.playlistId playlist <> []).
Proof.
  unfold Yoto.getPlaylist. cbn [Yoto.tracks Yoto.playlistTitle Yoto.playlistId].
  split; [|split; [|split; [|split; [|split]]]].
  - intros track Hin. apply in_flat_map in Hin as (chapter & Hch & Hin).
    unfold Yoto.tracksOfChapter in Hin.
    destruct (Yoto.chTracks chapter) as [chapterTracks|] eqn:Et.
    + apply in_map_iff in Hin as (t & <- & Ht). cbn [Yoto.title].
      split; [apply default_truthy_nonempty; discriminate|].
      exists chapter. split; [exact Hch|]. left. exists chapterTracks, t.
      split; [exact Et|]. split; [exact Ht|]. split; [reflexivity|].
      apply default_truthy_cases.
    + destruct (truthy (Yoto.chTitle chapter)) as [v|] eqn:E; [|destruct Hin].
      destruct Hin as [<-|[]]. cbn [Yoto.title].
      split; [exact (truthy_nonempty _ _ E)|].
      exists chapter. split; [exact Hch|]. right. split; [exact Et|].
      apply truthy_Some in E as [E _]. exact E.
  - intros chapter chapterTracks cardTrack Hch Et Ht.
    apply in_flat_map. exists chapter. split; [exact Hch|].
    unfold Yoto.tracksOfChapter. rewrite Et.
    apply (in_map (fun t => trackOf chapter t)). exact Ht.
  - apply default_truthy_cases.
  - apply default_truthy_cases.
  - apply default_truthy_nonempty. discriminate.
  - intros H. apply default_truthy_nonempty. exact H.
Qed.

(** ** The icon URL *)

Lemma Str_startsWith_app (p s : jsstring) : Str.startsWith (p ++ s) p = true.
Proof. apply Str_startsWith_spec. exists s. reflexivity. Qed.

Lemma replaceFirst_prefix (p s r : jsstring) :
  replaceFirst (p ++ s) p r = r ++ s.
Proof.
  destruct (p ++ s) as [|c l] eqn:E; cbn [replaceFirst]; rewrite <- E;
    rewrite Str_startsWith_app, drop_app_length; reflexivity.
Qed.

(** The URL written for the identifier that plan mode stored for an icon is
    the URL of that icon, the one the vision model was shown; an
    identifier without the prefix is written as it is, and so is a URL
    already written. *)
Theorem mediaUrl_of_stored_icon (iconId : jsstring) :
  Yoto.mediaUrl (Lit.yotoPrefix ++ iconId) = Lit.YOTO_ICON_URL ++ [47] ++ iconId
  /\ (Str.startsWith iconId Lit.yotoPrefix = false -> Yoto.mediaUrl iconId = iconId)
  /\ Yoto.mediaUrl (Yoto.mediaUrl iconId) = Yoto.mediaUrl iconId.
Proof.
  assert (H1 : forall x, Yoto.mediaUrl (Lit.yotoPrefix ++ x)
                         = Lit.YOTO_ICON_URL ++ [47] ++ x).
  { intros x. unfold Yoto.mediaUrl.
    rewrite Str_startsWith_app, replaceFirst_prefix. reflexivity. }
  assert (H2 : forall x, Str.startsWith x Lit.yotoPrefix = false ->
                         Yoto.mediaUrl x = x).
  { intros x H. unfold Yoto.mediaUrl. rewrite H. reflexivity. }
  split; [apply H1|]. split; [apply H2|].
  destruct (Str.startsWith iconId Lit.yotoPrefix) eqn:E.
  - apply Str_startsWith_spec in E as [q ->]. rewrite H1. apply H2.
    reflexivity.
  - rewrite (H2 iconId E). apply H2. exact E.
Qed.

Lemma mediaUrl_of_stored_icon_witness :
  Yoto.mediaUrl [49; 50] = [49; 50].
Proof.
  apply (proj1 (proj2 (mediaUrl_of_stored_icon [49; 50]))). reflexivity.
Defined.

(** ** Updating the card *)

Lemma updateTracks_shape track url chapterTracks :
  map trackShape (Yoto.updateTracks track url chapterTracks)
  = map trackShape chapterTracks.
Proof.
  induction chapterTracks as [|t l IH]; [reflexivity|].
  cbn [Yoto.updateTracks]. destruct (_ || _); cbn [map]; [reflexivity|].
  rewrite IH. reflexivity.
Qed.

Lemma updateChapters_shape track url cardChapters :
  map chapterShape (Yoto.updateChapters track url cardChapters)
  = map chapterShape cardChapters.
Proof.
  induction cardChapters as [|ch l IH]; [reflexivity|].
  cbn [Yoto.updateChapters]. destruct (sameValue _ _); cbn [map].
  - f_equal. unfold chapterShape. cbn [Yoto.chKey Yoto.chTitle Yoto.chTracks].
    f_equal. destruct (Yoto.chTracks ch) as [ts|]; [|reflexivity].
    simpl. rewrite updateTracks_shape. reflexivity.
  - rewrite IH. reflexivity.
Qed.

(** Updates change icons only: the card posted has the chapters and tracks
    of the card fetched, in the same order, with the same keys,
    identifiers and titles. *)
Theorem applyUpdates_keeps_shape (card : Yoto.Card)
    (updates : list (Yoto.YotoTrack * jsstring)) :
  cardShape (Yoto.applyUpdates card updates) = cardShape card.
Proof.
  unfold Yoto.applyUpdates. revert card.
  induction updates as [|u l IH]; intros card; [reflexivity|].
  cbn [fold_left]. rewrite IH. unfold cardShape, Yoto.applyUpdate.
  cbn [Yoto.cardId Yoto.cardTitle Yoto.chapters]. f_equal.
  destruct (Yoto.chapters card) as [chs|]; [|reflexivity].
  simpl. rewrite updateChapters_shape. reflexivity.
Qed.

(** An update whose chapter key is the key of no chapter changes nothing. *)
Lemma updateChapters_no_chapter track url cardChapters :
  (forall ch, In ch cardChapters ->
     sameValue (Yoto.chKey ch) (Yoto.chapterKey track) = false) ->
  Yoto.updateChapters track url cardChapters = cardChapters.
Proof.
  induction cardChapters as [|ch l IH]; intros H; [reflexivity|].
  cbn [Yoto.updateChapters]. rewrite (H ch) by (left; reflexivity).
  f_equal. apply IH. intros x Hx. apply H. right. exact Hx.
Qed.

Lemma stringUpdates_withStrings (updates : list (Yoto.YotoTrack * jsstring)) :
  Yoto.stringUpdates (Yoto.withStrings updates) = Some updates.
Proof.
  induction updates as [|[track iconId] l IH]; [reflexivity|].
  cbn [Yoto.withStrings map fst snd Yoto.stringUpdates].
  fold (Yoto.withStrings l). rewrite IH. reflexivity.
Qed.

Lemma length_withStrings (updates : list (Yoto.YotoTrack * jsstring)) :
  length (Yoto.withStrings updates) = length updates.
Proof. apply length_map. Qed.

(** A chapter that is its own track never gets its icon: when no chapter
    of the card lacks its key, the updates for such tracks leave the card
    as it was fetched, and they are counted as successes when the card is
    posted. *)
Theorem chapter_track_not_updated (card : Yoto.Card) (post : Yoto.Card -> bool)
    (updates : list (Yoto.YotoTrack * jsstring)) :
  (forall chs ch, Yoto.chapters card = Some chs -> In ch chs ->
     Yoto.chKey ch <> undefined) ->
  (forall u, In u updates ->
     exists ch, Yoto.chTracks ch = None /\ In (fst u) (Yoto.tracksOfChapter ch)) ->
  Yoto.applyUpdates card updates = card
  /\ (post card = true ->
      Yoto.updateCardWithIcons (Some card) post (Yoto.withStrings updates) false
      = (Yoto.mkUpdateCount (length updates) 0, Some card)).
Proof.
  intros Hkeys Hupd.
  assert (E : Yoto.applyUpdates card updates = card).
  { unfold Yoto.applyUpdates. induction updates as [|u l IH]; [reflexivity|].
    cbn [fold_left].
    assert (Hu : Yoto.applyUpdate card u = card).
    { destruct (Hupd u (or_introl eq_refl)) as (ch & Hnone & Hin).
      unfold Yoto.tracksOfChapter in Hin. rewrite Hnone in Hin.
      destruct (truthy (Yoto.chTitle ch)); [|destruct Hin].
      destruct Hin as [Hin|[]].
      unfold Yoto.applyUpdate. destruct card as [i t [chs|]]; [|reflexivity].
      cbn [Yoto.cardId Yoto.cardTitle Yoto.chapters]. simpl. f_equal. f_equal.
      apply updateChapters_no_chapter. intros x Hx. rewrite <- Hin.
      cbn [Yoto.chapterKey].
      destruct (Yoto.chKey x) eqn:Ek; try reflexivity.
      exfalso. exact (Hkeys chs x eq_refl Hx Ek). }
    rewrite Hu. apply IH. intros x Hx. apply Hupd. right. exact Hx. }
  split; [exact E|]. intros Hp. unfold Yoto.updateCardWithIcons.
  rewrite stringUpdates_withStrings, length_withStrings, E, Hp. reflexivity.
Qed.

Lemma chapter_track_not_updated_witness :
  Yoto.applyUpdates sampleCard
    [(Yoto.mkYotoTrack (str [48; 51]) moon Yoto.noDisplay undefined undefined,
      [121])]
  = sampleCard.
Proof.
  apply (chapter_track_not_updated sampleCard (fun _ => true)).
  - intros chs ch [= <-] [<-|[<-|[]]]; discriminate.
  - intros u [<-|[]].
    exists (Yoto.mkChapter (str [48; 51]) (Some moon) None None).
    split; [reflexivity | left; reflexivity].
Defined.

Lemma stringUpdates_None (updates : list (Yoto.YotoTrack * IconValue)) :
  Yoto.stringUpdates updates = None
  <-> exists track name, In (track, inherited name) updates.
Proof.
  induction updates as [|[track [iconId|name]] l IH]; cbn [Yoto.stringUpdates].
  - split; [discriminate | intros (? & ? & [])].
  - destruct (Yoto.stringUpdates l) as [others|].
    + split; [discriminate|]. intros (tr & n & [[=]|Hin]).
      exfalso. assert (H : Some others = None) by (apply IH; eauto).
      discriminate.
    + split; [|reflexivity]. intros _.
      destruct (proj1 IH eq_refl) as (tr & n & Hin). exists tr, n. right. exact Hin.
  - split; [|reflexivity]. intros _. exists track, name. left. reflexivity.
Qed.

(** The counts are all or nothing and add up to the number of updates.  A
    dry run posts nothing and counts every update as a success.  Otherwise
    the card posted is the card fetched with all the updates applied;
    nothing is posted exactly when the card could not be fetched or the
    icon identifier of some update is no string; and the updates are
    counted as successes exactly when the card was posted and the post
    went through, or there is no update at all. *)
Theorem updateCardWithIcons_counts (fetched : option Yoto.Card)
    (post : Yoto.Card -> bool) (updates : list (Yoto.YotoTrack * IconValue))
    (dryRun : bool) :
  let result := Yoto.updateCardWithIcons fetched post updates dryRun in
  let count := fst result in
  (Yoto.success count + Yoto.failed count = length updates)%nat
  /\ (Yoto.success count = 0%nat \/ Yoto.failed count = 0%nat)
  /\ (dryRun = true -> result = (Yoto.mkUpdateCount (length updates) 0, None))
  /\ (dryRun = false ->
      (forall card changes,
         fetched = Some card -> Yoto.stringUpdates updates = Some changes ->
         snd result = Some (Yoto.applyUpdates card changes))
      /\ (snd result = None
          <-> fetched = None
              \/ exists track name, In (track, inherited name) updates)
      /\ (Yoto.success count = length updates
          <-> updates = []
              \/ exists posted, snd result = Some posted /\ post posted = true)
      /\ (Yoto.failed count = length updates
          <-> updates = [] \/ snd result = None
              \/ exists posted, snd result = Some posted /\ post posted = false)).
Proof.
  unfold Yoto.updateCardWithIcons.
  destruct dryRun; [cbn; repeat split; auto; discriminate|].
  pose proof (stringUpdates_None updates) as Hnone.
  assert (Hlen : length updates = 0%nat -> updates = [])
    by (destruct updates; [reflexivity | discriminate]).
  destruct fetched as [card|].
  - destruct (Yoto.stringUpdates updates) as [changes|].
    + destruct (post (Yoto.applyUpdates card changes)) eqn:Hp;
        cbn [fst snd Yoto.success Yoto.failed].
      * split; [lia|]. split; [auto|]. split; [discriminate|]. intros _.
        split; [intros c ch [= <-] [= <-]; reflexivity|].
        split; [split; [discriminate|]|].
        { intros [H|H]; [discriminate|]. apply Hnone in H. discriminate. }
        split; [split; [eauto | reflexivity]|].
        split.
        -- intros H. left. apply Hlen. lia.
        -- intros [->|[H|(posted & [= <-] & H)]];
             [reflexivity | discriminate | congruence].
      * split; [lia|]. split; [auto|]. split; [discriminate|]. intros _.
        split; [intros c ch [= <-] [= <-]; reflexivity|].
        split; [split; [discriminate|]|].
        { intros [H|H]; [discriminate|]. apply Hnone in H. discriminate. }
        split.
        -- split.
           ++ intros H. left. apply Hlen. lia.
           ++ intros [->|(posted & [= <-] & H)]; [reflexivity | congruence].
        -- split; [eauto | reflexivity].
    + cbn [fst snd Yoto.success Yoto.failed].
      split; [lia|]. split; [auto|]. split; [discriminate|]. intros _.
      split; [intros c ch _ [=]|].
      split; [split; [|reflexivity]; intros _; right; apply Hnone; reflexivity|].
      split.
      * split.
        -- intros H. left. apply Hlen. lia.
        -- intros [->|(posted & [=] & _)]. reflexivity.
      * split; [auto | reflexivity].
  - cbn [fst snd Yoto.success Yoto.failed].
    split; [lia|]. split; [auto|]. split; [discriminate|]. intros _.
    split; [intros c ch [=]|].
    split; [split; [auto | reflexivity]|].
    split.
    + split.
      * intros H. left. apply Hlen. lia.
      * intros [->|(posted & [=] & _)]. reflexivity.
    + split; [auto | reflexivity].
Qed.

Lemma sameValue_refl (a : JsString) : sameValue a a = true.
Proof. destruct a; simpl; try reflexivity. apply Str_eqb_refl. Qed.

Lemma updateTracks_first track url before cardTrack after :
  (forall x, In x before ->
     sameValue (Yoto.ctKey x) (Yoto.trackKey track) = false
     /\ sameValue (Yoto.ctKey x) (Yoto.trackId track) = false) ->
  sameValue (Yoto.ctKey cardTrack) (Yoto.trackKey track) = true ->
  Yoto.updateTracks track url (before ++ cardTrack :: after)
  = before ++ Yoto.setTrackIcon url cardTrack :: after.
Proof.
  intros Hb Hc. induction before as [|x l IH]; cbn [app Yoto.updateTracks].
  - rewrite Hc. reflexivity.
  - destruct (Hb x (or_introl eq_refl)) as [-> ->]. cbn [orb].
    f_equal. apply IH. intros y Hy. apply Hb. right. exact Hy.
Qed.

(** The update made for a track that [getPlaylist] took from a chapter of
    the card writes the icon on that chapter and on that track, and on
    nothing else, when no chapter before it has its key and no track
    before it in the chapter has its key or its identifier. *)
Theorem update_reaches_track (url : jsstring)
    (before after : list Yoto.Chapter) (chapter : Yoto.Chapter)
    (tracksBefore tracksAfter : list Yoto.CardTrack) (cardTrack : Yoto.CardTrack) :
  Yoto.chTracks chapter = Some (tracksBefore ++ cardTrack :: tracksAfter) ->
  (forall x, In x before ->
     sameValue (Yoto.chKey x) (Yoto.chKey chapter) = false) ->
  (forall x, In x tracksBefore ->
     sameValue (Yoto.ctKey x) (Yoto.ctKey cardTrack) = false
     /\ sameValue (Yoto.ctKey x)
          (keyOrElse (Yoto.ctKey cardTrack) (Yoto.ctId cardTrack)) = false) ->
  In (trackOf chapter cardTrack) (Yoto.tracksOfChapter chapter)
  /\ Yoto.updateChapters (trackOf chapter cardTrack) url
       (before ++ chapter :: after)
     = before
       ++ Yoto.mkChapter (Yoto.chKey chapter) (Yoto.chTitle chapter)
            (Some (Yoto.mkDisplay (Some url)))
            (Some (tracksBefore ++ Yoto.setTrackIcon url cardTrack :: tracksAfter))
       :: after.
Proof.
  intros Ht Hb Htb. split.
  - unfold Yoto.tracksOfChapter. rewrite Ht.
    apply (in_map (fun t => trackOf chapter t)).
    apply in_or_app. right. left. reflexivity.
  - induction before as [|x l IH]; cbn [app Yoto.updateChapters].
    + cbn [trackOf Yoto.chapterKey]. rewrite sameValue_refl, Ht. simpl fmap.
      rewrite updateTracks_first; [reflexivity | exact Htb |].
      apply sameValue_refl.
    + cbn [trackOf Yoto.chapterKey] in *.
      rewrite (Hb x) by (left; reflexivity). f_equal.
      apply IH. intros y Hy. apply Hb. right. exact Hy.
Qed.

Lemma update_reaches_track_witness :
  Yoto.updateChapters
    (trackOf (Yoto.mkChapter (str [48; 48]) (Some [65]) None
                (Some [Yoto.mkCardTrack (str [48; 49]) undefined (Some dog) None;
                       Yoto.mkCardTrack (str [48; 50]) undefined None None]))
             (Yoto.mkCardTrack (str [48; 50]) undefined None None))
    [121]
    (default [] (Yoto.chapters sampleCard))
  = [Yoto.mkChapter (str [48; 48]) (Some [65])
       (Some (Yoto.mkDisplay (Some [121])))
       (Some [Yoto.mkCardTrack (str [48; 49]) undefined (Some dog) None;
              Yoto.mkCardTrack (str [48; 50]) undefined None
                (Some (Yoto.mkDisplay (Some [121])))]);
     Yoto.mkChapter (str [48; 51]) (Some moon) None None].
Proof.
  refine (proj2 (update_reaches_track [121] []
                   [Yoto.mkChapter (str [48; 51]) (Some moon) None None]
                   _ [Yoto.mkCardTrack (str [48; 49]) undefined (Some dog) None] []
                   (Yoto.mkCardTrack (str [48; 50]) undefined None None) _ _ _)).
  - reflexivity.
  - intros x [].
  - intros x [<-|[]]. split; reflexivity.
Defined.
(** * Apply mode *)

Lemma matchIcon_cached fs trackTitle language c table :
  synonymsCache c = Some table ->
  fst (matchIcon fs trackTitle language c)
  = matchIconIn table (default ∅ (iconIdsFile fs language)) trackTitle
  /\ synonymsCache (snd (matchIcon fs trackTitle language c)) = Some table.
Proof.
  intros H. destruct (cached_calls fs c table H) as (_ & _ & _ & Hm & _).
  destruct (Hm trackTitle language) as [H1 H2]. split; assumption.
Qed.

Lemma suggestMatches_cached fs trackTitle limit language c table :
  synonymsCache c = Some table ->
  synonymsCache (snd (suggestMatches fs trackTitle limit language c)) = Some table.
Proof.
  intros H. destruct (cached_calls fs c table H) as (_ & _ & _ & _ & _ & _ & Hs).
  exact (proj1 (Hs trackTitle limit language)).
Qed.

Lemma analyzeTracks_run fs askModel language useAI table playlistTracks :
  forall matches stats c,
    synonymsCache c = Some table ->
    fst (analyzeTracks fs askModel language useAI
           (default ∅ (iconIdsFile fs language)) (keysOf table)
           playlistTracks matches stats c)
    = (matches ++ map (matchOfTrack fs askModel language useAI table) playlistTracks,
       fold_left countResult
         (map (fun track =>
                 tmConfidence (matchOfTrack fs askModel language useAI table track))
              playlistTracks)
         stats).
Proof.
  induction playlistTracks as [|track rest IH]; intros matches stats c Hc.
  - cbn. rewrite app_nil_r. reflexivity.
  - cbn [analyzeTracks]. unfold bind at 1.
    destruct (matchIcon_cached fs (Yoto.title track) language c table Hc)
      as [Hm Hc1].
    destruct (matchIcon fs (Yoto.title track) language c) as [found c1].
    cbn [fst snd] in Hm, Hc1. subst found.
    fold (matchOfTrack fs askModel language useAI table track).
    unfold bind at 1.
    set (result := matchOfTrack fs askModel language useAI table track).
    assert (Hc2 : synonymsCache
              (snd ((match truthy (tmKeyword result) with
                     | Some _ => ret []
                     | None => suggestMatches fs (Yoto.title track) 3 language
                     end) c1)) = Some table).
    { destruct (truthy (tmKeyword result)); [exact Hc1|].
      apply suggestMatches_cached. exact Hc1. }
    destruct ((match truthy (tmKeyword result) with
               | Some _ => ret []
               | None => suggestMatches fs (Yoto.title track) 3 language
               end) c1) as [ignored c2].
    cbn [snd] in Hc2. rewrite (IH _ _ c2 Hc2).
    cbn [map fold_left]. rewrite <- app_assoc. reflexivity.
Qed.

(** [analyzePlaylist] gives one match per track, in the order of the
    playlist: the result of [matchIcon] on the title, or the answer of the
    model when [matchIcon] finds nothing. *)
Lemma analyzePlaylist_run fs askModel playlist language useAI c :
  fst (analyzePlaylist fs askModel playlist language useAI c)
  = (map (matchOfTrack fs askModel language useAI (fst (loadSynonyms fs language c)))
         (Yoto.tracks playlist),
     fold_left countResult
       (map (fun track =>
               tmConfidence (matchOfTrack fs askModel language useAI
                               (fst (loadSynonyms fs language c)) track))
            (Yoto.tracks playlist))
       (mkPlaylistStats 0 0 0 0 0)).
Proof.
  unfold analyzePlaylist, bind, loadIconMappings, getAvailableKeywords, bind, ret.
  assert (Hl : exists c1, loadSynonyms fs language
                 (mkCaches (synonymsCache c)
                    (Some (default ∅ (iconIdsFile fs language))))
               = (fst (loadSynonyms fs language c), c1)
               /\ synonymsCache c1 = Some (fst (loadSynonyms fs language c))).
  { unfold loadSynonyms. cbn [synonymsCache iconMappingsCache].
    destruct (synonymsCache c) as [t|] eqn:E; eexists; split; reflexivity. }
  destruct Hl as (c1 & -> & Hc1).
  rewrite (analyzeTracks_run _ _ _ _ _ _ [] _ c1 Hc1). reflexivity.
Qed.

Lemma fold_countResult (tiers : list ApplyConfidence) (stats : PlaylistStats) :
  let count tier := length (List.filter (fun t => sameTier t tier) tiers) in
  fold_left countResult tiers stats
  = mkPlaylistStats (stTotal stats + length tiers)
                    (stExact stats + count viaExact)
                    (stPartial stats + count viaPartial)
                    (stAi stats + count viaAi)
                    (stNone stats + count viaNone).
Proof.
  revert stats; induction tiers as [|t l IH]; intros [a b c d e]; cbn zeta.
  - cbn. f_equal; lia.
  - cbn [fold_left]. rewrite IH. cbn zeta.
    destruct t; cbn [countResult stTotal stExact stPartial stAi stNone
                      List.filter sameTier length]; f_equal; lia.
Qed.

Lemma tierCount_map (tier : ApplyConfidence) (matches : list TrackMatch) :
  tierCount tier matches
  = length (List.filter (fun t => sameTier t tier) (map tmConfidence matches)).
Proof.
  unfold tierCount. induction matches as [|m l IH]; [reflexivity|].
  cbn [map List.filter]. destruct (sameTier (tmConfidence m) tier); simpl;
    rewrite IH; reflexivity.
Qed.

Lemma tiers_partition (tiers : list ApplyConfidence) :
  (length (List.filter (fun t => sameTier t viaExact) tiers)
   + length (List.filter (fun t => sameTier t viaPartial) tiers)
   + length (List.filter (fun t => sameTier t viaAi) tiers)
   + length (List.filter (fun t => sameTier t viaNone) tiers)
   = length tiers)%nat.
Proof.
  induction tiers as [|t l IH]; [reflexivity|].
  destruct t; cbn [List.filter sameTier length]; lia.
Qed.

(** The statistics of a playlist count every track once: the total is the
    number of tracks, each tier counts the matches of that tier, the four
    tiers add up to the total, and the assignable tracks are those not
    counted as [none]. *)
Theorem analyzePlaylist_stats fs askModel playlist language useAI c :
  let matches := fst (fst (analyzePlaylist fs askModel playlist language useAI c)) in
  let stats := snd (fst (analyzePlaylist fs askModel playlist language useAI c)) in
  map tmTrack matches = Yoto.tracks playlist
  /\ stTotal stats = length (Yoto.tracks playlist)
  /\ stExact stats = tierCount viaExact matches
  /\ stPartial stats = tierCount viaPartial matches
  /\ stAi stats = tierCount viaAi matches
  /\ stNone stats = tierCount viaNone matches
  /\ (stExact stats + stPartial stats + stAi stats + stNone stats
      = stTotal stats)%nat
  /\ (assignable stats + stNone stats = stTotal stats)%nat.
Proof.
  rewrite analyzePlaylist_run. cbn [fst snd].
  set (table := fst (loadSynonyms fs language c)).
  rewrite fold_countResult. cbn zeta.
  cbn [stTotal stExact stPartial stAi stNone Nat.add].
  rewrite !tierCount_map, !map_map, length_map.
  pose proof (tiers_partition
                (map (fun track =>
                        tmConfidence (matchOfTrack fs askModel language useAI table track))
                     (Yoto.tracks playlist))) as Hp.
  rewrite length_map in Hp. unfold assignable.
  cbn [stTotal stExact stPartial stAi stNone Nat.add].
  repeat split; try reflexivity; try lia.
  transitivity (map (fun track => track) (Yoto.tracks playlist));
    [apply map_ext | apply map_id].
  intros track. unfold matchOfTrack, analyzeTrack.
  destruct (confidence _); try reflexivity.
  destruct (_ && _); [|reflexivity].
  destruct (truthy (fst _)); [|reflexivity].
  destruct (orNull (readProperty _ _)); reflexivity.
Qed.

Lemma aiMatchKeyword_Some reply availableKeywords kw :
  fst (aiMatchKeyword reply availableKeywords) = Some kw ->
  reply = Some kw /\ kw <> [] /\ kw <> Lit.noneWord /\ In kw availableKeywords
  /\ snd (aiMatchKeyword reply availableKeywords) = 75%nat.
Proof.
  unfold aiMatchKeyword. destruct reply as [result|]; [|discriminate].
  destruct (Str.eqb result []) eqn:E1; [discriminate|].
  destruct (Str.eqb result Lit.noneWord) eqn:E2; [discriminate|].
  cbn [orb]. destruct (Str.mem result availableKeywords) eqn:E3; [|discriminate].
  cbn [fst snd]. intros [= <-]. split; [reflexivity|].
  split; [intros ->; discriminate|].
  split; [intros ->; rewrite Str_eqb_refl in E2; discriminate|].
  split; [apply Str_mem_In; exact E3 | reflexivity].
Qed.

Lemma orNull_readProperty (iconMappings : YotoIconMapping) (k : jsstring)
    (v : IconValue) :
  orNull (readProperty iconMappings k) = Some v <-> iconOf iconMappings k v.
Proof.
  unfold iconOf. split.
  - intros H. apply orNull_Some in H as [H Hne].
    apply readProperty_Some in H as [(s & Hs & ->)|(Hs & Hi & ->)].
    + left. exists s. repeat split; [|exact Hs]. intros ->. contradiction.
    + right. auto.
  - unfold readProperty.
    intros [(s & -> & Hne & ->)|(-> & -> & ->)]; [|reflexivity].
    destruct s; [contradiction | reflexivity].
Qed.

Lemma matchIconIn_icon (synonyms : YotoSynonyms)
    (iconMappings : gmap (list N) (list N)) (trackTitle : jsstring)
    (v : IconValue) :
  iconId (matchIconIn synonyms iconMappings trackTitle) = Some v ->
  exists k, In k (keysOf synonyms) /\ iconOf iconMappings k v.
Proof.
  unfold matchIconIn.
  destruct (truthy (findBestKeywordMatch _ synonyms)) as [k|] eqn:E;
    cbn [iconId]; [|discriminate].
  intros Hv. apply truthy_Some in E as [E _].
  exists k. split; [exact (findBestKeywordMatch_key _ _ _ E)|].
  apply orNull_readProperty. exact Hv.
Qed.

Lemma matchIconIn_none (synonyms : YotoSynonyms)
    (iconMappings : gmap (list N) (list N)) (trackTitle : jsstring) :
  confidence (matchIconIn synonyms iconMappings trackTitle) = none ->
  keyword (matchIconIn synonyms iconMappings trackTitle) = None
  /\ iconId (matchIconIn synonyms iconMappings trackTitle) = None.
Proof.
  unfold matchIconIn. destruct (truthy _); cbn [confidence keyword iconId];
    [|auto]. destruct (Str.mem _ _); discriminate.
Qed.

(** What a match of [matchOfTrack] is: the answer of the model, or the
    result of [matchIcon]. *)
Lemma matchOfTrack_kinds fs askModel language useAI table track :
  let icons := default ∅ (iconIdsFile fs language) in
  let found := matchIconIn table icons (Yoto.title track) in
  let m := matchOfTrack fs askModel language useAI table track in
  tmTrack m = track
  /\ ((tmConfidence m = viaAi /\ useAI = true /\ confidence found = none
       /\ exists kw icon,
            askModel (Yoto.title track) (take 100 (keysOf table)) = Some kw
            /\ tmKeyword m = Some kw /\ kw <> [] /\ In kw (keysOf table)
            /\ tmIconId m = Some icon /\ iconOf icons kw icon
            /\ tmSearchTerms m = [Yoto.title track])
      \/ (tmConfidence m = ofConfidence (confidence found)
          /\ tmKeyword m = keyword found /\ tmIconId m = iconId found
          /\ tmSearchTerms m = searchTerms found)).
Proof.
  cbn zeta. unfold matchOfTrack, analyzeTrack.
  set (icons := default ∅ (iconIdsFile fs language)).
  set (found := matchIconIn table icons (Yoto.title track)).
  destruct (confidence found) eqn:Hc; try (split; [reflexivity | right; rewrite ?Hc; auto]).
  destruct useAI; cbn [andb]; [|split; [reflexivity | right; rewrite ?Hc; auto]].
  destruct (0 <? length (keysOf table))%nat;
    [|split; [reflexivity | right; rewrite ?Hc; auto]].
  destruct (truthy (fst (aiMatchKeyword _ (keysOf table)))) as [kw|] eqn:Ek;
    [|split; [reflexivity | right; rewrite ?Hc; auto]].
  destruct (orNull (readProperty icons kw)) as [icon|] eqn:Ei;
    [|split; [reflexivity | right; rewrite ?Hc; auto]].
  split; [reflexivity|]. left. cbn [tmConfidence tmKeyword tmIconId tmSearchTerms].
  apply truthy_Some in Ek as [Ek _]. apply orNull_readProperty in Ei.
  apply aiMatchKeyword_Some in Ek as (Hr & Hk1 & _ & Hk2 & _).
  repeat split; try reflexivity. exists kw, icon. auto 10.
Qed.

(** A match of the tier of the model is made only when [matchIcon] finds
    nothing and the model is in use; it carries the answer of the model,
    which is a keyword of the table, and the icon that reading the mapping
    gives for it: its non-empty entry, or the inherited member it names
    when the mapping has no entry for it.  Every other match is the result
    of [matchIcon] on the title. *)
Theorem analyzePlaylist_matches fs askModel playlist language useAI c :
  let table := fst (loadSynonyms fs language c) in
  let icons := default ∅ (iconIdsFile fs language) in
  forall m,
    In m (fst (fst (analyzePlaylist fs askModel playlist language useAI c))) ->
    In (tmTrack m) (Yoto.tracks playlist)
    /\ ((tmConfidence m = viaAi /\ useAI = true
         /\ confidence (matchIconIn table icons (Yoto.title (tmTrack m))) = none
         /\ exists kw icon,
              askModel (Yoto.title (tmTrack m)) (take 100 (keysOf table)) = Some kw
              /\ tmKeyword m = Some kw /\ kw <> [] /\ In kw (keysOf table)
              /\ tmIconId m = Some icon /\ iconOf icons kw icon
              /\ tmSearchTerms m = [Yoto.title (tmTrack m)])
        \/ (tmConfidence m
            = ofConfidence (confidence (matchIconIn table icons (Yoto.title (tmTrack m))))
            /\ tmKeyword m = keyword (matchIconIn table icons (Yoto.title (tmTrack m)))
            /\ tmIconId m = iconId (matchIconIn table icons (Yoto.title (tmTrack m)))
            /\ tmSearchTerms m
               = searchTerms (matchIconIn table icons (Yoto.title (tmTrack m))))).
Proof.
  intros table icons m Hm. rewrite analyzePlaylist_run in Hm. cbn [fst] in Hm.
  apply in_map_iff in Hm as (track & <- & Hin).
  destruct (matchOfTrack_kinds fs askModel language useAI table track) as [Ht Hk].
  fold table. rewrite Ht. split; [exact Hin | exact Hk].
Qed.

Lemma omap_length_le {A B : Type} (f : A -> option B) (l : list A) :
  (length (omap f l) <= length l)%nat.
Proof.
  induction l as [|x l IH]; [reflexivity|].
  cbn [omap list_omap]. fold (omap f l). destruct (f x); cbn [length]; lia.
Qed.

(** Every update that apply mode sends is for a track of the playlist and
    carries the icon that reading the icon mapping of the language gives
    for a keyword of the synonym table: the non-empty entry of the
    keyword, or the inherited member it names when the mapping has no
    entry for it.  There are at most as many updates as tracks, and a
    track counted as [none] gets no update. *)
Theorem updates_come_from_mapping fs askModel playlist language useAI c :
  let table := fst (loadSynonyms fs language c) in
  let icons := default ∅ (iconIdsFile fs language) in
  let matches := fst (fst (analyzePlaylist fs askModel playlist language useAI c)) in
  (forall track icon, In (track, icon) (updatesOf matches) ->
     In track (Yoto.tracks playlist)
     /\ (exists kw, In kw (keysOf table) /\ iconOf icons kw icon)
     /\ exists m, In m matches /\ tmTrack m = track /\ tmIconId m = Some icon
                  /\ tmConfidence m <> viaNone)
  /\ (length (updatesOf matches) <= length (Yoto.tracks playlist))%nat.
Proof.
  intros table icons matches. split.
  - intros track icon Hu. unfold updatesOf in Hu.
    apply In_omap in Hu as (m & Hm & Hu).
    unfold applicableMatches in Hm. apply filter_In in Hm as [Hm Hf].
    destruct (tmIconId m) as [i|] eqn:Ei; [|discriminate].
    injection Hu as <- <-.
    assert (Hne : tmConfidence m <> viaNone).
    { intros E. rewrite E in Hf. destruct (orNull (Some i)); discriminate. }
    unfold matches in Hm. rewrite analyzePlaylist_run in Hm. cbn [fst] in Hm.
    pose proof Hm as Hm'.
    apply in_map_iff in Hm' as (track & Et & Hin).
    destruct (matchOfTrack_kinds fs askModel language useAI
                (fst (loadSynonyms fs language c)) track) as [Ht Hk].
    rewrite Et in Ht, Hk. cbn zeta in Hk. fold table icons in Hk.
    split; [rewrite Ht; exact Hin|].
    assert (Hicon : exists kw, In kw (keysOf table) /\ iconOf icons kw i).
    { destruct Hk as [(_ & _ & _ & kw & icon & _ & _ & _ & Hk & Hi & Hl & _)
                     |(_ & _ & Hi & _)].
      - rewrite Ei in Hi. injection Hi as ->. eauto.
      - rewrite Ei in Hi. symmetry in Hi. exact (matchIconIn_icon _ _ _ _ Hi). }
    split; [exact Hicon|].
    exists m. unfold matches. rewrite analyzePlaylist_run. cbn [fst]. auto.
  - unfold updatesOf, applicableMatches, matches.
    rewrite analyzePlaylist_run. cbn [fst].
    etransitivity; [apply omap_length_le|].
    etransitivity; [apply List.filter_length_le|]. rewrite length_map. lia.
Qed.

Example analyzePlaylist_twoTracks :
  map tmConfidence
      (fst (fst (analyzePlaylist dogFiles answersDog twoTracks english true
                   initialCaches)))
  = [viaPartial; viaAi]
  /\ updatesOf (fst (fst (analyzePlaylist dogFiles answersDog twoTracks english
                            true initialCaches)))
     = [(Yoto.mkYotoTrack (str [49]) puppy Yoto.noDisplay undefined undefined,
         stored [121]);
        (Yoto.mkYotoTrack (str [50]) calculusTitle Yoto.noDisplay
                          undefined undefined,
         stored [121])].
Proof. vm_compute. split; reflexivity. Qed.

(** * Generate mode *)

Lemma sanitizeKeyword_units (keyword : jsstring) :
  Forall (fun c => isFileUnit c = true \/ c = 95) (sanitizeKeyword keyword).
Proof.
  unfold sanitizeKeyword. induction keyword as [|c l IH]; cbn [map];
    constructor; [|exact IH].
  destruct (isFileUnit c) eqn:E; auto.
Qed.

(** The name of the file of an icon is [generated_], as many units as the
    keyword has, each a letter, a digit, a Hebrew unit or an underscore,
    and [.png]: it holds no slash, no backslash and no dot but the one of
    the extension, and a keyword made of such units is kept as it is. *)
Theorem iconFileName_safe (keyword : jsstring) :
  exists stem,
    iconFileName keyword = GenLit.generatedPrefix ++ stem ++ GenLit.pngSuffix
    /\ length stem = length keyword
    /\ Forall (fun c => isFileUnit c = true \/ c = 95) stem
    /\ ~ In 47 (iconFileName keyword)
    /\ ~ In 92 (iconFileName keyword)
    /\ ~ In 46 (GenLit.generatedPrefix ++ stem)
    /\ sanitizeKeyword stem = stem.
Proof.
  exists (sanitizeKeyword keyword).
  pose proof (sanitizeKeyword_units keyword) as Hu.
  assert (Hnot : forall d, isFileUnit d = false -> d <> 95 ->
                           ~ In d (sanitizeKeyword keyword)).
  { intros d Hd Hd' Hin. rewrite List.Forall_forall in Hu.
    destruct (Hu d Hin) as [H|H]; congruence. }
  split; [reflexivity|]. split; [apply length_map|]. split; [exact Hu|].
  assert (Hin : forall d, isFileUnit d = false -> d <> 95 ->
                  ~ In d GenLit.generatedPrefix -> ~ In d GenLit.pngSuffix ->
                  ~ In d (iconFileName keyword)).
  { intros d H1 H2 H3 H4 Hin. unfold iconFileName in Hin.
    apply in_app_or in Hin as [Hin|Hin]; [exact (H3 Hin)|].
    apply in_app_or in Hin as [Hin|Hin]; [exact (Hnot d H1 H2 Hin) | exact (H4 Hin)]. }
  split; [apply Hin; try reflexivity; try discriminate; vm_compute; intuition discriminate|].
  split; [apply Hin; try reflexivity; try discriminate; vm_compute; intuition discriminate|].
  split.
  - intros H. apply in_app_or in H as [H|H].
    + vm_compute in H. intuition discriminate.
    + exact (Hnot 46 eq_refl ltac:(discriminate) H).
  - unfold sanitizeKeyword at 1. rewrite <- (map_id (sanitizeKeyword keyword)) at 2.
    apply map_ext_in. intros c Hc. rewrite List.Forall_forall in Hu.
    destruct (Hu c Hc) as [-> | ->]; reflexivity.
Qed.

Lemma fold_generateOne drawn saved keywords g :
  let r := fold_left (generateOne drawn saved) keywords g in
  (successful r + failedCount r
   = successful g + failedCount g + length keywords)%nat
  /\ written r
     = written g
       ++ map iconFileName
            (List.filter (fun k => drawn k && saved (iconFileName k)) keywords)
  /\ (successful r
      = successful g
        + length (List.filter (fun k => drawn k && saved (iconFileName k)) keywords))%nat.
Proof.
  revert g; induction keywords as [|k l IH]; intros g; cbn zeta.
  - cbn. rewrite app_nil_r. repeat split; lia.
  - cbn [fold_left List.filter]. specialize (IH (generateOne drawn saved g k)).
    cbn zeta in IH. destruct IH as (H1 & H2 & H3). rewrite H1, H2, H3.
    unfold generateOne.
    destruct (drawn k); cbn [andb]; [destruct (saved (iconFileName k))|];
      cbn [successful failedCount written map length];
      rewrite <- ?app_assoc; repeat split; try reflexivity; lia.
Qed.

(** Generate mode counts every keyword it works on once, as a success or
    as a failure, and the files written are those of the successes, in
    order.  Without given keywords it works on unmapped keywords only: on
    all of them, or with a positive limit on the first ones up to the
    limit; each is a keyword of the synonym table without a non-empty icon.
    A dry run generates nothing. *)
Theorem generateMissingIcons_counts (drawn saved : jsstring -> bool)
    (given : option (list jsstring)) (limit : option Z) (dryRun : bool)
    (synonyms : YotoSynonyms) (iconMappings : gmap (list N) (list N)) :
  let stats := iconMappingStatsIn synonyms iconMappings in
  let targets := keywordsToGenerate given limit stats in
  let r := generateMissingIcons drawn saved given limit dryRun stats in
  (dryRun = true -> r = mkGeneration 0 0 [])
  /\ (dryRun = false ->
      (successful r + failedCount r = length targets)%nat
      /\ written r
         = map iconFileName
             (List.filter (fun k => drawn k && saved (iconFileName k)) targets))
  /\ (forall ks, given = Some ks -> ks <> [] -> targets = ks)
  /\ (given = None \/ given = Some [] ->
      (exists n, targets = take n (unmappedKeywords stats))
      /\ (forall n, limit = Some n -> (0 < n)%Z ->
            targets = take (Z.to_nat n) (unmappedKeywords stats))
      /\ (limit = None \/ limit = Some 0%Z -> targets = unmappedKeywords stats)
      /\ forall k, In k targets ->
           In k (keysOf synonyms)
           /\ (iconMappings !! k = None \/ iconMappings !! k = Some [])).
Proof.
  intros stats targets r. split; [intros ->; reflexivity|]. split.
  - intros ->. unfold r, generateMissingIcons.
    destruct (fold_generateOne drawn saved targets (mkGeneration 0 0 []))
      as (H1 & H2 & _).
    fold targets. cbn [successful failedCount written app Nat.add] in H1, H2.
    split; assumption.
  - split.
    + intros ks -> Hne. unfold targets, keywordsToGenerate.
      destruct ks; [congruence | reflexivity].
    + intros Hg.
      assert (Ht : targets = match limit with
                             | Some n => if (n =? 0)%Z then unmappedKeywords stats
                                         else slice0 n (unmappedKeywords stats)
                             | None => unmappedKeywords stats
                             end)
        by (unfold targets, keywordsToGenerate; destruct Hg as [-> | ->]; reflexivity).
      assert (Hp : exists n, targets = take n (unmappedKeywords stats)).
      { rewrite Ht. destruct limit as [n|];
          [destruct (n =? 0)%Z|];
          try (exists (length (unmappedKeywords stats)); symmetry; apply take_ge; lia).
        apply slice0_take. }
      split; [exact Hp|]. split; [|split].
      * intros n -> Hn. rewrite Ht. unfold slice0.
        destruct (Z.eqb_spec n 0); [lia|]. destruct (Z.ltb_spec n 0); [lia|].
        reflexivity.
      * intros [-> | ->]; rewrite Ht; reflexivity.
      * intros k Hk. destruct Hp as [n Hp]. rewrite Hp in Hk.
        apply In_take in Hk. unfold stats, iconMappingStatsIn in Hk.
        cbn [unmappedKeywords] in Hk. apply filter_In in Hk as [Hk Hf].
        split; [exact Hk|].
        apply isFalsy_readProperty in Hf as [[Hf _]|Hf]; auto.
Qed.

(** * The earlier matcher *)

Lemma fold_bestStep (heTitle enTitle : jsstring) (yotoIcons : YotoSynonyms) :
  let score e := Legacy.scoreOf heTitle enTitle (snd e) in
  forall best,
    (forall i s, best = Some (i, s) -> (0 < s)%nat) ->
    let bound := match best with Some (_, s) => s | None => 0%nat end in
    (fold_left (Legacy.bestStep heTitle enTitle) yotoIcons best = best
     /\ forall e, In e yotoIcons -> (score e <= bound)%nat)
    \/ exists pre e post,
         yotoIcons = pre ++ e :: post
         /\ fold_left (Legacy.bestStep heTitle enTitle) yotoIcons best
            = Some (fst e, score e)
         /\ (bound < score e)%nat
         /\ (forall x, In x pre -> (score x < score e)%nat)
         /\ (forall x, In x post -> (score x <= score e)%nat).
Proof.
  intros score. induction yotoIcons as [|e rest IH]; intros best Hb bound.
  - left. split; [reflexivity | intros e []].
  - cbn [fold_left].
    assert (Hstep : Legacy.bestStep heTitle enTitle best e
                    = if (bound <? score e)%nat then Some (fst e, score e) else best).
    { unfold Legacy.bestStep. fold (score e). unfold bound.
      destruct best as [[i s]|].
      - pose proof (Hb i s eq_refl).
        destruct (Nat.ltb_spec 0 (score e)), (Nat.ltb_spec s (score e));
          cbn [andb]; try reflexivity; lia.
      - destruct (Nat.ltb_spec 0 (score e)); reflexivity. }
    rewrite Hstep. destruct (Nat.ltb_spec bound (score e)) as [Hlt|Hge].
    + destruct (IH (Some (fst e, score e))) as [[Hf Hall]|(pre & e' & post & -> & Hf & Hlt' & Hpre & Hpost)].
      * intros i s [= <- <-]. lia.
      * right. exists [], e, rest. repeat split; try assumption.
        intros x [].
      * right. exists (e :: pre), e', post. repeat split; try assumption; try lia.
        intros x [<-|Hx]; [exact Hlt' | exact (Hpre x Hx)].
    + destruct (IH best Hb) as [[Hf Hall]|(pre & e' & post & -> & Hf & Hlt' & Hpre & Hpost)].
      * left. split; [exact Hf|]. intros x [<-|Hx]; [exact Hge | exact (Hall x Hx)].
      * right. exists (e :: pre), e', post. repeat split; try assumption.
        intros x [<-|Hx]; [fold bound in Hlt'; lia | exact (Hpre x Hx)].
Qed.

(** The earlier matcher answers default for a title that is missing or
    empty without looking at the table; otherwise it answers the first
    icon whose score is the largest of the table, and default when every
    score is zero. *)
Theorem legacy_first_best (yotoIcons : YotoSynonyms) (title : option jsstring) :
  (truthy title = None ->
     Legacy.matchIcon yotoIcons title
     = Legacy.mkMatch Legacy.defaultIcon Legacy.emptyTitle)
  /\ (forall t, truthy title = Some t ->
        let score e :=
          Legacy.scoreOf (Legacy.normalizeHebrew t) (Legacy.normalizeEnglish t)
                         (snd e) in
        (Legacy.matchIcon yotoIcons title
         = Legacy.mkMatch Legacy.defaultIcon Legacy.noKeywordMatch
         /\ forall e, In e yotoIcons -> score e = 0%nat)
        \/ exists pre e post,
             yotoIcons = pre ++ e :: post
             /\ Legacy.matchIcon yotoIcons title
                = Legacy.mkMatch (fst e) (Legacy.keywordScore (score e))
             /\ (0 < score e)%nat
             /\ (forall x, In x pre -> (score x < score e)%nat)
             /\ (forall x, In x post -> (score x <= score e)%nat)).
Proof.
  split.
  - intros H. unfold Legacy.matchIcon. rewrite H. reflexivity.
  - intros t H score. unfold Legacy.matchIcon. rewrite H.
    destruct (fold_bestStep (Legacy.normalizeHebrew t) (Legacy.normalizeEnglish t)
                yotoIcons None)
      as [[Hf Hall]|(pre & e & post & E & Hf & Hlt & Hpre & Hpost)].
    + intros i s [=].
    + left. rewrite Hf. split; [reflexivity|].
      intros e He. pose proof (Hall e He). unfold score. lia.
    + right. exists pre, e, post. rewrite Hf. auto 10.
Qed.

(** ** The two normalisations of the earlier matcher *)

Lemma isPlain_lower (c : N) : Legacy.isPlain c = true -> lowerUnit c = [c].
Proof.
  intros H. unfold lowerUnit, Legacy.isPlain in *.
  destruct ((65 <=? c) && (c <=? 90)) eqn:E1; [bool_to_prop H; bool_to_prop E1; lia|].
  destruct (c =? 0x212A) eqn:E2; [bool_to_prop H; bool_to_prop E2; lia|].
  destruct (c =? 0x130) eqn:E3; [bool_to_prop H; bool_to_prop E3; lia|].
  reflexivity.
Qed.

Lemma toLowerCase_fixed (P : N -> bool) (s : jsstring) :
  (forall c, P c = true -> lowerUnit c = [c]) ->
  Forall (fun c => P c = true) s -> toLowerCase s = s.
Proof.
  intros HP. induction 1 as [|c l Hc _ IH]; [reflexivity|].
  cbn [toLowerCase flat_map]. rewrite (HP c Hc). fold (toLowerCase l).
  rewrite IH. reflexivity.
Qed.

Lemma replaceRuns_plain (b : bool) (s : jsstring) :
  Forall (fun c => Legacy.isPlain c = true) (Legacy.replaceRuns b s).
Proof.
  revert b; induction s as [|c l IH]; intros b; cbn [Legacy.replaceRuns];
    [constructor|].
  destruct (Legacy.isPlain c) eqn:E; [constructor; [exact E | apply IH]|].
  destruct b; [apply IH | constructor; [reflexivity | apply IH]].
Qed.

Lemma replaceRuns_fixed (s : jsstring) :
  Forall (fun c => Legacy.isPlain c = true) s -> Legacy.replaceRuns false s = s.
Proof.
  induction 1 as [|c l Hc _ IH]; [reflexivity|].
  cbn [Legacy.replaceRuns]. rewrite Hc, IH. reflexivity.
Qed.

Lemma filter_fixed {A : Type} (f : A -> bool) (l : list A) :
  Forall (fun x => f x = true) l -> List.filter f l = l.
Proof.
  induction 1 as [|x l Hx _ IH]; [reflexivity|].
  cbn [List.filter]. rewrite Hx, IH. reflexivity.
Qed.

Lemma filter_Forall {A : Type} (f : A -> bool) (l : list A) :
  Forall (fun x => f x = true) (List.filter f l).
Proof.
  apply List.Forall_forall. intros x Hx. apply filter_In in Hx. tauto.
Qed.

(** Both normalisations of the earlier matcher are idempotent.  The English
    one gives lower-case letters, digits and spaces, the Hebrew one units
    of the Hebrew block without points and spaces; neither result starts
    or ends with a space. *)
Theorem legacy_normalize_idempotent (str : jsstring) :
  Legacy.normalizeEnglish (Legacy.normalizeEnglish str)
  = Legacy.normalizeEnglish str
  /\ Forall (fun c => Legacy.isPlain c = true) (Legacy.normalizeEnglish str)
  /\ Legacy.normalizeHebrew (Legacy.normalizeHebrew str)
     = Legacy.normalizeHebrew str
  /\ Forall (fun c => (isHebrew c || (c =? 32)) && negb (Legacy.isPoint c) = true)
            (Legacy.normalizeHebrew str)
  /\ (forall q, Legacy.normalizeEnglish str <> 32 :: q
                /\ Legacy.normalizeHebrew str <> 32 :: q)
  /\ (forall p, Legacy.normalizeEnglish str <> p ++ [32]
                /\ Legacy.normalizeHebrew str <> p ++ [32]).
Proof.
  assert (He : Forall (fun c => Legacy.isPlain c = true) (Legacy.normalizeEnglish str)).
  { unfold Legacy.normalizeEnglish. apply trim_Forall, replaceRuns_plain. }
  set (keep := fun c => (isHebrew c || (c =? 32)) && negb (Legacy.isPoint c)).
  assert (Hlow : forall c, keep c = true -> lowerUnit c = [c]).
  { intros c H. unfold keep, Legacy.isPoint, isHebrew, lowerUnit in *.
    destruct ((65 <=? c) && (c <=? 90)) eqn:E1; [bool_to_prop H; bool_to_prop E1; lia|].
    destruct (c =? 0x212A) eqn:E2; [bool_to_prop H; bool_to_prop E2; lia|].
    destruct (c =? 0x130) eqn:E3; [bool_to_prop H; bool_to_prop E3; lia|].
    reflexivity. }
  assert (Hf : Forall (fun c => keep c = true)
                 (List.filter (fun c => isHebrew c || (c =? 32))
                    (List.filter (fun c => negb (Legacy.isPoint c)) str))).
  { apply List.Forall_forall. intros c Hc. apply filter_In in Hc as [Hc H1].
    apply filter_In in Hc as [_ H2]. unfold keep. rewrite H1, H2. reflexivity. }
  assert (Hh : Forall (fun c => keep c = true) (Legacy.normalizeHebrew str)).
  { unfold Legacy.normalizeHebrew. apply trim_Forall.
    rewrite (toLowerCase_fixed keep _ Hlow Hf). exact Hf. }
  split; [|split; [exact He|split; [|split; [exact Hh|split]]]].
  - unfold Legacy.normalizeEnglish at 1.
    rewrite (toLowerCase_fixed Legacy.isPlain _ isPlain_lower He),
      (replaceRuns_fixed _ He).
    apply trim_fixed; unfold Legacy.normalizeEnglish; [apply trim_head | apply trim_last].
  - unfold Legacy.normalizeHebrew at 1.
    rewrite (filter_fixed (fun c => negb (Legacy.isPoint c))),
      (filter_fixed (fun c => isHebrew c || (c =? 32))),
      (toLowerCase_fixed keep _ Hlow Hh).
    + apply trim_fixed; unfold Legacy.normalizeHebrew; [apply trim_head | apply trim_last].
    + eapply List.Forall_impl; [|exact Hh]. intros c H. unfold keep in H.
      apply andb_true_iff in H. tauto.
    + eapply List.Forall_impl; [|exact Hh]. intros c H. unfold keep in H.
      apply andb_true_iff in H. tauto.
  - intros q. split; intros E.
    + pose proof (trim_head (Legacy.replaceRuns false (toLowerCase str))) as H.
      fold (Legacy.normalizeEnglish str) in H. rewrite E in H. discriminate.
    + unfold Legacy.normalizeHebrew in E.
      match type of E with trim ?x = _ => pose proof (trim_head x) as H end.
      rewrite E in H. discriminate.
  - intros p. split; intros E.
    + pose proof (trim_last (Legacy.replaceRuns false (toLowerCase str))) as H.
      fold (Legacy.normalizeEnglish str) in H. rewrite E, rev_app_distr in H.
      discriminate.
    + unfold Legacy.normalizeHebrew in E.
      match type of E with trim ?x = _ => pose proof (trim_last x) as H end.
      rewrite E, rev_app_distr in H. discriminate.
Qed.

(** * Plan mode *)

Lemma slice_batch {A : Type} (l : list A) (i : nat) (batchSize : Z) :
  (i < length l)%nat -> (0 < batchSize)%Z ->
  slice (Z.of_nat i) (Z.min (Z.of_nat i + batchSize) (Z.of_nat (length l))) l
  = take (Z.to_nat batchSize) (drop i l).
Proof.
  intros Hi Hb. unfold slice, relativeIndex.
  destruct (Z.ltb_spec (Z.of_nat i) 0); [lia|].
  destruct (Z.ltb_spec (Z.min (Z.of_nat i + batchSize) (Z.of_nat (length l))) 0);
    [lia|].
  replace (Nat.min (Z.to_nat (Z.of_nat i)) (length l)) with i by lia.
  destruct (Nat.le_gt_cases (Z.to_nat batchSize) (length l - i)) as [Hle|Hgt].
  - f_equal. lia.
  - rewrite !take_ge; [reflexivity | |]; rewrite length_drop; lia.
Qed.

Lemma processIcons_app vision synonyms (first rest : list jsstring) p :
  Plan.processIcons vision synonyms (first ++ rest) p
  = match Plan.processIcons vision synonyms first p with
    | Plan.Next p' => Plan.processIcons vision synonyms rest p'
    | Plan.Thrown p' => Plan.Thrown p'
    end.
Proof.
  revert p; induction first as [|iconId l IH]; intros p; [reflexivity|].
  cbn [app Plan.processIcons].
  destruct (Plan.processIcon vision synonyms p iconId); [apply IH | reflexivity].
Qed.

Lemma processIcon_throws vision synonyms p iconId :
  (exists p', Plan.processIcon vision synonyms p iconId = Plan.Thrown p')
  <-> throwsOn vision synonyms iconId = true.
Proof.
  unfold Plan.processIcon, Plan.processIconWithVision, throwsOn.
  destruct (truthy (vision iconId)) as [reply|]; cbn [Plan.vrSuccess Plan.vrKeyword].
  - destruct (Plan.displayThrows synonyms reply); split; eauto;
      try discriminate. intros [p' H]. discriminate.
  - split; [intros [p' H]|]; discriminate.
Qed.

(** The loop over a batch goes through exactly when no icon of the batch
    makes the display throw. *)
Lemma processIcons_Next vision synonyms (batch : list jsstring) p :
  (exists final, Plan.processIcons vision synonyms batch p = Plan.Next final)
  <-> forall iconId, In iconId batch -> throwsOn vision synonyms iconId = false.
Proof.
  revert p; induction batch as [|iconId l IH]; intros p; cbn [Plan.processIcons].
  - split; [intros _ ? [] | eauto].
  - pose proof (processIcon_throws vision synonyms p iconId) as Ht.
    destruct (Plan.processIcon vision synonyms p iconId) as [p'|p'].
    + rewrite IH. split.
      * intros H x [<-|Hx]; [|exact (H x Hx)].
        destruct (throwsOn vision synonyms iconId); [|reflexivity].
        destruct (proj2 Ht eq_refl) as [? ?]. discriminate.
      * intros H x Hx. apply H. right. exact Hx.
    + split; [intros [? ?]; discriminate|]. intros H. exfalso.
      assert (throwsOn vision synonyms iconId = true) by (apply Ht; eauto).
      rewrite (H iconId) in H0 by (left; reflexivity). discriminate.
Qed.

Lemma batches_run (vision : jsstring -> option jsstring) (synonyms : YotoSynonyms)
    (iconIds : list jsstring) (batchSize : Z) :
  (0 < batchSize)%Z ->
  forall fuel i p saved,
    (length iconIds - i <= fuel)%nat ->
    match Plan.processIcons vision synonyms (drop i iconIds) p with
    | Plan.Next final =>
        exists snapshots,
          Plan.batches fuel vision synonyms iconIds batchSize (Z.of_nat i) p saved
          = Some (Plan.completed final (saved ++ snapshots))
          /\ (snapshots = [] <-> (length iconIds <= i)%nat)
          /\ (length snapshots <= length iconIds - i)%nat
          /\ ((i < length iconIds)%nat ->
              last snapshots = Some (Plan.mappings final))
    | Plan.Thrown final =>
        exists snapshots,
          Plan.batches fuel vision synonyms iconIds batchSize (Z.of_nat i) p saved
          = Some (Plan.rejected final (saved ++ snapshots))
          /\ (length snapshots < length iconIds - i)%nat
    end.
Proof.
  intros Hb. induction fuel as [|fuel IH]; intros i p saved Hf.
  - rewrite drop_ge by lia. cbn [Plan.processIcons Plan.batches].
    destruct (Z.ltb_spec (Z.of_nat i) (Z.of_nat (length iconIds))); [lia|].
    exists []. rewrite app_nil_r.
    repeat split; try reflexivity; try (simpl; lia).
  - cbn [Plan.batches].
    destruct (Z.ltb_spec (Z.of_nat i) (Z.of_nat (length iconIds))) as [Hlt|Hge].
    + rewrite slice_batch by lia.
      replace (Z.of_nat i + batchSize)%Z
        with (Z.of_nat (i + Z.to_nat batchSize)) by lia.
      set (b := Z.to_nat batchSize).
      assert (Hsplit :
                Plan.processIcons vision synonyms (drop i iconIds) p
                = match Plan.processIcons vision synonyms
                          (take b (drop i iconIds)) p with
                  | Plan.Next p' =>
                      Plan.processIcons vision synonyms (drop (i + b) iconIds) p'
                  | Plan.Thrown p' => Plan.Thrown p'
                  end).
      { rewrite <- processIcons_app, <- drop_drop, take_drop. reflexivity. }
      rewrite Hsplit. clear Hsplit.
      destruct (Plan.processIcons vision synonyms (take b (drop i iconIds)) p)
        as [p'|p'].
      * specialize (IH (i + b)%nat p' (saved ++ [Plan.mappings p'])).
        destruct (Plan.processIcons vision synonyms (drop (i + b) iconIds) p')
          as [final|final] eqn:Er.
        -- destruct IH as (sn & E & H1 & H2 & H3); [lia|].
           exists (Plan.mappings p' :: sn). rewrite E, <- app_assoc.
           split; [reflexivity|]. split; [split; [discriminate | lia]|].
           split; [cbn [length]; subst b; lia|].
           intros _. destruct sn as [|m sn'].
           ++ cbn [last]. f_equal.
              rewrite drop_ge in Er by (apply H1; reflexivity).
              cbn [Plan.processIcons] in Er. congruence.
           ++ assert (Hgt : (i + b < length iconIds)%nat).
              { destruct (Nat.le_gt_cases (length iconIds) (i + b)) as [Hle|Hgt];
                  [|exact Hgt].
                apply H1 in Hle. discriminate. }
              rewrite last_cons, (H3 Hgt). reflexivity.
        -- destruct IH as (sn & E & H1); [lia|].
           exists (Plan.mappings p' :: sn). rewrite E, <- app_assoc.
           split; [reflexivity|]. cbn [length]. subst b. lia.
      * exists []. rewrite app_nil_r. split; [reflexivity|]. simpl. lia.
    + rewrite drop_ge by lia. cbn [Plan.processIcons].
      exists []. rewrite app_nil_r.
      repeat split; try reflexivity; simpl; lia.
Qed.

(** Plan mode ends when the start index is not negative and the batch size
    is positive, having processed the icons from the start index on, one
    after the other, whatever the batch size.  When no display throws it
    has gone through all of them; it has saved the mappings at least once
    if there was an icon to process, the last time with all of them, and
    never otherwise.  When a display throws it is rejected at that icon,
    having saved the mappings after each batch before. *)
Theorem runPlanMode_result (vision : jsstring -> option jsstring)
    (synonyms : YotoSynonyms) (iconIds : list jsstring)
    (existingMappings : gmap (list N) (list N))
    (startFrom batchSize : option Z) (fuel : nat) :
  (0 <= Plan.orDefault startFrom 0)%Z ->
  (0 < Plan.orDefault batchSize Plan.DEFAULT_BATCH_SIZE)%Z ->
  (length iconIds <= fuel)%nat ->
  let run :=
    Plan.runPlanMode fuel vision synonyms iconIds existingMappings
                     startFrom batchSize in
  match Plan.processIcons vision synonyms
          (drop (Z.to_nat (Plan.orDefault startFrom 0)) iconIds)
          (Plan.mkProgress existingMappings 0 0) with
  | Plan.Next final =>
      exists saved,
        run = Some (Plan.completed final saved)
        /\ (saved = []
            <-> (length iconIds <= Z.to_nat (Plan.orDefault startFrom 0))%nat)
        /\ (length saved <= length iconIds)%nat
        /\ (saved <> [] -> last saved = Some (Plan.mappings final))
  | Plan.Thrown final =>
      exists saved,
        run = Some (Plan.rejected final saved)
        /\ (length saved < length iconIds)%nat
  end.
Proof.
  intros Hs Hb Hf run. unfold run, Plan.runPlanMode.
  pose proof (batches_run vision synonyms iconIds _ Hb fuel
                (Z.to_nat (Plan.orDefault startFrom 0))
                (Plan.mkProgress existingMappings 0 0) [] ltac:(lia)) as H.
  rewrite Z2Nat.id in H by exact Hs.
  destruct (Plan.processIcons vision synonyms _ _) as [final|final].
  - destruct H as (sn & E & H1 & H2 & H3).
    exists sn. split; [exact E|]. split; [exact H1|]. split; [lia|].
    intros Hne. apply H3.
    destruct (Nat.le_gt_cases (length iconIds)
                (Z.to_nat (Plan.orDefault startFrom 0))) as [Hle|Hgt];
      [|exact Hgt].
    apply H1 in Hle. contradiction.
  - destruct H as (sn & E & H1). exists sn. split; [exact E | lia].
Qed.

Lemma runPlanMode_result_witness :
  (exists final saved,
     Plan.processIcons sampleVision [] [[49]; [50]; [51]] (Plan.mkProgress ∅ 0 0)
     = Plan.Next final
     /\ Plan.runPlanMode 3 sampleVision [] [[49]; [50]; [51]] ∅ None (Some 2%Z)
        = Some (Plan.completed final saved)
     /\ length saved = 2%nat)
  /\ (exists final,
        Plan.runPlanMode 3 namesConstructor [] [[49]; [50]; [51]] ∅ (Some 1%Z)
                         (Some 1%Z)
        = Some (Plan.rejected final [])).
Proof.
  split.
  - pose proof (runPlanMode_result sampleVision [] [[49]; [50]; [51]] ∅ None
                  (Some 2%Z) 3 ltac:(cbn; lia) ltac:(cbn; lia) ltac:(cbn; lia))
      as H.
    cbn zeta in H.
    destruct (Plan.processIcons sampleVision [] _ _) as [final|final] eqn:E;
      [|vm_compute in E; discriminate].
    destruct H as (saved & Hr & _). exists final, saved.
    split; [reflexivity|]. split; [exact Hr|].
    vm_compute in Hr. injection Hr as _ <-. reflexivity.
  - pose proof (runPlanMode_result namesConstructor [] [[49]; [50]; [51]] ∅
                  (Some 1%Z) (Some 1%Z) 3
                  ltac:(cbn; lia) ltac:(cbn; lia) ltac:(cbn; lia)) as H.
    cbn zeta in H.
    destruct (Plan.processIcons namesConstructor [] _ _) as [final|final] eqn:E;
      [vm_compute in E; discriminate|].
    destruct H as (saved & Hr & _). exists final.
    pose proof Hr as Hr'. vm_compute in Hr'. injection Hr' as _ <-. exact Hr.
Defined.

Lemma batches_negative_size (vision : jsstring -> option jsstring)
    (synonyms : YotoSynonyms) (iconIds : list jsstring) (batchSize : Z) :
  (batchSize < 0)%Z ->
  forall fuel i p saved,
    (i < Z.of_nat (length iconIds))%Z ->
    (forall final snapshots,
       Plan.batches fuel vision synonyms iconIds batchSize i p saved
       <> Some (Plan.completed final snapshots))
    /\ ((forall iconId, In iconId iconIds ->
           throwsOn vision synonyms iconId = false) ->
        Plan.batches fuel vision synonyms iconIds batchSize i p saved = None).
Proof.
  intros Hb. induction fuel as [|fuel IH]; intros i p saved Hi;
    cbn [Plan.batches];
    destruct (Z.ltb_spec i (Z.of_nat (length iconIds))); try lia;
    [split; [discriminate | reflexivity]|].
  set (batch := slice i (Z.min (i + batchSize) (Z.of_nat (length iconIds))) iconIds).
  pose proof (processIcons_Next vision synonyms batch p) as Hn.
  destruct (Plan.processIcons vision synonyms batch p) as [p'|p'].
  - apply IH. lia.
  - split; [discriminate|]. intros Hno. exfalso.
    assert (H0 : exists final : Plan.Progress, Plan.Thrown p' = Plan.Next final).
    { apply Hn. intros iconId Hin. apply Hno. unfold batch, slice in Hin.
      apply In_take in Hin. apply list_elem_of_In in Hin.
      apply list_elem_of_In. eapply subseteq_drop. exact Hin. }
    destruct H0 as [? ?]. discriminate.
Qed.

(** Plan mode never goes through the batches on a negative batch size when
    the start index is below the number of icons: the index only goes
    down.  It never ends at all then, unless the display of the synonyms
    throws on an icon. *)
Theorem runPlanMode_negative_batch (vision : jsstring -> option jsstring)
    (synonyms : YotoSynonyms) (iconIds : list jsstring)
    (existingMappings : gmap (list N) (list N))
    (startFrom batchSize : option Z) :
  (Plan.orDefault batchSize Plan.DEFAULT_BATCH_SIZE < 0)%Z ->
  (Plan.orDefault startFrom 0 < Z.of_nat (length iconIds))%Z ->
  (forall fuel final saved,
     Plan.runPlanMode fuel vision synonyms iconIds existingMappings
                      startFrom batchSize
     <> Some (Plan.completed final saved))
  /\ ((forall iconId, In iconId iconIds ->
         throwsOn vision synonyms iconId = false) ->
      forall fuel,
        Plan.runPlanMode fuel vision synonyms iconIds existingMappings
                         startFrom batchSize
        = None).
Proof.
  intros Hb Hs. unfold Plan.runPlanMode. split.
  - intros fuel. apply batches_negative_size; assumption.
  - intros Hno fuel. apply batches_negative_size; assumption.
Qed.

Lemma runPlanMode_negative_batch_witness :
  Plan.runPlanMode 1000 sampleVision [] [[49]; [50]; [51]] ∅ None (Some (-5)%Z)
  = None.
Proof.
  refine (proj2 (runPlanMode_negative_batch sampleVision [] [[49]; [50]; [51]] ∅
                   None (Some (-5)%Z) _ _) _ 1000%nat).
  - cbn. lia.
  - cbn. lia.
  - intros iconId [<-|[<-|[<-|[]]]]; vm_compute; reflexivity.
Defined.

(** ** The mappings plan mode writes *)

Lemma writeProperty_other (o : gmap (list N) (list N)) (name value k : jsstring) :
  name <> k -> Plan.writeProperty o name value !! k = o !! k.
Proof.
  intros Hne. unfold Plan.writeProperty.
  destruct (o !! name); [apply lookup_insert_ne; exact Hne|].
  destruct (Str.eqb name Lit.protoName); [reflexivity|].
  apply lookup_insert_ne. exact Hne.
Qed.

Lemma writeProperty_same (o : gmap (list N) (list N)) (name value : jsstring) :
  name <> Lit.protoName \/ is_Some (o !! name) ->
  Plan.writeProperty o name value !! name = Some value.
Proof.
  intros H. unfold Plan.writeProperty.
  destruct (o !! name) eqn:E; [apply lookup_insert_eq|].
  destruct (Str.eqb name Lit.protoName) eqn:Ep; [|apply lookup_insert_eq].
  apply Str_eqb_eq in Ep. destruct H as [H|[? H]]; [contradiction | discriminate].
Qed.

Lemma writeProperty_proto (o : gmap (list N) (list N)) (name value : jsstring) :
  o !! Lit.protoName = None ->
  Plan.writeProperty o name value !! Lit.protoName = None.
Proof.
  intros H. unfold Plan.writeProperty.
  destruct (Str.eqb name Lit.protoName) eqn:Ep.
  - apply Str_eqb_eq in Ep. subst name. rewrite H. exact H.
  - assert (Hne : name <> Lit.protoName)
      by (intros ->; rewrite Str_eqb_refl in Ep; discriminate).
    destruct (o !! name); rewrite lookup_insert_ne by exact Hne; exact H.
Qed.

(** What a turn that does not throw leaves. *)
Lemma processIcon_Next vision synonyms p iconId p' :
  Plan.processIcon vision synonyms p iconId = Plan.Next p' ->
  match truthy (vision iconId) with
  | Some reply =>
      p' = Plan.mkProgress
             (Plan.writeProperty (Plan.mappings p) reply (Lit.yotoPrefix ++ iconId))
             (S (Plan.processedCount p)) (S (Plan.successCount p))
  | None =>
      p' = Plan.mkProgress (Plan.mappings p) (S (Plan.processedCount p))
                           (Plan.successCount p)
  end.
Proof.
  unfold Plan.processIcon, Plan.processIconWithVision.
  destruct (truthy (vision iconId)) as [reply|];
    cbn [Plan.vrSuccess Plan.vrKeyword Plan.vrIconId].
  - destruct (Plan.displayThrows synonyms reply); [discriminate|].
    intros [= <-]. reflexivity.
  - intros [= <-]. reflexivity.
Qed.

(** Plan mode goes through a list of icons exactly when the display throws
    on none of them.  After it has, a keyword is mapped to the last of
    them that the vision model named so, behind the prefix, and keeps the
    mapping it had when the model named none so; but the keyword
    [__proto__] is written only where the mappings had it before, and is
    left without a mapping otherwise.  The empty keyword is never written.
    Every icon is counted as processed, and as a success when the model
    had a name for it. *)
Theorem processed_icons_mapping (vision : jsstring -> option jsstring)
    (synonyms : YotoSynonyms) (iconIds : list jsstring) (p : Plan.Progress) :
  ((exists final, Plan.processIcons vision synonyms iconIds p = Plan.Next final)
   <-> forall iconId, In iconId iconIds -> throwsOn vision synonyms iconId = false)
  /\ forall final,
       Plan.processIcons vision synonyms iconIds p = Plan.Next final ->
       (forall keyword,
          keyword <> Lit.protoName \/ is_Some (Plan.mappings p !! keyword) ->
          Plan.mappings final !! keyword
          = match find (namedBy vision keyword) (rev iconIds) with
            | Some iconId => Some (Lit.yotoPrefix ++ iconId)
            | None => Plan.mappings p !! keyword
            end)
       /\ (Plan.mappings p !! Lit.protoName = None ->
           Plan.mappings final !! Lit.protoName = None)
       /\ Plan.mappings final !! [] = Plan.mappings p !! []
       /\ Plan.processedCount final = (Plan.processedCount p + length iconIds)%nat
       /\ Plan.successCount final
          = (Plan.successCount p + length (List.filter (named vision) iconIds))%nat.
Proof.
  split; [apply processIcons_Next|].
  assert (Hl : forall final,
            Plan.processIcons vision synonyms iconIds p = Plan.Next final ->
            forall keyword,
              keyword <> Lit.protoName \/ is_Some (Plan.mappings p !! keyword) ->
              Plan.mappings final !! keyword
              = match find (namedBy vision keyword) (rev iconIds) with
                | Some iconId => Some (Lit.yotoPrefix ++ iconId)
                | None => Plan.mappings p !! keyword
                end).
  { induction iconIds as [|id ids IH] using rev_ind; intros final Hr keyword Hk.
    - cbn in Hr. injection Hr as <-. reflexivity.
    - rewrite processIcons_app in Hr.
      destruct (Plan.processIcons vision synonyms ids p) as [mid|mid];
        [|discriminate].
      specialize (IH mid eq_refl keyword Hk).
      cbn [Plan.processIcons] in Hr.
      destruct (Plan.processIcon vision synonyms mid id) as [p'|p'] eqn:Ep;
        [|discriminate].
      injection Hr as ->. apply processIcon_Next in Ep.
      rewrite rev_app_distr. cbn [rev app find]. unfold namedBy at 1.
      destruct (truthy (vision id)) as [reply|]; subst final; cbn [Plan.mappings].
      + destruct (Str.eqb reply keyword) eqn:Ek.
        * apply Str_eqb_eq in Ek as ->. apply writeProperty_same.
          destruct Hk as [Hk|Hk]; [left; exact Hk|]. right. rewrite IH.
          destruct (find _ _); [eauto | exact Hk].
        * rewrite writeProperty_other; [exact IH|].
          intros ->. rewrite Str_eqb_refl in Ek. discriminate.
      + exact IH. }
  intros final Hr. split; [exact (Hl final Hr)|]. split; [|split].
  - clear Hl. revert p final Hr.
    induction iconIds as [|id ids IH]; intros p final Hr Hp; cbn in Hr.
    + injection Hr as <-. exact Hp.
    + destruct (Plan.processIcon vision synonyms p id) as [p'|p'] eqn:Ep;
        [|discriminate].
      apply (IH p' final Hr). apply processIcon_Next in Ep.
      destruct (truthy (vision id)); subst p'; cbn [Plan.mappings];
        [apply writeProperty_proto|]; exact Hp.
  - rewrite (Hl final Hr []) by (left; discriminate).
    destruct (find _ (rev iconIds)) as [id|] eqn:Ef; [|reflexivity].
    apply find_some in Ef as [_ Ef]. unfold namedBy in Ef.
    destruct (truthy (vision id)) as [kw|] eqn:Ev; [|discriminate].
    apply truthy_Some in Ev as [_ Hne].
    apply Str_eqb_eq in Ef. contradiction.
  - clear Hl. revert p final Hr.
    induction iconIds as [|id ids IH]; intros p final Hr;
      cbn [Plan.processIcons length List.filter] in *.
    + injection Hr as <-. split; lia.
    + destruct (Plan.processIcon vision synonyms p id) as [p'|p'] eqn:Ep;
        [|discriminate].
      destruct (IH p' final Hr) as [H1 H2]. rewrite H1, H2.
      apply processIcon_Next in Ep. unfold named at 2.
      destruct (truthy (vision id)); subst p';
        cbn [Plan.processedCount Plan.successCount length]; split; lia.
Qed.

Lemma processed_icons_mapping_witness :
  exists final,
    Plan.processIcons sampleVision [] [[49]; [50]; [51]] (Plan.mkProgress ∅ 0 0)
    = Plan.Next final
    /\ Plan.mappings final !! dog = Some (Lit.yotoPrefix ++ [51])
    /\ Plan.successCount final = 2%nat.
Proof.
  destruct (Plan.processIcons sampleVision [] [[49]; [50]; [51]]
              (Plan.mkProgress ∅ 0 0)) as [final|final] eqn:Hr;
    [|vm_compute in Hr; discriminate].
  exists final. split; [reflexivity|].
  destruct (proj2 (processed_icons_mapping sampleVision [] [[49]; [50]; [51]]
                     (Plan.mkProgress ∅ 0 0)) final Hr)
    as (H1 & _ & _ & _ & H2).
  split.
  - rewrite (H1 dog) by (left; vm_compute; discriminate).
    vm_compute. reflexivity.
  - rewrite H2. vm_compute. reflexivity.
Defined.

(** ** Reading the icon identifiers *)

Lemma splitOn_head (sep : N) (s : jsstring) :
  exists w ws, splitOn sep s = w :: ws.
Proof.
  induction s as [|c s (w & ws & E)]; cbn [splitOn]; [eauto|].
  destruct (c =? sep); [eauto|]. rewrite E. eauto.
Qed.

Lemma splitOn_single (sep : N) (x : jsstring) :
  ~ In sep x -> splitOn sep x = [x].
Proof.
  induction x as [|c x IH]; intros H; cbn [splitOn]; [reflexivity|].
  destruct (N.eqb_spec c sep) as [->|Hc]; [exfalso; apply H; left; reflexivity|].
  rewrite IH by (intros Hin; apply H; right; exact Hin). reflexivity.
Qed.

Lemma splitOn_app (sep : N) (x rest : jsstring) :
  ~ In sep x -> splitOn sep (x ++ sep :: rest) = x :: splitOn sep rest.
Proof.
  induction x as [|c x IH]; intros H; cbn [app splitOn].
  - rewrite N.eqb_refl. reflexivity.
  - destruct (N.eqb_spec c sep) as [->|Hc]; [exfalso; apply H; left; reflexivity|].
    rewrite IH by (intros Hin; apply H; right; exact Hin). reflexivity.
Qed.

Lemma splitOn_no_sep (sep : N) (s w : jsstring) :
  In w (splitOn sep s) -> ~ In sep w.
Proof.
  revert w; induction s as [|c s IH]; intros w; cbn [splitOn].
  - intros [<-|[]] [].
  - destruct (N.eqb_spec c sep) as [->|Hc].
    + intros [<-|H]; [intros [] | exact (IH w H)].
    + destruct (splitOn_head sep s) as (w0 & ws & E). rewrite E in *.
      intros [<-|H].
      * intros [Hx|Hx]; [congruence|]. exact (IH w0 (or_introl eq_refl) Hx).
      * exact (IH w (or_intror H)).
Qed.

Lemma splitOn_joinLines (lines : list jsstring) :
  lines <> [] -> Forall (fun line => ~ In 10 line) lines ->
  splitOn 10 (joinLines lines) = lines.
Proof.
  destruct lines as [|first rest]; [congruence|]. intros _ H.
  inversion H as [|? ? Hf Hr]; subst. clear H. cbn [joinLines].
  revert first Hf. induction Hr as [|line rest Hl Hr IH]; intros first Hf.
  - cbn [flat_map]. rewrite app_nil_r. apply splitOn_single. exact Hf.
  - cbn [flat_map app]. rewrite splitOn_app by exact Hf. f_equal.
    apply IH. exact Hl.
Qed.

Lemma trimStart_spaces (lead s : jsstring) :
  Forall (fun c => isSpace c = true) lead -> trimStart (lead ++ s) = trimStart s.
Proof.
  induction 1 as [|c l Hc _ IH]; [reflexivity|].
  cbn [app trimStart]. rewrite Hc. exact IH.
Qed.

Lemma trim_padded (lead s trail : jsstring) :
  Forall (fun c => isSpace c = true) lead ->
  Forall (fun c => isSpace c = true) trail ->
  headFree s = true -> headFree (rev s) = true ->
  trim (lead ++ s ++ trail) = s.
Proof.
  intros Hl Ht Hh Hr. unfold trim, trimEnd.
  rewrite trimStart_spaces by exact Hl.
  destruct s as [|c s'].
  - cbn [app].
    assert (E : trimStart trail = [])
      by (rewrite <- (app_nil_r trail), trimStart_spaces by exact Ht; reflexivity).
    rewrite E. reflexivity.
  - rewrite (trimStart_fixed ((c :: s') ++ trail)) by exact Hh.
    rewrite rev_app_distr, trimStart_spaces by (apply Forall_rev; exact Ht).
    rewrite (trimStart_fixed (rev (c :: s')) Hr). apply rev_involutive.
Qed.

Lemma cleanLine_trim (line : jsstring) : cleanLine line -> trim line = line.
Proof.
  intros [Hne Hc]. apply trim_fixed.
  - destruct line as [|c l]; [reflexivity|]. inversion Hc; subst.
    cbn [headFree]. apply negb_true_iff. assumption.
  - apply Forall_rev in Hc. destruct (rev line) as [|c l]; [reflexivity|].
    inversion Hc; subst. cbn [headFree]. apply negb_true_iff. assumption.
Qed.

Lemma joinLines_ends (lines : list jsstring) :
  lines <> [] -> Forall cleanLine lines ->
  headFree (joinLines lines) = true /\ headFree (rev (joinLines lines)) = true.
Proof.
  destruct lines as [|first rest]; [congruence|]. intros _ H.
  inversion H as [|? ? [Hne Hc] Hr]; subst. clear H. cbn [joinLines]. split.
  - destruct first as [|c l]; [congruence|]. inversion Hc; subst.
    cbn [app headFree]. apply negb_true_iff. assumption.
  - revert first Hne Hc. induction Hr as [|line rest [Hne' Hc'] Hr IH];
      intros first Hne Hc.
    + cbn [flat_map]. rewrite app_nil_r. apply Forall_rev in Hc.
      destruct (rev first) as [|c l] eqn:E.
      * apply (f_equal (@rev N)) in E. rewrite rev_involutive in E. simpl in E.
        congruence.
      * inversion Hc; subst. cbn [headFree]. apply negb_true_iff. assumption.
    + cbn [flat_map]. specialize (IH line Hne' Hc').
      replace (first ++ (10 :: line) ++ flat_map (fun l => 10 :: l) rest)
        with ((first ++ [10]) ++ (line ++ flat_map (fun l => 10 :: l) rest))
        by (rewrite <- !app_assoc; reflexivity).
      rewrite rev_app_distr.
      destruct (rev (line ++ flat_map (fun l => 10 :: l) rest)) as [|c l] eqn:E.
      * apply (f_equal (@rev N)) in E. rewrite rev_involutive in E. simpl in E.
        destruct line; [congruence | discriminate].
      * cbn [app headFree] in *. exact IH.
Qed.

Lemma trim_blank (s : jsstring) :
  Forall (fun c => isSpace c = true) s -> trim s = [].
Proof.
  intros H. rewrite <- (app_nil_r s). change (s ++ []) with (s ++ [] ++ []).
  apply trim_padded; [exact H | constructor | reflexivity | reflexivity].
Qed.

(** Identifiers without white space, written one per line, are read back
    as they were written, whatever white space stands before the first
    and after the last; a file of white space gives none.  In general no
    identifier read is blank or holds a line feed. *)
Theorem loadIconIds_round_trip (iconIds : list jsstring) (lead trail : jsstring) :
  Forall cleanLine iconIds ->
  Forall (fun c => isSpace c = true) lead ->
  Forall (fun c => isSpace c = true) trail ->
  loadIconIds (lead ++ joinLines iconIds ++ trail) = iconIds
  /\ forall content iconId,
       In iconId (loadIconIds content) ->
       trim iconId <> [] /\ ~ In 10 iconId.
Proof.
  intros Hc Hl Ht. split.
  - unfold loadIconIds. destruct iconIds as [|first rest].
    + cbn [joinLines app]. rewrite trim_blank; [reflexivity|].
      apply Forall_app. split; assumption.
    + destruct (joinLines_ends (first :: rest) ltac:(discriminate) Hc) as [Hh Hr].
      rewrite trim_padded by assumption.
      rewrite splitOn_joinLines; [|discriminate|].
      * apply filter_fixed. eapply List.Forall_impl; [|exact Hc].
        intros line Hline. rewrite (cleanLine_trim line Hline).
        destruct Hline as [Hne _]. destruct line; [congruence | reflexivity].
      * eapply List.Forall_impl; [|exact Hc]. intros line [_ Hs] Hin.
        rewrite List.Forall_forall in Hs. specialize (Hs 10 Hin). discriminate.
  - intros content iconId Hin. unfold loadIconIds in Hin.
    apply filter_In in Hin as [Hin Hf]. split.
    + intros E. rewrite E in Hf. discriminate.
    + exact (splitOn_no_sep _ _ _ Hin).
Qed.

Lemma loadIconIds_round_trip_witness :
  loadIconIds ([32] ++ joinLines [[97; 49]; [98; 50]] ++ [10; 10]) = [[97; 49]; [98; 50]].
Proof.
  apply (loadIconIds_round_trip [[97; 49]; [98; 50]] [32] [10; 10]).
  - repeat constructor; discriminate.
  - repeat constructor.
  - repeat constructor.
Defined.

Lemma analyzePlaylist_matches_witness :
  In (tmTrack aiMatchSample) (Yoto.tracks twoTracks).
Proof.
  apply (analyzePlaylist_matches dogFiles answersDog twoTracks english true
           initialCaches aiMatchSample).
  vm_compute. right. left. reflexivity.
Defined.
